(** * httpie: the command-line specification compiler ([httpie/cli/options.py])

    A shallow embedding of [httpie.cli.options]: the [Qualifiers]
    enumeration, [map_qualifiers], the [ParserSpec] / [Group] / [Argument]
    data model with its builder methods, the schema compiler ([serialize],
    [to_json]) and the executable-parser compiler ([to_argparse]).

    Modelling choices.
    - Python values of type [Any] are the inductive [value].
    - A [dict] keyed by strings is a [gmap string value]: the properties
      below are about keys and values, not about the order of insertion.
      Where the code iterates over a dictionary the model iterates over the
      items of the map, so which of several failing items raises first is
      left open.
    - A raised exception is the [Raise] branch of the [raising] monad.
    - A Python [str] is a [string]; a character stands for the code point
      of the same number, so the texts covered are those of code points
      below 256. *)

From Stdlib Require Import Ascii String ZArith Lia.
From Stdlib Require DecimalString DecimalZ DecimalPos.
From stdpp Require Import gmap strings list fin_maps.

Local Set Warnings "-register-all".
Local Open Scope string_scope.
Local Open Scope list_scope.

(** ** Python values *)

(** [class Qualifiers(Enum)], options.py lines 14-17. *)
Inductive Qualifiers := OPTIONAL | ZERO_OR_MORE | SUPPRESS.

Global Instance Qualifiers_eq_dec : EqDecision Qualifiers.
Proof. solve_decision. Defined.

Global Instance Qualifiers_countable : Countable Qualifiers.
Proof.
  refine (inj_countable'
            (λ q, match q with OPTIONAL => 1 | ZERO_OR_MORE => 2 | SUPPRESS => 3 end)
            (λ n, match n with 1 => OPTIONAL | 2 => ZERO_OR_MORE | _ => SUPPRESS end) _).
  by intros [].
Defined.

(** The values a configuration can hold.  [VObj name cls] is any other
    object: [name] is its [__name__] attribute when it has one (functions
    and classes do), [cls] is [type(obj).__name__].  It stands for the
    objects that the declarations of the interface put in a
    configuration besides the values above, converters and actions:
    functions, classes and their instances, which are true, can be hashed
    and have no [strip].  Objects of other builtin types ([bytes], a
    tuple, a float) are not among the values. *)
Inductive value :=
| VNone
| VBool (b : bool)
| VInt (n : Z)
| VStr (s : string)
| VQual (q : Qualifiers)
| VList (items : list value)
| VDict (d : gmap string value)
| VObj (name : option string) (class_name : string).

(** The exceptions of the model.  [ResolutionError] is what a Lazy Choice
    Resolver raises, [SpecificationError] what the parser library raises
    when an argument cannot be registered. *)
Inductive exn :=
| KeyError (key : value)
| TypeError (message : string)
| AttributeError (attribute : string)
| IndexError
| ResolutionError
| SpecificationError (alias : string).

(** ** The error monad *)

Inductive raising (A : Type) :=
| Ok (a : A)
| Raise (e : exn).
Arguments Ok {A} a.
Arguments Raise {A} e.

Global Instance raising_ret : MRet raising := λ A a, Ok a.
Global Instance raising_bind : MBind raising :=
  λ A B f m, match m with Ok a => f a | Raise e => Raise e end.

(** The computation returns. *)
Definition returns {A : Type} (m : raising A) : bool :=
  match m with Ok _ => true | Raise _ => false end.

(** A [for] loop that threads a state through a body that can raise. *)
Fixpoint foldlM {S A : Type} (body : S → A → raising S) (s : S) (l : list A)
  : raising S :=
  match l with
  | [] => Ok s
  | x :: l' => s' ← body s x; foldlM body s' l'
  end.

(** ** Python primitives *)

Module Py.

(** [bool(v)]: the truth value of an object. *)
Definition truthy (v : value) : bool :=
  match v with
  | VNone => false
  | VBool b => b
  | VInt n => negb (n =? 0)%Z
  | VStr s => negb (String.length s =? 0)%nat
  | VQual _ => true
  | VList items => negb (length items =? 0)%nat
  | VDict d => negb (size d =? 0)%nat
  | VObj _ _ => true
  end.

(** [v is None]. *)
Definition is_none (v : value) : bool :=
  match v with VNone => true | _ => false end.

(** [v is q] for an enumeration member [q]. *)
Definition is_qualifier (v : value) (q : Qualifiers) : bool :=
  match v with VQual q' => bool_decide (q' = q) | _ => false end.

(** [v == s] for a string literal [s]. *)
Definition eq_str (v : value) (s : string) : bool :=
  match v with VStr s' => bool_decide (s' = s) | _ => false end.

(** [isinstance(v, Qualifiers)]. *)
Definition is_Qualifiers (v : value) : bool :=
  match v with VQual _ => true | _ => false end.

(** The member behind a value that is a [Qualifiers] instance. *)
Definition as_qualifier (v : value) : option Qualifiers :=
  match v with VQual q => Some q | _ => None end.

(** Lists and dictionaries cannot be hashed. *)
Definition hashable (v : value) : bool :=
  match v with VList _ | VDict _ => false | _ => true end.

(** [type(v).__name__]. *)
Definition class_name (v : value) : string :=
  match v with
  | VNone => "NoneType"
  | VBool _ => "bool"
  | VInt _ => "int"
  | VStr _ => "str"
  | VQual _ => "Qualifiers"
  | VList _ => "list"
  | VDict _ => "dict"
  | VObj _ cls => cls
  end.

(** [d[key]] on a dictionary keyed by strings. *)
Definition getitem (d : gmap string value) (key : string) : raising value :=
  match d !! key with
  | Some v => Ok v
  | None => Raise (KeyError (VStr key))
  end.

(** [table[key]] on a dictionary whose keys are [Qualifiers] members,
    for a key that can be any object: hashing an unhashable key raises
    [TypeError], a key that is no member of the table raises [KeyError]. *)
Definition getitem_qualifier {A : Type} (table : gmap Qualifiers A)
    (key : value) : raising A :=
  if hashable key then
    match as_qualifier key ≫= (table !!.) with
    | Some entry => Ok entry
    | None => Raise (KeyError key)
    end
  else Raise (TypeError "unhashable type").

(** [l[0]]. *)
Definition first {A : Type} (l : list A) : raising A :=
  match l with
  | x :: _ => Ok x
  | [] => Raise IndexError
  end.

(** [str.isspace] on one character. *)
Definition isspace (c : ascii) : bool :=
  let n := nat_of_ascii c in
  ((9 <=? n) && (n <=? 13) || (28 <=? n) && (n <=? 32)
   || (n =? 133) || (n =? 160))%nat.

(** The line boundaries of [str.splitlines]: LF, VT, FF, CR, FS, GS, RS
    and NEL. *)
Definition is_linebreak (c : ascii) : bool :=
  let n := nat_of_ascii c in
  ((10 <=? n) && (n <=? 13) || (28 <=? n) && (n <=? 30) || (n =? 133))%nat.

Fixpoint lstrip (s : string) : string :=
  match s with
  | EmptyString => EmptyString
  | String c s' => if isspace c then lstrip s' else s
  end.

Fixpoint rstrip (s : string) : string :=
  match s with
  | EmptyString => EmptyString
  | String c s' =>
      match rstrip s' with
      | EmptyString => if isspace c then EmptyString else String c EmptyString
      | r => String c r
      end
  end.

(** [s.strip()]. *)
Definition strip (s : string) : string := rstrip (lstrip s).

(** [s.splitlines()]: CR LF counts as one boundary, and a boundary at
    the very end opens no further line. *)
Fixpoint splitlines (s : string) : list string :=
  match s with
  | EmptyString => []
  | String c s' =>
      if is_linebreak c then
        EmptyString ::
          (if Ascii.eqb c "013"%char then
             match s' with
             | String "010"%char s'' => splitlines s''
             | _ => splitlines s'
             end
           else splitlines s')
      else
        match splitlines s' with
        | [] => [String c EmptyString]
        | line :: lines => String c line :: lines
        end
  end.

(** The text before the first line boundary. *)
Fixpoint first_line (s : string) : string :=
  match s with
  | EmptyString => EmptyString
  | String c s' =>
      if is_linebreak c then EmptyString else String c (first_line s')
  end.

(** [v.strip()]: only strings have the method. *)
Definition strip_method (v : value) : raising string :=
  match v with
  | VStr s => Ok (strip s)
  | _ => Raise (AttributeError "strip")
  end.

End Py.

(** ** The qualifier model *)

(** The item that the comprehension of [map_qualifiers] builds from one
    item of the configuration, line 24: a [Qualifiers] value is looked up
    in [qualifier_map], where a missing member raises [KeyError]. *)
Definition map_item (qualifier_map : gmap Qualifiers value)
    (item : string * value) : raising (string * value) :=
  let '(key, value) := item in
  value' ← (if Py.is_Qualifiers value
            then Py.getitem_qualifier qualifier_map value
            else Ok value);
  Ok (key, value').

(** [map_qualifiers], options.py lines 20-26: the comprehension visits the
    items of [configuration] and collects the mapped items in a new
    dictionary. *)
Definition map_qualifiers (configuration : gmap string value)
    (qualifier_map : gmap Qualifiers value) : raising (gmap string value) :=
  items ← mapM (map_item qualifier_map) (map_to_list configuration);
  Ok (list_to_map items).

(** [PARSER_SPEC_VERSION], line 29. *)
Definition PARSER_SPEC_VERSION : string := "1.0.0".

(** [JSON_DIRECT_MIRROR_OPTIONS], lines 174-177. *)
Definition JSON_DIRECT_MIRROR_OPTIONS : list string := ["choices"; "metavar"].

(** [JSON_QUALIFIER_TO_OPTIONS], lines 180-184. *)
Definition JSON_QUALIFIER_TO_OPTIONS : gmap Qualifiers (gmap string value) :=
  {[ OPTIONAL := {[ "is_optional" := VBool true ]};
     ZERO_OR_MORE := {[ "is_optional" := VBool true;
                        "is_variadic" := VBool true ]};
     SUPPRESS := ∅ ]}.

(** ** The Lazy Choice Resolver *)

(** Modelled from the spec: the class [LazyChoices] of [httpie.cli.utils],
    which is not among the sources.  Spec 4.2: it is constructed from the
    aliases and the configuration of an argument, and exposes [load()],
    which yields the finite sequence of legal values or fails, and a
    [help] attribute.  The class is a parameter of the development. *)
Record Resolver := {
  load : raising (list value);
  help : value;
}.

Class LazyChoicesImpl :=
  LazyChoices : list string → gmap string value → raising Resolver.

(** ** The data model and the schema compiler *)

Module Argument.

(** [class Argument(typing.NamedTuple)], lines 83-85. *)
Record t := {
  aliases : list string;
  configuration : gmap string value;
}.

(** The choice set is resolved lazily: the sentinel the compilers
    recognize, [action='lazy_choices']. *)
Definition lazily_resolved (self : t) : Prop :=
  configuration self !! "action" = Some (VStr "lazy_choices").

Global Instance lazily_resolved_dec (self : t) :
  Decision (lazily_resolved self).
Proof.
  unfold lazily_resolved.
  destruct (configuration self !! "action") as [[| | |s| | | |]|];
    try (right; congruence).
  destruct (decide (s = "lazy_choices")) as [->|];
    [by left | right; congruence].
Defined.

Section serialize.
Context {resolvers : LazyChoicesImpl}.

(** Lines 92-96: [action] is popped from the copy of the configuration;
    for [lazy_choices] the resolver is built from the aliases and the
    remaining configuration, [dest] defaulting to [None], and its
    values and help replace [choices] and [help]. *)
Definition unpack_choices (self : t) : raising (gmap string value) :=
  let configuration := configuration self in
  let action := default VNone (configuration !! "action") in
  let configuration := delete "action" configuration in
  if Py.eq_str action "lazy_choices" then
    choices ← LazyChoices (aliases self)
                (configuration ∪ {[ "dest" := VNone ]});
    loaded ← load choices;
    let configuration := <[ "choices" := VList loaded ]> configuration in
    Ok (<[ "help" := help choices ]> configuration)
  else Ok configuration.

(** The help text that [serialize] reads: the resolver's for lazily
    resolved choices, the configuration's otherwise, [None] when
    there is none. *)
Definition help_in_effect (self : t) : raising value :=
  configuration ← unpack_choices self;
  Ok (default VNone (configuration !! "help")).

(** Lines 98-103. *)
Definition options_of (self : t) (configuration : gmap string value)
  : raising (gmap string value) :=
  if bool_decide (aliases self ≠ []) then
    Ok {[ "options" := VList (VStr <$> aliases self) ]}
  else
    metavar ← Py.getitem configuration "metavar";
    Ok (<[ "is_positional" := VBool true ]> {[ "options" := metavar ]}).

(** Lines 108-110. *)
Definition describe (configuration result : gmap string value)
  : raising (gmap string value) :=
  let help_msg := default VNone (configuration !! "help") in
  if Py.truthy help_msg && negb (Py.is_qualifier help_msg SUPPRESS) then
    stripped ← Py.strip_method help_msg;
    line ← Py.first (Py.splitlines stripped);
    Ok (<[ "description" := VStr line ]> result)
  else Ok result.

(** Lines 112-119. *)
Definition name_type (configuration result : gmap string value)
  : gmap string value :=
  let python_type := default VNone (configuration !! "type") in
  if negb (Py.is_none python_type) then
    let type_name :=
      match python_type with
      | VObj (Some name) _ => name
      | _ => Py.class_name python_type
      end in
    <[ "python_type_name" := VStr type_name ]> result
  else result.

(** [Argument.serialize], lines 87-127. *)
Definition serialize (self : t) : raising (gmap string value) :=
  configuration ← unpack_choices self;
  result ← options_of self configuration;
  qualifiers ← Py.getitem_qualifier JSON_QUALIFIER_TO_OPTIONS
                 (default (VQual SUPPRESS) (configuration !! "nargs"));
  let result := qualifiers ∪ result in
  result ← describe configuration result;
  let result := name_type configuration result in
  Ok (filter (λ item, item.1 ∈ JSON_DIRECT_MIRROR_OPTIONS) configuration
        ∪ result).
End serialize.

End Argument.

Module Group.

(** [class Group], lines 59-64. *)
Record t := {
  name : string;
  description : string;
  is_mutually_exclusive : bool;
  arguments : list Argument.t;
}.

(** [Group.finalize], lines 66-67: the description is dedented in place
    and nothing is returned; the result is the group after the call.
    [dedent] stands for [textwrap.dedent]. *)
Definition finalize (dedent : string → string) (self : t) : t :=
  {| name := name self;
     description := dedent (description self);
     is_mutually_exclusive := is_mutually_exclusive self;
     arguments := arguments self |}.

(** [Group.add_argument], lines 69-72: the new argument goes to the end
    of the list held by the group; the method returns the argument, the
    second component is the group after the call. *)
Definition add_argument (self : t) (args : list string)
    (kwargs : gmap string value) : Argument.t * t :=
  let argument := Argument.Build_t args kwargs in
  (argument,
   {| name := name self;
      description := description self;
      is_mutually_exclusive := is_mutually_exclusive self;
      arguments := arguments self ++ [argument] |}).

(** [Group.serialize], lines 74-80. *)
Definition serialize {resolvers : LazyChoicesImpl} (self : t)
  : raising (gmap string value) :=
  args ← mapM Argument.serialize (arguments self);
  Ok {[ "name" := VStr (name self);
        "description" := VStr (description self);
        "is_mutually_exclusive" := VBool (is_mutually_exclusive self);
        "args" := VList (VDict <$> args) ]}.

End Group.

Module ParserSpec.

(** [class ParserSpec], lines 32-37. *)
Record t := {
  program : string;
  description : string;
  epilog : string;
  groups : list Group.t;
}.

(** [ParserSpec.finalize], lines 39-44: the description and the epilog
    are dedented in place, every group is finalized, and [self] is
    returned.  [dedent] stands for [textwrap.dedent]. *)
Definition finalize (dedent : string → string) (self : t) : t :=
  {| program := program self;
     description := dedent (description self);
     epilog := dedent (epilog self);
     groups := Group.finalize dedent <$> groups self |}.

(** A [Group] object is shared by the list [groups] and by whoever holds
    the reference that [new_group] returned; the reference is modelled as
    the position of the group in [groups], and a method call on it as an
    update of the list at that position. *)
Definition handle := nat.

(** [ParserSpec.new_group], lines 46-49; [description] and
    [is_mutually_exclusive] are the keyword arguments of [Group]. *)
Definition new_group (self : t) (name description : string)
    (is_mutually_exclusive : bool) : handle * t :=
  let group := Group.Build_t name description is_mutually_exclusive [] in
  (length (groups self),
   {| program := program self;
      description := ParserSpec.description self;
      epilog := epilog self;
      groups := groups self ++ [group] |}).

(** [Group.add_argument] called on the group behind a reference. *)
Definition add_argument (self : t) (group : handle) (args : list string)
    (kwargs : gmap string value) : t :=
  {| program := program self;
     description := description self;
     epilog := epilog self;
     groups := alter (λ g, (Group.add_argument g args kwargs).2) group
                     (groups self) |}.

(** [ParserSpec.serialize], lines 51-56. *)
Definition serialize {resolvers : LazyChoicesImpl} (self : t)
  : raising (gmap string value) :=
  groups ← mapM Group.serialize (groups self);
  Ok {[ "name" := VStr (program self);
        "description" := VStr (description self);
        "groups" := VList (VDict <$> groups) ]}.

End ParserSpec.

(** [to_json], lines 187-188. *)
Definition to_json {resolvers : LazyChoicesImpl} (abstract_options : ParserSpec.t)
  : raising (gmap string value) :=
  spec ← ParserSpec.serialize abstract_options;
  Ok {[ "version" := VStr PARSER_SPEC_VERSION; "spec" := VDict spec ]}.

(** ** The parser-construction library *)

Module Parser.

(** Modelled from the spec: the concrete parser [HTTPieArgumentParser] of
    [httpie.cli.argparser] and the construction interface it inherits,
    which are not among the sources.  Spec 6 lists the interface:
    create-parser, add-named-argument-group,
    add-mutually-exclusive-subgroup and add-argument; spec 4.3 says that
    registering two arguments with a colliding alias is a
    construction-time error, and that a mutual-exclusion construct that
    is not required admits at most one of its arguments per invocation,
    zero included. *)
Record Action := {
  option_strings : list string;
  kwargs : gmap string value;
}.

(** Modelled from the spec: a mutual-exclusion group with its [required]
    flag and the actions entered in it. *)
Record MutexGroup := {
  required : bool;
  group_actions : list Action;
}.

(** Modelled from the spec: a named, described argument group, the actions
    registered in it and the mutual-exclusion groups nested in it. *)
Record ArgumentGroup := {
  title : string;
  description : string;
  actions : list Action;
  mutex_groups : list MutexGroup;
}.

(** Modelled from the spec: the parser object, as the construction calls
    leave it. *)
Record t := {
  prog : string;
  parser_description : string;
  epilog : string;
  registries : gmap (string * string) value;
  groups : list ArgumentGroup;
}.

(** Modelled from the spec: a reference to a container of the parser, the
    [i]-th argument group or the [j]-th mutual-exclusion group nested in
    it. *)
Inductive container :=
| InGroup (i : nat)
| InMutex (i j : nat).

(** Modelled from the spec: the argument group that a reference leads
    to. *)
Definition container_index (group : container) : nat :=
  match group with InGroup i | InMutex i _ => i end.

(** Modelled from the spec: the parser with its groups replaced. *)
Definition with_groups (self : t) (groups : list ArgumentGroup) : t :=
  {| prog := prog self; parser_description := parser_description self;
     epilog := epilog self; registries := registries self;
     groups := groups |}.

(** Modelled from the spec: create-parser(program, description, epilog). *)
Definition parser_type (prog description epilog : string) : t :=
  {| prog := prog; parser_description := description; epilog := epilog;
     registries := ∅; groups := [] |}.

(** Modelled from the spec: [register(registry_name, key, object)]
    records [object] under the two names. *)
Definition register (self : t) (registry_name key : string)
    (object : value) : t :=
  {| prog := prog self; parser_description := parser_description self;
     epilog := epilog self;
     registries := <[ (registry_name, key) := object ]> (registries self);
     groups := groups self |}.

(** Modelled from the spec: add-named-argument-group(title, description)
    opens a new group after the existing ones and returns a reference
    to it. *)
Definition add_argument_group (self : t) (title description : string)
  : container * t :=
  (InGroup (length (groups self)),
   with_groups self
     (groups self ++ [ {| title := title; description := description;
                          actions := []; mutex_groups := [] |} ])).

(** Modelled from the spec: add-mutually-exclusive-subgroup(required),
    called on an argument group, nests a new mutual-exclusion group in it
    and returns a reference to the nested group. *)
Definition add_mutually_exclusive_group (self : t) (group : container)
    (required : bool) : container * t :=
  match group with
  | InGroup i =>
      let nested := default 0 (length ∘ mutex_groups <$> groups self !! i) in
      (InMutex i nested,
       with_groups self
         (alter (λ g, {| title := title g; description := description g;
                         actions := actions g;
                         mutex_groups :=
                           mutex_groups g
                             ++ [ {| required := required;
                                     group_actions := [] |} ] |})
                i (groups self)))
  | InMutex _ _ => (group, self)
  end.

(** Modelled from the spec: every option string registered so far, in any
    group. *)
Definition registered (self : t) : list string :=
  a ← (g ← groups self; actions g); option_strings a.

(** Modelled from the spec: the action is entered in the argument group
    and, for a reference to a mutual-exclusion group, in that group
    too. *)
Definition enter (action : Action) (group : container) (g : ArgumentGroup)
  : ArgumentGroup :=
  {| title := title g; description := description g;
     actions := actions g ++ [action];
     mutex_groups :=
       match group with
       | InGroup _ => mutex_groups g
       | InMutex _ j =>
           alter (λ m, {| required := required m;
                          group_actions := group_actions m ++ [action] |})
                 j (mutex_groups g)
       end |}.

(** Modelled from the spec: add-argument(aliases, configuration).  An
    alias that is already registered in the parser is a
    [SpecificationError]; otherwise the action is appended to the
    container.  This is the one error of registration that the spec
    names; what else the library checks is outside the model. *)
Definition add_argument (self : t) (group : container)
    (aliases : list string) (configuration : gmap string value)
  : raising t :=
  match list_find (λ alias, alias ∈ registered self) aliases with
  | Some (_, alias) => Raise (SpecificationError alias)
  | None =>
      let action := {| option_strings := aliases;
                       kwargs := configuration |} in
      Ok (with_groups self
            (alter (enter action group) (container_index group)
                   (groups self)))
  end.

(** Modelled from the spec: an invocation supplies some of the arguments
    registered in the parser, an option by one of its option strings and
    a positional argument by a value in its place.  How the words of an
    invocation are matched to the arguments is the business of the
    library; a mutual-exclusion group sees the outcome of that, the test
    that tells, of the action entered in the group at a place, whether
    the invocation supplies it. *)
Definition invocation := nat → Action → bool.

(** Modelled from the spec: the actions of a mutual-exclusion group that
    an invocation supplies, options and positional arguments alike, with
    their places in the group. *)
Definition supplied (supplies : invocation) (m : MutexGroup)
  : list (nat * Action) :=
  filter (λ member, supplies member.1 member.2 = true)
         (imap pair (group_actions m)).

(** Modelled from the spec: the parser accepts an invocation with
    respect to a mutual-exclusion group when at most one of the group's
    arguments is supplied and, for a required group, at least one. *)
Definition admits (m : MutexGroup) (supplies : invocation) : bool :=
  bool_decide (length (supplied supplies m) ≤ 1)%nat
  && (negb (required m)
      || bool_decide (1 ≤ length (supplied supplies m))%nat).

End Parser.

(** ** The executable-parser compiler *)

(** [ARGPARSE_QUALIFIER_MAP], lines 138-142; the three values are the
    sentinels [argparse.OPTIONAL], [argparse.SUPPRESS] and
    [argparse.ZERO_OR_MORE]. *)
Definition ARGPARSE_QUALIFIER_MAP : gmap Qualifiers value :=
  {[ OPTIONAL := VStr "?";
     SUPPRESS := VStr "==SUPPRESS==";
     ZERO_OR_MORE := VStr "*" ]}.

(** The class object [LazyChoices] handed to [register]. *)
Definition LazyChoices_class : value := VObj (Some "LazyChoices") "type".

(** [to_argparse], lines 145-171.  The parser is built by the calls of the
    two loops, each call taking the parser as it stands and returning it
    updated. *)
Definition to_argparse (abstract_options : ParserSpec.t) : raising Parser.t :=
  let concrete_parser :=
    Parser.parser_type (ParserSpec.program abstract_options)
                       (ParserSpec.description abstract_options)
                       (ParserSpec.epilog abstract_options) in
  let concrete_parser :=
    Parser.register concrete_parser "action" "lazy_choices"
                    LazyChoices_class in
  foldlM
    (λ concrete_parser abstract_group,
       let '(concrete_group, concrete_parser) :=
         Parser.add_argument_group concrete_parser
           (Group.name abstract_group) (Group.description abstract_group) in
       let '(concrete_group, concrete_parser) :=
         if Group.is_mutually_exclusive abstract_group
         then Parser.add_mutually_exclusive_group concrete_parser
                concrete_group false
         else (concrete_group, concrete_parser) in
       foldlM
         (λ concrete_parser abstract_argument,
            kwargs ← map_qualifiers (Argument.configuration abstract_argument)
                       ARGPARSE_QUALIFIER_MAP;
            Parser.add_argument concrete_parser concrete_group
              (Argument.aliases abstract_argument) kwargs)
         concrete_parser (Group.arguments abstract_group))
    concrete_parser (ParserSpec.groups abstract_options).

(** ** The parser that compilation yields *)

(** The counterpart of a configuration value in the vocabulary of the
    parser library. *)
Definition native (v : value) : value :=
  match v with
  | VQual q => default v (ARGPARSE_QUALIFIER_MAP !! q)
  | _ => v
  end.

(** The action that registers an argument. *)
Definition compile_argument (argument : Argument.t) : Parser.Action :=
  {| Parser.option_strings := Argument.aliases argument;
     Parser.kwargs := native <$> Argument.configuration argument |}.

(** The argument group of a group: its arguments in their order, once
    more inside a mutual-exclusion group that is not required when the
    group is mutually exclusive. *)
Definition compile_group (group : Group.t) : Parser.ArgumentGroup :=
  {| Parser.title := Group.name group;
     Parser.description := Group.description group;
     Parser.actions := compile_argument <$> Group.arguments group;
     Parser.mutex_groups :=
       if Group.is_mutually_exclusive group
       then [ {| Parser.required := false;
                 Parser.group_actions :=
                   compile_argument <$> Group.arguments group |} ]
       else [] |}.

(** The first alias found taken when alias lists are registered one after
    the other, starting from the aliases in [taken]. *)
Fixpoint first_collision (taken : list string) (aliases : list (list string))
  : option string :=
  match aliases with
  | [] => None
  | names :: aliases' =>
      match list_find (λ alias, alias ∈ taken) names with
      | Some (_, alias) => Some alias
      | None => first_collision (taken ++ names) aliases'
      end
  end.

(** All arguments of a specification, group after group. *)
Definition all_arguments (spec : ParserSpec.t) : list Argument.t :=
  group ← ParserSpec.groups spec; Group.arguments group.

(** The arguments of a group that an invocation supplies, with their
    places in the group: those whose action it supplies. *)
Definition supplied_arguments (supplies : Parser.invocation)
    (group : Group.t) : list (nat * Argument.t) :=
  filter (λ member, supplies member.1 (compile_argument member.2) = true)
         (imap pair (Group.arguments group)).

(** ** Declarations *)

(** A specification is declared by calls of [new_group] and of
    [add_argument] on a group returned earlier; [AddArgument k] stands for
    a call on the reference returned by the [k]-th [new_group]. *)
Inductive declaration :=
| NewGroup (name description : string) (is_mutually_exclusive : bool)
| AddArgument (group : nat) (args : list string) (kwargs : gmap string value).

Definition declare (spec : ParserSpec.t) (d : declaration) : ParserSpec.t :=
  match d with
  | NewGroup name description is_mutually_exclusive =>
      (ParserSpec.new_group spec name description is_mutually_exclusive).2
  | AddArgument group args kwargs =>
      ParserSpec.add_argument spec group args kwargs
  end.

(** The specification that results from a sequence of declarations on a
    [ParserSpec] created without groups. *)
Definition declared (program description epilog : string)
    (ds : list declaration) : ParserSpec.t :=
  foldl declare (ParserSpec.Build_t program description epilog []) ds.

(** A group with further arguments after its own. *)
Definition extended (g : Group.t) (more : list Argument.t) : Group.t :=
  {| Group.name := Group.name g;
     Group.description := Group.description g;
     Group.is_mutually_exclusive := Group.is_mutually_exclusive g;
     Group.arguments := Group.arguments g ++ more |}.

(** The groups that a sequence of declarations creates, in the order of the
    [new_group] calls. *)
Definition declared_groups (ds : list declaration)
  : list (string * string * bool) :=
  omap (λ d, match d with
             | NewGroup name description is_mutually_exclusive =>
                 Some (name, description, is_mutually_exclusive)
             | AddArgument _ _ _ => None
             end) ds.

(** The arguments declared for the [k]-th group, in the order of the
    [add_argument] calls on its reference; [created] counts the groups
    that exist before [ds], and a reference exists once its group does. *)
Fixpoint declared_arguments (k created : nat) (ds : list declaration)
  : list Argument.t :=
  match ds with
  | [] => []
  | NewGroup _ _ _ :: ds' => declared_arguments k (S created) ds'
  | AddArgument group args kwargs :: ds' =>
      if bool_decide (group = k ∧ k < created)
      then Argument.Build_t args kwargs :: declared_arguments k created ds'
      else declared_arguments k created ds'
  end.

(** ** Sample declarations *)

Module Examples.

(** A process in which no choice set can be resolved. *)
Definition unavailable : LazyChoicesImpl :=
  λ _ _, Raise ResolutionError.

(** A resolver of the colour styles. *)
Definition styles : LazyChoicesImpl :=
  λ _ _, Ok {| load := Ok [VStr "auto"; VStr "fruity"; VStr "pie"];
               help := VStr "Output coloring style.
The default is auto." |}.

Definition method : Argument.t :=
  {| Argument.aliases := [];
     Argument.configuration :=
       {[ "dest" := VStr "method"; "metavar" := VStr "METHOD";
          "nargs" := VQual OPTIONAL; "default" := VNone;
          "help" := VStr "
  The HTTP method to be used for the request.
  " ]} |}.

Definition url : Argument.t :=
  {| Argument.aliases := [];
     Argument.configuration :=
       {[ "dest" := VStr "url"; "metavar" := VStr "URL";
          "help" := VStr "Line one.
More detail." ]} |}.

Definition request_items : Argument.t :=
  {| Argument.aliases := [];
     Argument.configuration :=
       {[ "dest" := VStr "request_items"; "metavar" := VStr "REQUEST_ITEM";
          "nargs" := VQual ZERO_OR_MORE; "default" := VNone;
          "type" := VObj None "KeyValueArgType" ]} |}.

Definition style : Argument.t :=
  {| Argument.aliases := ["--style"; "-s"];
     Argument.configuration :=
       {[ "dest" := VStr "style"; "metavar" := VStr "STYLE";
          "action" := VStr "lazy_choices";
          "choices" := VList [VStr "static"];
          "help" := VStr "A static text." ]} |}.

Definition session : Argument.t :=
  {| Argument.aliases := ["--session"];
     Argument.configuration :=
       {[ "metavar" := VStr "SESSION_NAME_OR_PATH";
          "type" := VObj (Some "session_name_validator") "function" ]} |}.

Definition session_read_only : Argument.t :=
  {| Argument.aliases := ["--session-read-only"];
     Argument.configuration :=
       {[ "metavar" := VStr "SESSION_NAME_OR_PATH" ]} |}.

(** Help that is suppressed, help that is empty, a [metavar] that is
    [None] and a cardinality in the vocabulary of [argparse]. *)
Definition no_name : Argument.t :=
  {| Argument.aliases := ["--no-name"];
     Argument.configuration := {[ "help" := VQual SUPPRESS ]} |}.

Definition quiet : Argument.t :=
  {| Argument.aliases := ["--quiet"; "-q"];
     Argument.configuration := {[ "help" := VStr "" ]} |}.

Definition offline : Argument.t :=
  {| Argument.aliases := ["--offline"];
     Argument.configuration := {[ "metavar" := VNone ]} |}.

Definition raw : Argument.t :=
  {| Argument.aliases := ["--raw"];
     Argument.configuration := {[ "nargs" := VStr "?" ]} |}.

(** The calls that declare a small interface; the request items are
    added to the first group after the second group is created. *)
Definition declarations : list declaration :=
  [ NewGroup "Positional arguments" "" false;
    AddArgument 0 (Argument.aliases method) (Argument.configuration method);
    AddArgument 0 (Argument.aliases url) (Argument.configuration url);
    NewGroup "Sessions" "" true;
    AddArgument 1 (Argument.aliases session)
      (Argument.configuration session);
    AddArgument 0 (Argument.aliases request_items)
      (Argument.configuration request_items);
    AddArgument 1 (Argument.aliases session_read_only)
      (Argument.configuration session_read_only) ].

Definition options : ParserSpec.t :=
  declared "http" "HTTPie: modern, user-friendly command-line HTTP client."
           "" declarations.

Definition positional : Group.t :=
  {| Group.name := "Positional arguments";
     Group.description := "";
     Group.is_mutually_exclusive := false;
     Group.arguments := [method; url; request_items] |}.

Definition sessions : Group.t :=
  {| Group.name := "Sessions";
     Group.description := "";
     Group.is_mutually_exclusive := true;
     Group.arguments := [session; session_read_only] |}.

(** The same interface with [--session] declared a second time. *)
Definition colliding : ParserSpec.t :=
  declare options (AddArgument 0 ["-S"; "--session"] ∅).

(** An interface that reads the body of the request from a file, given
    as a positional argument, or from the standard input, and not from
    both. *)
Definition file : Argument.t :=
  {| Argument.aliases := [];
     Argument.configuration :=
       {[ "dest" := VStr "file"; "metavar" := VStr "FILE";
          "nargs" := VQual OPTIONAL ]} |}.

Definition stdin : Argument.t :=
  {| Argument.aliases := ["--stdin"];
     Argument.configuration := {[ "action" := VStr "store_true" ]} |}.

Definition input : Group.t :=
  {| Group.name := "Input";
     Group.description := "";
     Group.is_mutually_exclusive := true;
     Group.arguments := [file; stdin] |}.

Definition reading : ParserSpec.t :=
  {| ParserSpec.program := "http";
     ParserSpec.description := "";
     ParserSpec.epilog := "";
     ParserSpec.groups := [input] |}.

(** Invocations: the one that names the given option strings and gives
    no positional argument, and an invocation that gives a value to the
    positional arguments besides. *)
Definition naming (aliases : list string) : Parser.invocation :=
  λ _ action,
    bool_decide (Exists (λ alias, alias ∈ aliases)
                        (Parser.option_strings action)).

Definition with_values (supplies : Parser.invocation) : Parser.invocation :=
  λ place action,
    supplies place action
    || bool_decide (Parser.option_strings action = []).

End Examples.

(** * The other modules: [httpie/ssl_.py] and [docs/installation/generate.py]

    Of [httpie/ssl_.py] the cache of QUIC capabilities and the test for
    an encrypted key file are embedded, of
    [docs/installation/generate.py] the cleaning of the template output.

    Modelling choices.
    - A text file is given by its text and [quic.json] by the dictionary
      that is written in it: what [json.dump] writes, [json.load] reads.
    - A host is a [string] and a port an integer [Z], as the annotations
      of the class say.
    - An integer is printed and read in decimal; the limit that the
      interpreter puts on the digits of one conversion is not modelled,
      and [Str.convertible] tells the integers that every such limit
      lets through.
    - A regular expression is embedded as the function on texts that
      the call computes. *)

(** ** Texts and integers of Python *)

Module Str.

(** [needle in s] for two strings: [needle] occurs in [s]. *)
Fixpoint contains (needle s : string) : bool :=
  String.prefix needle s
  || match s with
     | EmptyString => false
     | String _ s' => contains needle s'
     end.

(** A character that ends a line of a file: LF or CR. *)
Definition ends_line (c : ascii) : bool :=
  Ascii.eqb c "010"%char || Ascii.eqb c "013"%char.

(** The lines that iterating over a file opened in text mode yields:
    a line ends after LF, CR or CR LF, each of which is read as LF, and
    keeps that LF; the last line has none when the text does not end in
    one. *)
Fixpoint readlines (s : string) : list string :=
  match s with
  | EmptyString => []
  | String c s' =>
      if Ascii.eqb c "010"%char then
        String "010" EmptyString :: readlines s'
      else if Ascii.eqb c "013"%char then
        String "010" EmptyString ::
          match s' with
          | String "010"%char s'' => readlines s''
          | _ => readlines s'
          end
      else
        match readlines s' with
        | [] => [String c EmptyString]
        | line :: lines => String c line :: lines
        end
  end.

(** The text that reading a file in text mode gives: CR LF and CR are
    read as LF. *)
Fixpoint universal_newlines (s : string) : string :=
  match s with
  | EmptyString => EmptyString
  | String c s' =>
      if Ascii.eqb c "013"%char then
        String "010"
          match s' with
          | String "010"%char s'' => universal_newlines s''
          | _ => universal_newlines s'
          end
      else String c (universal_newlines s')
  end.

(** The first [n] characters of a text, and the text without them. *)
Fixpoint take (n : nat) (s : string) : string :=
  match n, s with
  | S n', String c s' => String c (take n' s')
  | _, _ => EmptyString
  end.

Fixpoint drop (n : nat) (s : string) : string :=
  match n, s with
  | S n', String _ s' => drop n' s'
  | _, _ => s
  end.

(** The position that an index of a slice stands for: a negative index
    counts from the end of the text, and not beyond its start. *)
Definition position (s : string) (i : Z) : nat :=
  if (i <? 0)%Z then Z.to_nat (Z.of_nat (String.length s) + i) else Z.to_nat i.

(** [s[:stop]] and [s[start:]]. *)
Definition slice_to (s : string) (stop : Z) : string := take (position s stop) s.
Definition slice_from (s : string) (start : Z) : string :=
  drop (position s start) s.

(** The first index at which [sub] occurs in [s]. *)
Fixpoint first_index (sub s : string) : option nat :=
  if String.prefix sub s then Some 0%nat
  else
    match s with
    | EmptyString => None
    | String _ s' => S <$> first_index sub s'
    end.

(** [s.find(sub, start)]: the first index from [start] on at which [sub]
    occurs in [s], and -1 when there is none. *)
Definition find (sub s : string) (start : Z) : Z :=
  let start := position s start in
  if (start <=? String.length s)%nat then
    match first_index sub (drop start s) with
    | Some i => Z.of_nat (start + i)
    | None => (-1)%Z
    end
  else (-1)%Z.

(** [sep.join(l)]. *)
Fixpoint join (sep : string) (l : list string) : string :=
  match l with
  | [] => EmptyString
  | [x] => x
  | x :: l' => x +:+ sep +:+ join sep l'
  end.

(** [s.split(sep)] for a separator of one character: the parts between
    the occurrences of [sep], of which there is always one at least. *)
Fixpoint split (sep : ascii) (s : string) : list string :=
  match s with
  | EmptyString => [EmptyString]
  | String c s' =>
      if Ascii.eqb c sep then EmptyString :: split sep s'
      else
        match split sep s' with
        | [] => [String c EmptyString]
        | part :: parts => String c part :: parts
        end
  end.

(** [f"{n}"] and [str(n)] for an integer: the decimal digits, after a
    minus sign for a negative one. *)
Definition of_int (n : Z) : string :=
  DecimalString.NilZero.string_of_int (Z.to_int n).

(** The integers that [f"{n}"], [str(n)] and [int(s)] convert whatever
    limit is put on the digits of one conversion: the interpreter raises
    [ValueError] for an integer of more digits than the limit, which is
    4300 unless it is set and cannot be set below 640. *)
Definition convertible (n : Z) : Prop := (Z.abs n < 10 ^ 640)%Z.

(** The value of a decimal digit. *)
Definition digit (c : ascii) : option Z :=
  let n := nat_of_ascii c in
  if ((48 <=? n) && (n <=? 57))%nat then Some (Z.of_nat n - 48)%Z else None.

(** The digits of an integer literal: an underscore may stand between
    two digits and nowhere else.  [acc] is the value of the digits read
    so far, [after_digit] tells that the character before was a digit. *)
Fixpoint digits (acc : Z) (after_digit : bool) (s : string) : option Z :=
  match s with
  | EmptyString => if after_digit then Some acc else None
  | String c s' =>
      match digit c with
      | Some d => digits (10 * acc + d)%Z true s'
      | None =>
          if Ascii.eqb c "_"%char && after_digit then digits acc false s'
          else None
      end
  end.

(** The white space that [int] drops around a literal: that of
    [str.isspace] without the separators FS, GS, RS and US. *)
Definition int_space (c : ascii) : bool :=
  let n := nat_of_ascii c in
  Py.isspace c && negb ((28 <=? n) && (n <=? 31))%nat.

(** A text without the characters of a kind at its start, and at its
    end. *)
Fixpoint ltrim (space : ascii → bool) (s : string) : string :=
  match s with
  | EmptyString => EmptyString
  | String c s' => if space c then ltrim space s' else s
  end.

Fixpoint rtrim (space : ascii → bool) (s : string) : string :=
  match s with
  | EmptyString => EmptyString
  | String c s' =>
      match rtrim space s' with
      | EmptyString => if space c then EmptyString else String c EmptyString
      | r => String c r
      end
  end.

(** [int(s)] for a string, in base ten: white space around the literal
    is dropped, a sign may come first; [None] stands for [ValueError]. *)
Definition int (s : string) : option Z :=
  match rtrim int_space (ltrim int_space s) with
  | String "+"%char literal => digits 0 false literal
  | String "-"%char literal => Z.opp <$> digits 0 false literal
  | literal => digits 0 false literal
  end.

End Str.

(** ** [httpie/ssl_.py] *)

Module ssl_.

(** The exceptions of this module. *)
Inductive exception :=
| ValueError
| TypeError
| AttributeError (attribute : string)
| FileNotFoundError.

Inductive outcome (A : Type) :=
| Returns (a : A)
| Raises (e : exception).
Arguments Returns {A} a.
Arguments Raises {A} e.

Global Instance outcome_ret : MRet outcome := λ A a, Returns a.
Global Instance outcome_bind : MBind outcome :=
  λ A B f m, match m with Returns a => f a | Raises e => Raises e end.

(** What [json.load] yields and [json.dump] writes; a float is given by
    its literal. *)
Inductive json :=
| JNull
| JBool (b : bool)
| JInt (n : Z)
| JFloat (literal : string)
| JStr (s : string)
| JList (items : list json)
| JDict (d : gmap string json).

(** The configuration directory [DEFAULT_CONFIG_DIR]: it is missing, or
    it is there, with or without the file [quic.json]; the file is given
    by the dictionary that is written in it. *)
Inductive config_dir :=
| Missing
| Dir (quic_json : option (gmap string json)).

Module QuicCapabilityCache.

(** [class QuicCapabilityCache], lines 27-68: the object holds the
    dictionary [_cache]. *)
Record t := { _cache : gmap string json }.

(** The key of the dictionary for a host and a port,
    [f"QUIC_{item[0]}_{item[1]}"], lines 44, 47, 51 and 59. *)
Definition cache_key (item : string * Z) : string :=
  "QUIC_" +:+ item.1 +:+ "_" +:+ Str.of_int item.2.

(** [__init__], lines 31-37: the directory is made when it is missing,
    and the file is loaded when it is there. *)
Definition __init__ (fs : config_dir) : t * config_dir :=
  let fs := match fs with Missing => Dir None | Dir _ => fs end in
  match fs with
  | Dir (Some loaded) => ({| _cache := loaded |}, fs)
  | _ => ({| _cache := ∅ |}, fs)
  end.

(** [save], lines 39-41: the file is opened for writing, which needs the
    directory, and the dictionary is written. *)
Definition save (self : t) (fs : config_dir) : config_dir * outcome unit :=
  match fs with
  | Missing => (fs, Raises FileNotFoundError)
  | Dir _ => (Dir (Some (_cache self)), Returns tt)
  end.

(** [__contains__], lines 43-44. *)
Definition __contains__ (self : t) (item : string * Z) : bool :=
  bool_decide (is_Some (_cache self !! cache_key item)).

(** [__setitem__], lines 46-48: [value[0]] raises [TypeError] for
    [None]; otherwise the entry is stored and the dictionary saved.  The
    result is the object and the directory after the call, and what the
    call returns or raises. *)
Definition __setitem__ (self : t) (fs : config_dir) (key : string * Z)
    (value : option (string * Z)) : t * config_dir * outcome unit :=
  match value with
  | None => (self, fs, Raises TypeError)
  | Some value =>
      let self :=
        {| _cache := <[ cache_key key :=
                          JStr (value.1 +:+ ":" +:+ Str.of_int value.2) ]>
                       (_cache self) |} in
      let '(fs, saved) := save self fs in
      (self, fs, saved)
  end.

(** [entry.split(":")]: only a string has the method. *)
Definition split_method (entry : json) : outcome (list string) :=
  match entry with
  | JStr s => Returns (Str.split ":" s)
  | _ => Raises (AttributeError "split")
  end.

(** [__getitem__], lines 50-56: the entry is split at the colons into a
    host and a port, two parts exactly, and the port is read as an
    integer; without an entry the result is [None]. *)
Definition __getitem__ (self : t) (item : string * Z)
  : outcome (option (string * Z)) :=
  let key := cache_key item in
  match _cache self !! key with
  | Some entry =>
      parts ← split_method entry;
      match parts with
      | [host; port] =>
          match Str.int port with
          | Some port => Returns (Some (host, port))
          | None => Raises ValueError
          end
      | _ => Raises ValueError
      end
  | None => Returns None
  end.

(** [__delitem__], lines 58-62: an entry that is there is deleted and
    the dictionary saved; nothing happens without one. *)
Definition __delitem__ (self : t) (fs : config_dir) (key : string * Z)
  : t * config_dir * outcome unit :=
  let key := cache_key key in
  if bool_decide (is_Some (_cache self !! key)) then
    let self := {| _cache := delete key (_cache self) |} in
    let '(fs, saved) := save self fs in
    (self, fs, saved)
  else (self, fs, Returns tt).


(** A call that changes the cache. *)
Inductive call :=
| SetItem (key : string * Z) (value : option (string * Z))
| DelItem (key : string * Z).

(** One call on an object and a directory: what they are after it,
    whatever the call returns or raises. *)
Definition perform (state : t * config_dir) (c : call) : t * config_dir :=
  match c with
  | SetItem key value => (__setitem__ state.1 state.2 key value).1
  | DelItem key => (__delitem__ state.1 state.2 key).1
  end.

End QuicCapabilityCache.

(** [_is_key_file_encrypted], lines 148-159.  [files] holds the text of
    the files that can be opened for reading, by their paths. *)
Definition _is_key_file_encrypted (files : gmap string string)
    (key_file : string) : outcome bool :=
  match files !! key_file with
  | Some text =>
      Returns (existsb (Str.contains "ENCRYPTED") (Str.readlines text))
  | None => Raises FileNotFoundError
  end.

End ssl_.

(** ** [docs/installation/generate.py] *)

Module generate.

(** [MARKER_START] and [MARKER_END], lines 24-25. *)
Definition MARKER_START : string := "<div data-installation-instructions>".
Definition MARKER_END : string := "</div>".

(** [load_doc_file], lines 73-74: the text of [DOC_FILE] as it is read. *)
Definition load_doc_file (doc_file : string) : string :=
  Str.universal_newlines doc_file.

(** [save_doc_file], lines 37-49.  [doc_file] is the text in [DOC_FILE];
    the result is the text in it after the call, which is written as it
    is, and what the call returns. *)
Definition save_doc_file (content : string) (doc_file : string)
  : string * bool :=
  let current_doc := load_doc_file doc_file in
  let marker_start :=
    (Str.find MARKER_START current_doc 0
     + Z.of_nat (String.length MARKER_START) + 2)%Z in
  let marker_end := Str.find MARKER_END current_doc marker_start in
  let updated_doc :=
    Str.slice_to current_doc marker_start
      +:+ content +:+ Str.slice_from current_doc marker_end in
  if bool_decide (current_doc ≠ updated_doc) then (updated_doc, true)
  else (doc_file, false).

(** [re.sub('\n{3,}', '\n\n', s)], line 65: a run of three or more line feeds
    becomes two, and a shorter run stays.  [run] counts the line feeds
    that come right before [s]: the first two of a run are kept. *)
Fixpoint sub_newlines (run : nat) (s : string) : string :=
  match s with
  | EmptyString => EmptyString
  | String c s' =>
      if Ascii.eqb c "010"%char then
        if (run <? 2)%nat then String c (sub_newlines (S run) s')
        else sub_newlines (S run) s'
      else String c (sub_newlines 0 s')
  end.

(** The texts that [clean_template_output] leaves as they are, read
    from left to right: [run] counts the line feeds right before [s] and
    [blank] tells that the character before [s] is white space.  The
    line feed is the only line boundary, no line starts with white
    space, the text does not end in white space and, when [squeezed], no
    three line feeds follow each other. *)
Fixpoint tidy (squeezed : bool) (run : nat) (blank : bool) (s : string)
  : bool :=
  match s with
  | EmptyString => negb blank
  | String c s' =>
      if Ascii.eqb c "010"%char then
        (negb squeezed || (run <? 2)%nat) && tidy squeezed (S run) true s'
      else
        negb (Py.is_linebreak c)
        && (if (0 <? run)%nat then negb (Py.isspace c) else true)
        && tidy squeezed 0 (Py.isspace c) s'
  end.

(** [clean_template_output], lines 63-66. *)
Definition clean_template_output (output : string) : string :=
  let output :=
    Str.join (String "010" EmptyString)
             (Py.lstrip <$> Py.splitlines (Py.strip output)) in
  sub_newlines 0 output.

End generate.

(** ** Further samples *)

Module Cases.

(** An argument without aliases and without [metavar]. *)
Definition nameless : Argument.t :=
  {| Argument.aliases := [];
     Argument.configuration := {[ "dest" := VStr "url" ]} |}.

(** A help text of white space, and a help value that is a number. *)
Definition blank : Argument.t :=
  {| Argument.aliases := ["--blank"];
     Argument.configuration := {[ "help" := VStr "   " ]} |}.

Definition numbered : Argument.t :=
  {| Argument.aliases := ["--count"];
     Argument.configuration := {[ "help" := VInt 1 ]} |}.

(** The sessions of the sample interface followed by two arguments
    that have no schema entry. *)
Definition broken : ParserSpec.t :=
  {| ParserSpec.program := "http";
     ParserSpec.description := "";
     ParserSpec.epilog := "";
     ParserSpec.groups :=
       [ Examples.sessions;
         {| Group.name := "Broken";
            Group.description := "";
            Group.is_mutually_exclusive := false;
            Group.arguments := [Examples.raw; nameless] |} ] |}.

(** A specification with indented texts, and a stand-in for
    [textwrap.dedent] that drops the white space before a text. *)
Definition indented : ParserSpec.t :=
  {| ParserSpec.program := "http";
     ParserSpec.description := "  HTTPie";
     ParserSpec.epilog := "  See the manual.";
     ParserSpec.groups :=
       [ {| Group.name := "Sessions";
            Group.description := "  Sessions of requests.";
            Group.is_mutually_exclusive := true;
            Group.arguments :=
              [Examples.session; Examples.session_read_only] |} ] |}.

Definition unindent : string → string := Py.lstrip.

(** An origin, the alternative that serves it over QUIC, and an
    alternative at an address of IPv6. *)
Definition origin : string * Z := ("example.org", 443%Z).
Definition alternative : string * Z := ("alt.example.org", 8443%Z).
Definition loopback : string * Z := ("::1", 443%Z).

(** The output of a template: indented lines and a run of empty ones. *)
Definition rendered : string :=
  "
  ## Linux

     Install with apt.



  ## macOS
     Install with brew.
".

(** A documentation file with the two markers, and one without. *)
Definition readme : string :=
  "# HTTPie
<div data-installation-instructions>

Old instructions.
</div>
## Usage".

Definition unmarked : string :=
  "The quick brown fox jumps over the lazy dog.".

End Cases.

(** ** Proof automation *)

(** Membership in, and absence from, a list of literal keys. *)
Ltac key_in := solve [repeat (apply list_elem_of_here || apply list_elem_of_further)].
Ltac key_not_in H :=
  solve [repeat (apply elem_of_cons in H as [?|H]; [done|]); by apply elem_of_nil in H].

(** The keys of a dictionary display, one case for each key. *)
Ltac key_pick := first [ done | left; done | right; split; [done|key_pick] ].
Ltac key_set :=
  split;
  [ intros Hkey;
    repeat (destruct Hkey as [<-|[_ Hkey]]; [auto 10|]);
    subst; auto 10
  | intros Hkey;
    repeat (destruct Hkey as [->|Hkey]; [key_pick|]);
    subst; key_pick ].

(** * Properties *)

(** ** The error monad *)

Lemma bind_Ok {A B : Type} (m : raising A) (f : A → raising B) (b : B) :
  m ≫= f = Ok b ↔ ∃ a, m = Ok a ∧ f a = Ok b.
Proof.
  unfold mbind, raising_bind. destruct m as [a|e].
  - split; [intros Hf; by exists a | intros (a' & Heq & Hf); by simplify_eq].
  - split; [done | by intros (a' & ? & _)].
Qed.

Lemma returns_true {A : Type} (m : raising A) :
  returns m = true ↔ ∃ a, m = Ok a.
Proof. destruct m; split; try done; [by eexists | by intros [? ?]]. Qed.

Lemma bind_Raise {A B : Type} (m : raising A) (f : A → raising B) (e : exn) :
  m ≫= f = Raise e ↔ m = Raise e ∨ ∃ a, m = Ok a ∧ f a = Raise e.
Proof.
  unfold mbind, raising_bind. destruct m as [a|e'].
  - split; [intros Hf; right; by exists a |].
    intros [|(a' & Heq & Hf)]; by simplify_eq.
  - split; [intros Heq; left; by simplify_eq |].
    intros [|(a' & ? & _)]; by simplify_eq.
Qed.

Lemma mapM_Ok {A B : Type} (f : A → raising B) (l : list A) (k : list B) :
  mapM f l = Ok k ↔ Forall2 (λ x y, f x = Ok y) l k.
Proof.
  revert k. induction l as [|x l IH]; intros k; simpl.
  - split; [intros [= <-]; constructor | by inversion 1].
  - split.
    + intros (y & Hy & (k' & Hk' & [= <-])%bind_Ok)%bind_Ok.
      constructor; [done | by apply IH].
    + inversion 1 as [|? y ? k' Hy Hk']; subst.
      apply bind_Ok. exists y. split; [done|].
      apply bind_Ok. exists k'. split; [by apply IH | done].
Qed.

Lemma foldlM_app {S A : Type} (body : S → A → raising S) (s : S) (l1 l2 : list A) :
  foldlM body s (l1 ++ l2) = foldlM body s l1 ≫= λ s', foldlM body s' l2.
Proof.
  revert s. induction l1 as [|x l1 IH]; intros s; simpl; [done|].
  destruct (body s x) as [s'|e]; simpl; [apply IH | done].
Qed.

(** ** Python primitives *)

Lemma eq_str_true (v : value) (s : string) : Py.eq_str v s = true ↔ v = VStr s.
Proof.
  destruct v; simpl; try (split; [done | congruence]).
  rewrite bool_decide_eq_true. split; congruence.
Qed.

Lemma is_qualifier_true (v : value) (q : Qualifiers) :
  Py.is_qualifier v q = true ↔ v = VQual q.
Proof.
  destruct v; simpl; try (split; [done | congruence]).
  rewrite bool_decide_eq_true. split; congruence.
Qed.

Lemma is_Qualifiers_true (v : value) :
  Py.is_Qualifiers v = true ↔ ∃ q, v = VQual q.
Proof.
  destruct v; simpl; split; try done; try (by intros [? ?]); by eexists.
Qed.

Lemma getitem_Ok (d : gmap string value) (key : string) (v : value) :
  Py.getitem d key = Ok v ↔ d !! key = Some v.
Proof. unfold Py.getitem. destruct (d !! key); split; congruence. Qed.

Lemma getitem_qualifier_Ok {A : Type} (table : gmap Qualifiers A) (key : value) (entry : A) :
  Py.getitem_qualifier table key = Ok entry
  ↔ ∃ q, key = VQual q ∧ table !! q = Some entry.
Proof.
  unfold Py.getitem_qualifier. split.
  - destruct key; simpl; try done.
    destruct (table !! q) eqn:Hq; [|done]. intros [= <-]. by exists q.
  - intros (q & -> & Hq). simpl. by rewrite Hq.
Qed.

Lemma getitem_qualifier_other {A : Type} (table : gmap Qualifiers A) (key : value) :
  Py.is_Qualifiers key = false →
  Py.getitem_qualifier table key
  = Raise (if Py.hashable key then KeyError key else TypeError "unhashable type").
Proof. by destruct key. Qed.

(** ** Lines of text *)

Lemma splitlines_head (s : string) :
  head (Py.splitlines s)
  = match s with EmptyString => None | _ => Some (Py.first_line s) end.
Proof.
  induction s as [|c s IH]; [done|]. simpl.
  destruct (Py.is_linebreak c); [done|].
  destruct (Py.splitlines s) as [|line lines]; destruct s; simpl in *;
    congruence.
Qed.

Lemma splitlines_first (s line : string) (lines : list string) :
  Py.splitlines s = line :: lines → line = Py.first_line s.
Proof.
  intros Hs. pose proof (splitlines_head s) as Hh. rewrite Hs in Hh.
  destruct s; [done | by injection Hh].
Qed.

Lemma splitlines_nil (s : string) : Py.splitlines s = [] ↔ s = EmptyString.
Proof.
  split; [|by intros ->].
  intros Hs. pose proof (splitlines_head s) as Hh. rewrite Hs in Hh.
  by destruct s.
Qed.

(** The first line holds no line boundary, and the text goes on after it
    with a line boundary or not at all. *)
Lemma first_line_spec (s : string) :
  ∃ rest, s = Py.first_line s +:+ rest
    ∧ Forall (λ c, Py.is_linebreak c = false)
             (list_ascii_of_string (Py.first_line s))
    ∧ match rest with
      | EmptyString => True
      | String c _ => Py.is_linebreak c = true
      end.
Proof.
  induction s as [|c s (rest & Hs & Hline & Hrest)]; simpl.
  - by exists EmptyString.
  - destruct (Py.is_linebreak c) eqn:Hc.
    + by exists (String c s).
    + exists rest. split_and!; [| by constructor | done].
      change (String c s = String c (Py.first_line s +:+ rest)). by f_equal.
Qed.

Example splitlines_help_truncation :
  Py.first (Py.splitlines (Py.strip (String "L" (String "i" (String "n"
    (String "e" (String " " (String "o" (String "n" (String "e"
    (String "." (String "010" "More detail.")))))))))))) = Ok "Line one.".
Proof. reflexivity. Qed.

(** [strip] removes white space at both ends and nothing else. *)
Lemma lstrip_spec (s : string) :
  ∃ pre, s = pre +:+ Py.lstrip s
    ∧ Forall (λ c, Py.isspace c = true) (list_ascii_of_string pre)
    ∧ ∀ c t, Py.lstrip s = String c t → Py.isspace c = false.
Proof.
  induction s as [|c s (pre & Hs & Hpre & Hfirst)]; simpl.
  - exists EmptyString. by split_and!.
  - destruct (Py.isspace c) eqn:Hc.
    + exists (String c pre). split_and!; [|by constructor|done].
      change (String c s = String c (pre +:+ Py.lstrip s)). by f_equal.
    + exists EmptyString. split_and!; [done|constructor|].
      intros c' t [= <- _]. done.
Qed.

Lemma rstrip_spec (s : string) :
  ∃ post, s = Py.rstrip s +:+ post
    ∧ Forall (λ c, Py.isspace c = true) (list_ascii_of_string post)
    ∧ ∀ t c, Py.rstrip s = t +:+ String c EmptyString → Py.isspace c = false.
Proof.
  induction s as [|c s (post & Hs & Hpost & Hlast)]; simpl.
  - exists EmptyString. split_and!; [done|constructor|].
    intros [|? ?] c; done.
  - destruct (Py.rstrip s) as [|a r] eqn:Hr.
    + change (s = post) in Hs. subst post. destruct (Py.isspace c) eqn:Hc.
      * exists (String c s). split_and!; [done|by constructor|].
        intros [|? ?] c'; done.
      * exists s. split_and!; [done..|].
        intros [|? [|? ?]] c'; simpl; intros [= <-]; done.
    + exists post. split_and!; [|done|].
      * change (String c s = String c (String a r +:+ post)). by f_equal.
      * intros [|c0 t] c'; simpl; [done|]. intros [= <- Ht]. by eapply Hlast.
Qed.

Lemma strip_spec (s : string) :
  ∃ pre post, s = pre +:+ Py.strip s +:+ post
    ∧ Forall (λ c, Py.isspace c = true) (list_ascii_of_string pre)
    ∧ Forall (λ c, Py.isspace c = true) (list_ascii_of_string post)
    ∧ (∀ c t, Py.strip s = String c t → Py.isspace c = false)
    ∧ (∀ t c, Py.strip s = t +:+ String c EmptyString → Py.isspace c = false).
Proof.
  destruct (lstrip_spec s) as (pre & Hs & Hpre & Hfirst).
  destruct (rstrip_spec (Py.lstrip s)) as (post & Hl & Hpost & Hlast).
  exists pre, post. unfold Py.strip. split_and!; [congruence|done..| |done].
  intros c t Hstrip. rewrite Hstrip in Hl.
  destruct (Py.lstrip s) as [|c' t'] eqn:Hls; [done|].
  injection Hl as <- _. by eapply Hfirst.
Qed.

(** ** The pieces of [Argument.serialize] *)

Section schema.
Context {resolvers : LazyChoicesImpl}.
Implicit Types (self : Argument.t) (cfg r m : gmap string value) (k : string).

Lemma unpack_choices_static self :
  ¬ Argument.lazily_resolved self →
  Argument.unpack_choices self = Ok (delete "action" (Argument.configuration self)).
Proof.
  unfold Argument.lazily_resolved, Argument.unpack_choices. intros Hstatic.
  destruct (Py.eq_str _ _) eqn:Heq; [|done].
  apply eq_str_true in Heq.
  destruct (Argument.configuration self !! "action"); simpl in Heq; congruence.
Qed.

Lemma unpack_choices_lazy self cfg :
  Argument.lazily_resolved self →
  Argument.unpack_choices self = Ok cfg
  ↔ ∃ choices loaded,
      LazyChoices (Argument.aliases self)
        (delete "action" (Argument.configuration self) ∪ {[ "dest" := VNone ]})
      = Ok choices
      ∧ load choices = Ok loaded
      ∧ cfg = <[ "help" := help choices ]>
                (<[ "choices" := VList loaded ]>
                   (delete "action" (Argument.configuration self))).
Proof.
  unfold Argument.lazily_resolved, Argument.unpack_choices. intros ->. simpl.
  rewrite bind_Ok. f_equiv. intros choices.
  rewrite bind_Ok. split.
  - intros (? & loaded & ? & [= <-]). eauto.
  - intros (loaded & ? & ? & ->). eauto.
Qed.

(** Resolution touches [action], [choices] and [help] only. *)
Lemma unpack_choices_lookup self cfg k :
  Argument.unpack_choices self = Ok cfg →
  k ≠ "action" → k ≠ "choices" → k ≠ "help" →
  cfg !! k = Argument.configuration self !! k.
Proof.
  intros Hcfg ? ? ?.
  destruct (decide (Argument.lazily_resolved self)) as [Hlazy|Hstatic].
  - apply (unpack_choices_lazy _ _ Hlazy) in Hcfg as (? & ? & _ & _ & ->).
    by rewrite !lookup_insert_ne, lookup_delete_ne.
  - rewrite (unpack_choices_static _ Hstatic) in Hcfg. injection Hcfg as <-.
    by rewrite lookup_delete_ne.
Qed.

Lemma options_of_Ok self cfg m :
  Argument.options_of self cfg = Ok m
  ↔ (Argument.aliases self ≠ []
     ∧ m = {[ "options" := VList (VStr <$> Argument.aliases self) ]})
    ∨ (Argument.aliases self = []
       ∧ ∃ metavar, cfg !! "metavar" = Some metavar
           ∧ m = <[ "is_positional" := VBool true ]> {[ "options" := metavar ]}).
Proof.
  unfold Argument.options_of. case_bool_decide as Ha.
  - split; [intros [= <-]; by left | intros [[_ ->]|[? _]]; done].
  - rewrite bind_Ok. split.
    + intros (metavar & ?%getitem_Ok & [= <-]). right. eauto.
    + intros [[? _]|(_ & metavar & ? & ->)]; [done|].
      exists metavar. by rewrite getitem_Ok.
Qed.

Lemma options_of_Raise self cfg e :
  Argument.options_of self cfg = Raise e → Argument.aliases self = [].
Proof.
  unfold Argument.options_of. by case_bool_decide.
Qed.

Lemma describe_Ok cfg m m' :
  Argument.describe cfg m = Ok m'
  ↔ let help_msg := default VNone (cfg !! "help") in
    (Py.truthy help_msg && negb (Py.is_qualifier help_msg SUPPRESS) = false
     ∧ m' = m)
    ∨ (Py.truthy help_msg && negb (Py.is_qualifier help_msg SUPPRESS) = true
       ∧ ∃ s line lines, help_msg = VStr s
           ∧ Py.splitlines (Py.strip s) = line :: lines
           ∧ m' = <[ "description" := VStr line ]> m).
Proof.
  unfold Argument.describe. simpl.
  destruct (Py.truthy _ && negb _) eqn:Hguard.
  - rewrite bind_Ok. split.
    + intros (stripped & Hstrip & (line & Hline & [= <-])%bind_Ok).
      right. split; [done|].
      destruct (default VNone (cfg !! "help")) as [| | |s| | | |]; try done.
      injection Hstrip as <-.
      destruct (Py.splitlines (Py.strip s)) as [|line' lines] eqn:Hl; [done|].
      injection Hline as ->. by exists s, line, lines.
    + intros [[? _]|(_ & s & line & lines & -> & Hl & ->)]; [done|].
      exists (Py.strip s). split; [done|]. by rewrite Hl.
  - split; [intros [= <-]; by left | intros [[_ ->]|[? _]]; done].
Qed.

Lemma describe_lookup cfg m m' k :
  Argument.describe cfg m = Ok m' → k ≠ "description" → m' !! k = m !! k.
Proof.
  intros [[_ ->]|(_ & s & line & lines & _ & _ & ->)]%describe_Ok ?; [done|].
  by rewrite lookup_insert_ne.
Qed.

Lemma name_type_lookup cfg m k :
  k ≠ "python_type_name" → Argument.name_type cfg m !! k = m !! k.
Proof.
  intros ?. unfold Argument.name_type.
  destruct (negb _); [by rewrite lookup_insert_ne | done].
Qed.

Lemma mirror_lookup cfg k :
  filter (λ item, item.1 ∈ JSON_DIRECT_MIRROR_OPTIONS) cfg !! k
  = if bool_decide (k ∈ JSON_DIRECT_MIRROR_OPTIONS) then cfg !! k else None.
Proof.
  rewrite map_lookup_filter. destruct (cfg !! k) as [v|]; simpl.
  - case_bool_decide; case_guard; simpl in *; done.
  - by case_bool_decide.
Qed.

(** [Argument.serialize] succeeds exactly when its four fallible steps
    do, and its output is then assembled from their results. *)
Lemma serialize_Ok self r :
  Argument.serialize self = Ok r
  ↔ ∃ cfg opts quals described,
      Argument.unpack_choices self = Ok cfg
      ∧ Argument.options_of self cfg = Ok opts
      ∧ Py.getitem_qualifier JSON_QUALIFIER_TO_OPTIONS
          (default (VQual SUPPRESS) (cfg !! "nargs")) = Ok quals
      ∧ Argument.describe cfg (quals ∪ opts) = Ok described
      ∧ r = filter (λ item, item.1 ∈ JSON_DIRECT_MIRROR_OPTIONS) cfg
              ∪ Argument.name_type cfg described.
Proof.
  unfold Argument.serialize. rewrite bind_Ok. f_equiv. intros cfg.
  rewrite bind_Ok. split.
  - intros (? & opts & ? & (quals & ? & (described & ? & [= <-])%bind_Ok)%bind_Ok).
    exists opts, quals, described. eauto.
  - intros (opts & quals & described & ? & ? & ? & ? & ->). split; [done|].
    exists opts. split; [done|]. apply bind_Ok. exists quals. split; [done|].
    apply bind_Ok. by exists described.
Qed.

(** A field other than the mirrored ones, the description and the type
    name comes from the qualifier table or from the options step. *)
Lemma serialize_lookup_flag self r k :
  Argument.serialize self = Ok r →
  k ∉ JSON_DIRECT_MIRROR_OPTIONS → k ≠ "description" → k ≠ "python_type_name" →
  ∃ cfg opts quals,
    Argument.unpack_choices self = Ok cfg
    ∧ Argument.options_of self cfg = Ok opts
    ∧ Py.getitem_qualifier JSON_QUALIFIER_TO_OPTIONS
        (default (VQual SUPPRESS) (cfg !! "nargs")) = Ok quals
    ∧ r !! k = (quals ∪ opts) !! k.
Proof.
  intros (cfg & opts & quals & described & ? & ? & ? & Hd & ->)%serialize_Ok ? ? ?.
  exists cfg, opts, quals. split_and!; try done.
  rewrite lookup_union, mirror_lookup, bool_decide_eq_false_2 by done.
  rewrite (left_id_L None _), name_type_lookup by done.
  by eapply describe_lookup.
Qed.

Lemma not_mirrored k :
  k ≠ "choices" → k ≠ "metavar" → k ∉ JSON_DIRECT_MIRROR_OPTIONS.
Proof.
  intros ? ? Hin. unfold JSON_DIRECT_MIRROR_OPTIONS in Hin.
  apply elem_of_cons in Hin as [|Hin]; [done|].
  apply elem_of_cons in Hin as [|Hin]; [done|]. by apply elem_of_nil in Hin.
Qed.

Lemma options_of_lookup_flag self cfg opts k :
  Argument.options_of self cfg = Ok opts →
  k ≠ "options" → k ≠ "is_positional" → opts !! k = None.
Proof.
  intros [[_ ->]|(_ & metavar & _ & ->)]%options_of_Ok ? ?.
  - by rewrite lookup_singleton_ne.
  - by rewrite lookup_insert_ne, lookup_singleton_ne.
Qed.

Lemma JSON_QUALIFIER_TO_OPTIONS_lookup (q : Qualifiers) :
  JSON_QUALIFIER_TO_OPTIONS !! q
  = Some match q with
         | OPTIONAL => {[ "is_optional" := VBool true ]}
         | ZERO_OR_MORE => {[ "is_optional" := VBool true;
                              "is_variadic" := VBool true ]}
         | SUPPRESS => ∅
         end.
Proof. by destruct q. Qed.

Lemma qualifier_fields_lookup (q : Qualifiers) (quals : gmap string value) k :
  JSON_QUALIFIER_TO_OPTIONS !! q = Some quals →
  quals !! k
  = if bool_decide (k = "is_optional") then
      if bool_decide (q = SUPPRESS) then None else Some (VBool true)
    else if bool_decide (k = "is_variadic") then
      if bool_decide (q = ZERO_OR_MORE) then Some (VBool true) else None
    else None.
Proof.
  rewrite JSON_QUALIFIER_TO_OPTIONS_lookup. destruct q; intros [= <-].
  - rewrite lookup_singleton.
    repeat (case_bool_decide || case_decide); simplify_eq; done.
  - rewrite lookup_insert, lookup_singleton.
    repeat (case_bool_decide || case_decide); simplify_eq; done.
  - rewrite lookup_empty. by repeat case_bool_decide.
Qed.

(** C1: [Argument.serialize] expands the qualifier stored under [nargs]
    via the fixed table.  [OPTIONAL] puts [is_optional: true] in the
    output, [ZERO_OR_MORE] puts [is_optional: true] and
    [is_variadic: true], [SUPPRESS] adds neither field, and without a
    qualifier the output has neither an [is_optional] nor an
    [is_variadic] field. *)
Theorem serialize_expands_qualifier self r :
  Argument.serialize self = Ok r →
  (Argument.configuration self !! "nargs" = Some (VQual OPTIONAL) →
     r !! "is_optional" = Some (VBool true) ∧ r !! "is_variadic" = None)
  ∧ (Argument.configuration self !! "nargs" = Some (VQual ZERO_OR_MORE) →
       r !! "is_optional" = Some (VBool true)
       ∧ r !! "is_variadic" = Some (VBool true))
  ∧ (Argument.configuration self !! "nargs" = Some (VQual SUPPRESS) →
       r !! "is_optional" = None ∧ r !! "is_variadic" = None)
  ∧ (Argument.configuration self !! "nargs" = None →
       r !! "is_optional" = None ∧ r !! "is_variadic" = None).
Proof.
  intros Hr.
  assert (∀ k, k = "is_optional" ∨ k = "is_variadic" →
            ∃ q quals,
              default (VQual SUPPRESS) (Argument.configuration self !! "nargs")
              = VQual q
              ∧ JSON_QUALIFIER_TO_OPTIONS !! q = Some quals
              ∧ r !! k = quals !! k) as Hflag.
  { intros k Hk.
    destruct (serialize_lookup_flag self r k Hr)
      as (cfg & opts & quals & Hcfg & Hopts & Hq & ->).
    { apply not_mirrored; by destruct Hk as [-> | ->]. }
    { by destruct Hk as [-> | ->]. }
    { by destruct Hk as [-> | ->]. }
    apply getitem_qualifier_Ok in Hq as (q & Hnargs & Hq).
    rewrite (unpack_choices_lookup self cfg "nargs" Hcfg) in Hnargs by done.
    exists q, quals. split_and!; [done..|].
    rewrite lookup_union.
    rewrite (options_of_lookup_flag self cfg opts k Hopts)
      by (by destruct Hk as [-> | ->]).
    by rewrite (right_id_L None _). }
  destruct (Hflag "is_optional") as (q & quals & Hnargs & Hq & ->); [by left|].
  destruct (Hflag "is_variadic") as (q' & quals' & Hnargs' & Hq' & ->); [by right|].
  rewrite Hnargs in Hnargs'. injection Hnargs' as <-.
  rewrite Hq in Hq'. injection Hq' as <-.
  rewrite !(qualifier_fields_lookup q quals _ Hq). simpl.
  split_and!; intros Hn; rewrite Hn in Hnargs; simpl in Hnargs;
    injection Hnargs as <-; done.
Qed.

(** C6: with aliases, [options] is the alias list and there is no
    [is_positional] field; without aliases, [options] is the [metavar] of
    the configuration and [is_positional] is true. *)
Theorem serialize_options self r :
  Argument.serialize self = Ok r →
  (Argument.aliases self ≠ [] →
     r !! "options" = Some (VList (VStr <$> Argument.aliases self))
     ∧ r !! "is_positional" = None)
  ∧ (Argument.aliases self = [] →
       ∃ metavar, Argument.configuration self !! "metavar" = Some metavar
         ∧ r !! "options" = Some metavar
         ∧ r !! "is_positional" = Some (VBool true)).
Proof.
  intros Hr.
  assert (∀ k, k = "options" ∨ k = "is_positional" →
            ∃ cfg opts, Argument.unpack_choices self = Ok cfg
              ∧ Argument.options_of self cfg = Ok opts
              ∧ r !! k = opts !! k) as Hopt.
  { intros k Hk.
    destruct (serialize_lookup_flag self r k Hr)
      as (cfg & opts & quals & Hcfg & Hopts & Hq & ->).
    { apply not_mirrored; by destruct Hk as [-> | ->]. }
    { by destruct Hk as [-> | ->]. }
    { by destruct Hk as [-> | ->]. }
    exists cfg, opts. split_and!; [done..|].
    apply getitem_qualifier_Ok in Hq as (q & _ & Hq).
    rewrite lookup_union, (qualifier_fields_lookup q quals k Hq).
    destruct Hk as [-> | ->]; rewrite !bool_decide_eq_false_2 by done;
      by rewrite (left_id_L None _). }
  destruct (Hopt "options") as (cfg & opts & Hcfg & Hopts & ->); [by left|].
  destruct (Hopt "is_positional") as (cfg' & opts' & Hcfg' & Hopts' & ->);
    [by right|].
  rewrite Hcfg in Hcfg'. injection Hcfg' as <-.
  rewrite Hopts in Hopts'. injection Hopts' as <-.
  apply options_of_Ok in Hopts as [[Ha ->]|(Ha & metavar & Hm & ->)].
  - split; [intros _ | done].
    split; [apply lookup_singleton_eq | by apply lookup_singleton_ne].
  - split; [done | intros _]. exists metavar.
    rewrite <- (unpack_choices_lookup self cfg "metavar" Hcfg) by done.
    split_and!; [done | | apply lookup_insert_eq].
    rewrite lookup_insert_ne by done. apply lookup_singleton_eq.
Qed.

(** C10: when [nargs] is bound to anything but a [Qualifiers] member, the
    lookup in the qualifier table raises and [Argument.serialize]
    produces no schema entry; the exception is that of the lookup
    whenever the steps before it pass. *)
Theorem serialize_needs_qualifier self (v : value) :
  Argument.configuration self !! "nargs" = Some v →
  Py.is_Qualifiers v = false →
  (∃ e, Argument.serialize self = Raise e)
  ∧ (∃ e, Py.getitem_qualifier JSON_QUALIFIER_TO_OPTIONS v = Raise e
       ∧ (Py.hashable v = true → e = KeyError v)
       ∧ ∀ cfg opts,
           Argument.unpack_choices self = Ok cfg →
           Argument.options_of self cfg = Ok opts →
           Argument.serialize self = Raise e).
Proof.
  intros Hnargs Hv.
  pose proof (getitem_qualifier_other JSON_QUALIFIER_TO_OPTIONS v Hv) as Hget.
  assert (∀ cfg opts,
            Argument.unpack_choices self = Ok cfg →
            Argument.options_of self cfg = Ok opts →
            Argument.serialize self
            = Raise (if Py.hashable v then KeyError v
                     else TypeError "unhashable type")) as Hreach.
  { intros cfg opts Hcfg Hopts. unfold Argument.serialize.
    rewrite Hcfg. simpl. rewrite Hopts. simpl.
    rewrite (unpack_choices_lookup self cfg "nargs" Hcfg), Hnargs by done.
    simpl. by rewrite Hget. }
  split.
  - destruct (Argument.unpack_choices self) as [cfg|e] eqn:Hcfg.
    + destruct (Argument.options_of self cfg) as [opts|e] eqn:Hopts.
      * eexists. by eapply Hreach.
      * exists e. unfold Argument.serialize. rewrite Hcfg. simpl.
        by rewrite Hopts.
    + exists e. unfold Argument.serialize. by rewrite Hcfg.
  - eexists. split; [exact Hget|]. split; [by intros ->|]. exact Hreach.
Qed.

Lemma serialize_lookup_description self r :
  Argument.serialize self = Ok r →
  ∃ cfg, Argument.unpack_choices self = Ok cfg
    ∧ let help_msg := default VNone (cfg !! "help") in
      (Py.truthy help_msg && negb (Py.is_qualifier help_msg SUPPRESS) = false
       ∧ r !! "description" = None)
      ∨ (Py.truthy help_msg && negb (Py.is_qualifier help_msg SUPPRESS) = true
         ∧ ∃ s line lines, help_msg = VStr s
             ∧ Py.splitlines (Py.strip s) = line :: lines
             ∧ r !! "description" = Some (VStr line)).
Proof.
  intros (cfg & opts & quals & described & Hcfg & Hopts & Hq & Hd & ->)%serialize_Ok.
  exists cfg. split; [done|]. simpl.
  rewrite lookup_union, mirror_lookup, bool_decide_eq_false_2
    by (by apply not_mirrored).
  rewrite (left_id_L None _), name_type_lookup by done.
  apply describe_Ok in Hd as [[Hg ->]|(Hg & s & line & lines & Hs & Hl & ->)].
  - left. split; [done|].
    apply getitem_qualifier_Ok in Hq as (q & _ & Hq).
    rewrite lookup_union, (qualifier_fields_lookup q quals _ Hq).
    rewrite !bool_decide_eq_false_2 by done.
    by rewrite (left_id_L None _), (options_of_lookup_flag self cfg opts).
  - right. split; [done|]. exists s, line, lines.
    by rewrite lookup_insert_eq.
Qed.

(** C5, amended: the output has a [description] exactly when the help
    text in effect (the configuration's, or the resolver's for lazily
    resolved choices) is non-empty and is not the [SUPPRESS] qualifier;
    the description is then the first line of the stripped help text.
    Help equal to [SUPPRESS] gives no [description] key. *)
Theorem serialize_description self r :
  Argument.serialize self = Ok r →
  ∃ help_msg,
    Argument.help_in_effect self = Ok help_msg
    ∧ (¬ Argument.lazily_resolved self →
         help_msg = default VNone (Argument.configuration self !! "help"))
    ∧ (is_Some (r !! "description")
         ↔ Py.truthy help_msg = true ∧ help_msg ≠ VQual SUPPRESS)
    ∧ (∀ d, r !! "description" = Some d →
         ∃ s, help_msg = VStr s ∧ s ≠ EmptyString
           ∧ d = VStr (Py.first_line (Py.strip s)))
    ∧ (help_msg = VQual SUPPRESS → r !! "description" = None).
Proof.
  intros Hr.
  destruct (serialize_lookup_description self r Hr) as (cfg & Hcfg & Hd).
  exists (default VNone (cfg !! "help")). simpl in Hd.
  assert (Py.truthy (default VNone (cfg !! "help"))
            && negb (Py.is_qualifier (default VNone (cfg !! "help")) SUPPRESS)
          = true
          ↔ Py.truthy (default VNone (cfg !! "help")) = true
            ∧ default VNone (cfg !! "help") ≠ VQual SUPPRESS) as Hguard.
  { rewrite andb_true_iff, negb_true_iff, <- not_true_iff_false.
    by rewrite is_qualifier_true. }
  split_and!.
  - unfold Argument.help_in_effect. by rewrite Hcfg.
  - intros Hstatic. rewrite (unpack_choices_static self Hstatic) in Hcfg.
    injection Hcfg as <-. by rewrite lookup_delete_ne.
  - rewrite <- Hguard.
    destruct Hd as [[Hg ->]|(Hg & s & line & lines & _ & _ & ->)].
    + rewrite Hg. split; [by intros [? ?] | done].
    + split; [done | by eexists].
  - intros d Hdesc.
    destruct Hd as [[_ Hnone]|(Hg & s & line & lines & Hs & Hl & Hsome)];
      [congruence|].
    exists s. split; [done|]. split.
    + intros ->. by rewrite Hs in Hg.
    + rewrite Hsome in Hdesc. injection Hdesc as <-.
      by rewrite (splitlines_first _ _ _ Hl).
  - intros Hs. destruct Hd as [[_ Hnone]|(Hg & _)]; [done|].
    apply Hguard in Hg as [_ Hg]. done.
Qed.

(** C3: for an argument whose choices are resolved lazily, the resolver
    is built from the aliases and the rest of the configuration and its
    [load()] is called: a failure of either is the failure of
    [Argument.serialize], and in an output the [choices] field is the
    loaded sequence and the description comes from the resolver's help,
    whatever [choices] and [help] the configuration declares. *)
Theorem serialize_resolves_lazy_choices self :
  Argument.lazily_resolved self →
  let kwargs :=
    delete "action" (Argument.configuration self) ∪ {[ "dest" := VNone ]} in
  (∀ r, Argument.serialize self = Ok r →
     ∃ choices loaded,
       LazyChoices (Argument.aliases self) kwargs = Ok choices
       ∧ load choices = Ok loaded
       ∧ r !! "choices" = Some (VList loaded)
       ∧ (∀ s, help choices = VStr s →
            r !! "description"
            = VStr <$> head (Py.splitlines (Py.strip s)))
       ∧ ((∀ s, help choices ≠ VStr s) → r !! "description" = None))
  ∧ (∀ e, LazyChoices (Argument.aliases self) kwargs = Raise e →
       Argument.serialize self = Raise e)
  ∧ (∀ choices e,
       LazyChoices (Argument.aliases self) kwargs = Ok choices →
       load choices = Raise e →
       Argument.serialize self = Raise e).
Proof.
  intros Hlazy kwargs. split_and!.
  - intros r Hr.
    destruct (serialize_lookup_description self r Hr) as (cfg & Hcfg & Hd).
    pose proof Hr as (cfg' & opts & quals & described & Hcfg' & _ & _ & _ & Hreq)%serialize_Ok.
    rewrite Hcfg in Hcfg'. injection Hcfg' as <-.
    apply (unpack_choices_lazy self cfg Hlazy) in Hcfg
      as (choices & loaded & Hchoices & Hload & ->).
    exists choices, loaded. split_and!; [done..| | |].
    + rewrite Hreq, lookup_union, mirror_lookup.
      rewrite bool_decide_eq_true_2 by (apply list_elem_of_here).
      by rewrite lookup_insert_ne, lookup_insert_eq, union_Some_l.
    + intros s Hs. simpl in Hd. rewrite lookup_insert_eq in Hd. simpl in Hd.
      rewrite Hs in Hd.
      destruct Hd as [[Hg ->]|(_ & s' & line & lines & [= <-] & Hl & ->)].
      * simpl in Hg. rewrite andb_true_r, negb_false_iff in Hg.
        apply Nat.eqb_eq in Hg. by destruct s.
      * by rewrite Hl.
    + intros Hs. simpl in Hd. rewrite lookup_insert_eq in Hd. simpl in Hd.
      destruct Hd as [[_ ->]|(_ & s & _ & _ & ? & _)]; [done|].
      by destruct (Hs s).
  - intros e He. unfold Argument.serialize, Argument.unpack_choices.
    rewrite Hlazy. simpl. fold kwargs. by rewrite He.
  - intros choices e Hchoices He.
    unfold Argument.serialize, Argument.unpack_choices.
    rewrite Hlazy. simpl. fold kwargs. rewrite Hchoices. simpl. by rewrite He.
Qed.

Lemma described_lookup_cases self cfg opts quals described k (v : value) :
  Argument.options_of self cfg = Ok opts →
  Py.getitem_qualifier JSON_QUALIFIER_TO_OPTIONS
    (default (VQual SUPPRESS) (cfg !! "nargs")) = Ok quals →
  Argument.describe cfg (quals ∪ opts) = Ok described →
  described !! k = Some v →
  (k = "description" ∧ ∃ line, v = VStr line)
  ∨ ((k = "is_optional" ∨ k = "is_variadic") ∧ v = VBool true)
  ∨ (k = "is_positional" ∧ v = VBool true)
  ∨ (k = "options"
     ∧ (v = VList (VStr <$> Argument.aliases self)
        ∨ Argument.aliases self = [] ∧ cfg !! "metavar" = Some v)).
Proof.
  intros Hopts (q & _ & Hq)%getitem_qualifier_Ok Hd Hk.
  assert ((quals ∪ opts) !! k = Some v →
          ((k = "is_optional" ∨ k = "is_variadic") ∧ v = VBool true)
          ∨ (k = "is_positional" ∧ v = VBool true)
          ∨ (k = "options"
             ∧ (v = VList (VStr <$> Argument.aliases self)
                ∨ Argument.aliases self = [] ∧ cfg !! "metavar" = Some v)))
    as Hbase.
  { intros [Hv|[_ Hv]]%lookup_union_Some_raw.
    - left. rewrite (qualifier_fields_lookup q quals k Hq) in Hv.
      repeat case_bool_decide; simplify_eq; auto.
    - right.
      apply options_of_Ok in Hopts as [[Ha ->]|(Ha & metavar & Hm & ->)].
      + apply lookup_singleton_Some in Hv as [<- <-]. auto.
      + apply lookup_insert_Some in Hv as [[<- <-]|[_ Hv]]; [by left|].
        apply lookup_singleton_Some in Hv as [<- <-]. auto. }
  apply describe_Ok in Hd as [[_ ->]|(_ & s & line & lines & _ & _ & ->)].
  - right. by apply Hbase.
  - apply lookup_insert_Some in Hk as [[<- <-]|[_ Hk]].
    + left. split; [done | by eexists].
    + right. by apply Hbase.
Qed.

(** Where a field of the output comes from. *)
Lemma serialize_lookup_cases self r k (v : value) :
  Argument.serialize self = Ok r → r !! k = Some v →
  ∃ cfg, Argument.unpack_choices self = Ok cfg
    ∧ ((k ∈ JSON_DIRECT_MIRROR_OPTIONS ∧ cfg !! k = Some v)
       ∨ (k = "python_type_name" ∧ ∃ name, v = VStr name)
       ∨ (k = "description" ∧ ∃ line, v = VStr line)
       ∨ ((k = "is_optional" ∨ k = "is_variadic") ∧ v = VBool true)
       ∨ (k = "is_positional" ∧ v = VBool true)
       ∨ (k = "options"
          ∧ (v = VList (VStr <$> Argument.aliases self)
             ∨ Argument.aliases self = [] ∧ cfg !! "metavar" = Some v))).
Proof.
  intros (cfg & opts & quals & described & Hcfg & Hopts & Hq & Hd & ->)%serialize_Ok Hk.
  exists cfg. split; [done|].
  apply lookup_union_Some_raw in Hk as [Hk|[_ Hk]].
  { apply map_lookup_filter_Some in Hk as [? ?]. by left. }
  right. unfold Argument.name_type in Hk.
  destruct (negb _).
  - apply lookup_insert_Some in Hk as [[<- <-]|[_ Hk]].
    + left. split; [done | by eexists].
    + right. by eapply described_lookup_cases.
  - right. by eapply described_lookup_cases.
Qed.

(** A mirrored field of the output is the field of the configuration
    that [serialize] reads, absent when that has none. *)
Lemma serialize_lookup_mirror self r k :
  Argument.serialize self = Ok r → k ∈ JSON_DIRECT_MIRROR_OPTIONS →
  ∃ cfg, Argument.unpack_choices self = Ok cfg ∧ r !! k = cfg !! k.
Proof.
  intros Hr Hk.
  pose proof Hr as (cfg & opts & quals & described & Hcfg & _ & _ & _ & Heq)%serialize_Ok.
  exists cfg. split; [done|].
  destruct (cfg !! k) as [v|] eqn:Hv.
  - rewrite Heq, lookup_union, mirror_lookup, bool_decide_eq_true_2 by done.
    rewrite Hv. apply union_Some_l.
  - destruct (r !! k) as [w|] eqn:Hw; [|done].
    destruct (serialize_lookup_cases self r k w Hr Hw) as (cfg' & Hcfg' & Hc).
    rewrite Hcfg in Hcfg'. injection Hcfg' as <-.
    unfold JSON_DIRECT_MIRROR_OPTIONS in Hk.
    destruct Hc as [[_ ?]|[[-> _]|[[-> _]|[[[-> | ->] _]|[[-> _]|[-> _]]]]]];
      [congruence|..];
      repeat (apply elem_of_cons in Hk as [?|Hk]; [done|]);
      by apply elem_of_nil in Hk.
Qed.

(** The [options] of the output: the aliases, or the [metavar] of an
    argument without aliases. *)
Lemma serialize_lookup_options self r :
  Argument.serialize self = Ok r →
  (Argument.aliases self ≠ [] →
   r !! "options" = Some (VList (VStr <$> Argument.aliases self)))
  ∧ (Argument.aliases self = [] →
     is_Some (Argument.configuration self !! "metavar")
     ∧ r !! "options" = Argument.configuration self !! "metavar").
Proof.
  intros Hr.
  destruct (serialize_lookup_flag self r "options" Hr)
    as (cfg & opts & quals & Hcfg & Hopts & Hq & ->);
    [by apply not_mirrored|done..|].
  apply getitem_qualifier_Ok in Hq as (q & _ & Hq).
  rewrite lookup_union, (qualifier_fields_lookup q quals _ Hq).
  rewrite !bool_decide_eq_false_2 by done. rewrite (left_id_L None _).
  apply options_of_Ok in Hopts as [[Ha ->]|(Ha & metavar & Hm & ->)].
  - split; [|done]. intros _. by rewrite lookup_singleton_eq.
  - split; [done|]. intros _.
    rewrite (unpack_choices_lookup self cfg "metavar" Hcfg) in Hm by done.
    rewrite lookup_insert_ne, lookup_singleton_eq by done.
    by rewrite Hm.
Qed.

(** C9, amended: [is_positional], [is_optional], [is_variadic],
    [description] and [python_type_name] are never bound to null in the
    output.  The other fields are not guarded: [metavar] is the [metavar]
    of the configuration as it is, [options] is the list of the aliases
    or, without aliases, the [metavar] of the configuration as it is, and
    [choices] is the list of what [load()] returned when the choices are
    resolved lazily and the [choices] of the configuration as it is
    otherwise.  So a key of the output is bound to null exactly when it
    is [metavar], or [options] without aliases, and the configuration
    binds [metavar] to null, or it is [choices], the choices are not
    resolved lazily and the configuration binds [choices] to null; no key
    at all is bound to null when the configuration binds neither
    [metavar] nor [choices] to null. *)
Theorem serialize_no_null self r :
  Argument.serialize self = Ok r →
  (∀ k, k ∈ ["is_positional"; "is_optional"; "is_variadic"; "description";
             "python_type_name"] →
        r !! k ≠ Some VNone)
  ∧ (Argument.configuration self !! "metavar" ≠ Some VNone →
     Argument.configuration self !! "choices" ≠ Some VNone →
     ∀ k, r !! k ≠ Some VNone)
  ∧ r !! "metavar" = Argument.configuration self !! "metavar"
  ∧ (Argument.aliases self ≠ [] →
     r !! "options" = Some (VList (VStr <$> Argument.aliases self)))
  ∧ (Argument.aliases self = [] →
     r !! "options" = Argument.configuration self !! "metavar")
  ∧ (¬ Argument.lazily_resolved self →
     r !! "choices" = Argument.configuration self !! "choices")
  ∧ (Argument.lazily_resolved self →
     ∃ choices loaded,
       LazyChoices (Argument.aliases self)
         (delete "action" (Argument.configuration self) ∪ {[ "dest" := VNone ]})
       = Ok choices
       ∧ load choices = Ok loaded
       ∧ r !! "choices" = Some (VList loaded))
  ∧ (∀ k, r !! k = Some VNone
       ↔ ((k = "metavar" ∨ k = "options" ∧ Argument.aliases self = [])
          ∧ Argument.configuration self !! "metavar" = Some VNone)
         ∨ (k = "choices" ∧ ¬ Argument.lazily_resolved self
            ∧ Argument.configuration self !! "choices" = Some VNone)).
Proof.
  intros Hr.
  assert (r !! "metavar" = Argument.configuration self !! "metavar") as Hmetavar.
  { destruct (serialize_lookup_mirror self r "metavar" Hr) as (cfg & Hcfg & ->).
    { apply list_elem_of_further, list_elem_of_here. }
    by apply (unpack_choices_lookup self cfg "metavar"). }
  assert (¬ Argument.lazily_resolved self →
          r !! "choices" = Argument.configuration self !! "choices") as Hstatic.
  { intros Hstatic.
    destruct (serialize_lookup_mirror self r "choices" Hr) as (cfg & Hcfg & ->).
    { apply list_elem_of_here. }
    rewrite (unpack_choices_static self Hstatic) in Hcfg. injection Hcfg as <-.
    by rewrite lookup_delete_ne. }
  assert (Argument.lazily_resolved self →
          ∃ choices loaded,
            LazyChoices (Argument.aliases self)
              (delete "action" (Argument.configuration self)
                 ∪ {[ "dest" := VNone ]}) = Ok choices
            ∧ load choices = Ok loaded
            ∧ r !! "choices" = Some (VList loaded)) as Hlazy.
  { intros Hlazy.
    destruct (serialize_lookup_mirror self r "choices" Hr) as (cfg & Hcfg & ->).
    { apply list_elem_of_here. }
    apply (unpack_choices_lazy _ _ Hlazy) in Hcfg
      as (choices & loaded & Hchoices & Hloaded & ->).
    exists choices, loaded. split_and!; [done..|].
    by rewrite lookup_insert_ne, lookup_insert_eq. }
  destruct (serialize_lookup_options self r Hr) as [Haliases Hpositional].
  assert (∀ k, r !! k = Some VNone →
            ((k = "metavar" ∨ k = "options" ∧ Argument.aliases self = [])
             ∧ Argument.configuration self !! "metavar" = Some VNone)
            ∨ (k = "choices" ∧ ¬ Argument.lazily_resolved self
               ∧ Argument.configuration self !! "choices" = Some VNone))
    as Hnull.
  { intros k Hk.
    destruct (serialize_lookup_cases self r k VNone Hr Hk) as (cfg & Hcfg & Hc).
    destruct Hc as [[Hm _]|[[_ [? ?]]|[[_ [? ?]]|[[_ ?]|[[_ ?]|[-> Ho]]]]]];
      try done.
    - unfold JSON_DIRECT_MIRROR_OPTIONS in Hm.
      apply elem_of_cons in Hm as [->|Hm].
      + right. split; [done|].
        destruct (decide (Argument.lazily_resolved self)) as [Hl|Hs].
        * destruct (Hlazy Hl) as (? & ? & _ & _ & Hc). congruence.
        * split; [done|]. by rewrite <- (Hstatic Hs).
      + apply elem_of_cons in Hm as [->|Hm]; [|by apply elem_of_nil in Hm].
        left. split; [by left|]. by rewrite <- Hmetavar.
    - destruct Ho as [?|[Ha Hm]]; [done|].
      left. split; [by right|].
      by rewrite (unpack_choices_lookup self cfg "metavar" Hcfg) in Hm. }
  split_and!; try done.
  - intros k Hin Hk.
    destruct (Hnull k Hk) as [[[->|[-> _]] _]|[-> _]];
      repeat (apply elem_of_cons in Hin as [?|Hin]; [done|]);
      by apply elem_of_nil in Hin.
  - intros Hm Hc k Hk. by destruct (Hnull k Hk) as [[_ ?]|(_ & _ & ?)].
  - intros Ha. by apply Hpositional.
  - intros k. split; [apply Hnull|].
    intros [[[->|[-> Ha]] Hm]|(-> & Hs & Hc)].
    + by rewrite Hmetavar.
    + destruct (Hpositional Ha) as [_ ->]. done.
    + by rewrite (Hstatic Hs).
Qed.

(** An argument with statically declared choices is serialized when it
    has aliases or a [metavar], its [nargs] is absent or a qualifier, and
    its help is absent, empty, suppressed or a text that is not blank. *)
Lemma serialize_static_Ok self :
  ¬ Argument.lazily_resolved self →
  Argument.aliases self ≠ []
    ∨ is_Some (Argument.configuration self !! "metavar") →
  Argument.configuration self !! "nargs" = None
    ∨ (∃ q, Argument.configuration self !! "nargs" = Some (VQual q)) →
  Py.truthy (default VNone (Argument.configuration self !! "help")) = false
    ∨ Argument.configuration self !! "help" = Some (VQual SUPPRESS)
    ∨ (∃ s, Argument.configuration self !! "help" = Some (VStr s)
         ∧ Py.strip s ≠ EmptyString) →
  ∃ r, Argument.serialize self = Ok r.
Proof.
  intros Hstatic Hoptions Hnargs Hhelp.
  assert (∃ opts, Argument.options_of self
                    (delete "action" (Argument.configuration self)) = Ok opts)
    as [opts Hopts].
  { destruct (decide (Argument.aliases self = [])) as [Ha|Ha].
    - destruct Hoptions as [?|[metavar Hm]]; [done|].
      eexists. apply options_of_Ok. right. split; [done|].
      exists metavar. by rewrite lookup_delete_ne.
    - eexists. apply options_of_Ok. by left. }
  assert (∃ quals, Py.getitem_qualifier JSON_QUALIFIER_TO_OPTIONS
                     (default (VQual SUPPRESS)
                        (delete "action" (Argument.configuration self)
                           !! "nargs")) = Ok quals) as [quals Hquals].
  { rewrite lookup_delete_ne by done.
    destruct Hnargs as [->|[q ->]]; simpl.
    - eexists. apply getitem_qualifier_Ok. by exists SUPPRESS.
    - eexists. apply getitem_qualifier_Ok. exists q. split; [done|].
      apply JSON_QUALIFIER_TO_OPTIONS_lookup. }
  assert (∃ described,
            Argument.describe (delete "action" (Argument.configuration self))
              (quals ∪ opts) = Ok described) as [described Hdescribed].
  { unfold Argument.describe. rewrite lookup_delete_ne by done.
    destruct Hhelp as [Hfalsy|[->|(s & -> & Hs)]]; simpl.
    - rewrite Hfalsy. by eexists.
    - by eexists.
    - destruct (negb (String.length s =? 0)%nat); simpl; [|by eexists].
      destruct (Py.splitlines (Py.strip s)) as [|line lines] eqn:Hl.
      + by apply splitlines_nil in Hl.
      + by eexists. }
  eexists. apply serialize_Ok.
  exists (delete "action" (Argument.configuration self)), opts, quals, described.
  split_and!; [by apply unpack_choices_static | done..].
Qed.

End schema.

(** ** The qualifier mapping *)

Lemma mapM_Raise {A B : Type} (f : A → raising B) (l : list A) (e : exn) :
  mapM f l = Raise e → ∃ x, x ∈ l ∧ f x = Raise e.
Proof.
  induction l as [|x l IH]; simpl; [done|].
  intros [Hx|(y & Hy & [Hl|(k & _ & ?)]%bind_Raise)]%bind_Raise; [| |done].
  - exists x. split; [apply list_elem_of_here | done].
  - destruct (IH Hl) as (x' & ? & ?). exists x'.
    split; [by apply list_elem_of_further | done].
Qed.

Lemma mapM_app {A B : Type} (f : A → raising B) (l1 l2 : list A) :
  mapM f (l1 ++ l2) = (k1 ← mapM f l1; k2 ← mapM f l2; Ok (k1 ++ k2)).
Proof.
  induction l1 as [|x l1 IH]; simpl.
  - by destruct (mapM f l2).
  - destruct (f x) as [y|e]; simpl; [|done]. rewrite IH.
    destruct (mapM f l1) as [k1|e]; simpl; [|done].
    by destruct (mapM f l2).
Qed.

Lemma mapM_returns {A B : Type} (f : A → raising B) (l : list A) :
  returns (mapM f l) = true ↔ Forall (λ y, returns (f y) = true) l.
Proof.
  induction l as [|x l IH]; simpl; [done|].
  rewrite Forall_cons, <- IH.
  destruct (f x); simpl; [|by split; [|intros []]].
  destruct (mapM f l); simpl; by split; [|intros []].
Qed.

Section map_qualifiers.
Variable qualifier_map : gmap Qualifiers value.

Local Abbreviation map_item := (map_item qualifier_map).

Lemma map_item_Ok key (value : value) item :
  map_item (key, value) = Ok item
  ↔ item.1 = key
    ∧ ((Py.is_Qualifiers value = false ∧ item.2 = value)
       ∨ ∃ q, value = VQual q ∧ qualifier_map !! q = Some item.2).
Proof.
  unfold map_item. rewrite bind_Ok. destruct item as [key' value']. simpl.
  split.
  - intros (v & Hv & [= <- <-]). split; [done|].
    destruct (Py.is_Qualifiers value) eqn:Hq.
    + right. by apply getitem_qualifier_Ok in Hv.
    + left. by injection Hv.
  - intros [-> Hv]. exists value'. split; [|done].
    destruct Hv as [[-> ->]|(q & -> & Hq)]; [done|].
    simpl. unfold Py.getitem_qualifier. simpl. by rewrite Hq.
Qed.

Lemma map_item_Raise key (value : value) e :
  map_item (key, value) = Raise e
  ↔ ∃ q, value = VQual q ∧ qualifier_map !! q = None ∧ e = KeyError (VQual q).
Proof.
  unfold map_item. rewrite bind_Raise. split.
  - intros [Hv|(? & _ & ?)]; [|done].
    destruct value; simpl in Hv; try done.
    unfold Py.getitem_qualifier in Hv. simpl in Hv.
    destruct (qualifier_map !! q) eqn:Hq; [done|].
    exists q. split_and!; congruence.
  - intros (q & -> & Hq & ->). left. simpl.
    unfold Py.getitem_qualifier. simpl. by rewrite Hq.
Qed.

Lemma map_items_keys (l items : list (string * value)) :
  Forall2 (λ x y, map_item x = Ok y) l items → items.*1 = l.*1.
Proof.
  induction 1 as [|[key value] item l items [Hk _]%map_item_Ok _ IH]; [done|].
  rewrite !fmap_cons. by f_equal.
Qed.

Lemma map_items_elem (l items : list (string * value)) :
  Forall2 (λ x y, map_item x = Ok y) l items →
  ∀ key v (value' : value),
    (key, v) ∈ l → NoDup l.*1 → (key, value') ∈ items →
    map_item (key, v) = Ok (key, value').
Proof.
  induction 1 as [|[k0 v0] [k0' v0'] l items Hx Hl IH]; intros key v value'.
  { by intros ?%elem_of_nil. }
  pose proof Hx as [Hk _]%map_item_Ok. simpl in Hk. subst k0'.
  pose proof (map_items_keys l items Hl) as Hkeys.
  intros Hin Hnodup Hin'. rewrite fmap_cons in Hnodup.
  apply NoDup_cons in Hnodup as [Hk0 Hnodup]. simpl in Hk0.
  apply elem_of_cons in Hin as [Heq|Hin];
    apply elem_of_cons in Hin' as [Heq'|Hin']; simplify_eq.
  - done.
  - destruct Hk0. rewrite <- Hkeys. apply list_elem_of_fmap. by exists (k0, value').
  - destruct Hk0. apply list_elem_of_fmap. by exists (k0, v).
  - by apply IH.
Qed.

(** Either outcome of [map_qualifiers]. *)
Lemma map_qualifiers_cases (configuration : gmap string value) :
  match map_qualifiers configuration qualifier_map with
  | Ok mapped =>
      dom mapped = dom configuration
      ∧ (∀ key q, configuration !! key = Some (VQual q) →
           ∃ target, qualifier_map !! q = Some target
             ∧ mapped !! key = Some target)
      ∧ (∀ key (value : value), configuration !! key = Some value →
           Py.is_Qualifiers value = false → mapped !! key = Some value)
  | Raise e =>
      ∃ key q, configuration !! key = Some (VQual q)
        ∧ qualifier_map !! q = None
        ∧ e = KeyError (VQual q)
  end.
Proof.
  unfold map_qualifiers.
  destruct (mapM map_item (map_to_list configuration)) as [items|e] eqn:Hitems;
    simpl.
  - apply mapM_Ok in Hitems.
    pose proof (map_items_keys _ _ Hitems) as Hkeys.
    pose proof (NoDup_fst_map_to_list configuration) as Hnodup.
    assert (NoDup items.*1) as Hnodup' by by rewrite Hkeys.
    assert (∀ key v, configuration !! key = Some v →
              ∃ v', list_to_map (M := gmap string value) items !! key
                    = Some v'
                ∧ map_item (key, v) = Ok (key, v')) as Hlookup.
    { intros key v Hk. apply elem_of_map_to_list in Hk.
      assert (key ∈ items.*1) as ((key' & v') & -> & Hin)%list_elem_of_fmap.
      { rewrite Hkeys. apply list_elem_of_fmap. by exists (key, v). }
      exists v'. simpl in *. split; [by apply elem_of_list_to_map|].
      by eapply map_items_elem. }
    split_and!.
    + apply set_eq. intros key. rewrite !elem_of_dom. split.
      * intros [v' Hv]. apply elem_of_list_to_map in Hv; [|done].
        assert (key ∈ (map_to_list configuration).*1)
          as ((key' & v) & -> & Hin)%list_elem_of_fmap.
        { rewrite <- Hkeys. apply list_elem_of_fmap. by exists (key, v'). }
        exists v. by apply elem_of_map_to_list.
      * intros [v (v' & Hv & _)%Hlookup]. by exists v'.
    + intros key q (v' & Hv & [_ Hi]%map_item_Ok)%Hlookup. simpl in Hi.
      destruct Hi as [[? _]|(q' & [= <-] & Hq)]; [done|]. by exists v'.
    + intros key v (v' & Hv & [_ Hi]%map_item_Ok)%Hlookup Hq.
      simpl in Hi. destruct Hi as [[_ <-]|(q' & -> & _)]; done.
  - apply mapM_Raise in Hitems as ([key value] & Hin & Hraise).
    apply elem_of_map_to_list in Hin.
    apply map_item_Raise in Hraise as (q & -> & Hq & ->). by exists key, q.
Qed.

(** C2: [map_qualifiers] returns a mapping with exactly the keys of the
    configuration, in which a value that is a [Qualifiers] member is the
    entry of the target map for that member and any other value is
    unchanged; it returns when every member in the configuration has an
    entry, and raises [KeyError] for such a member when one has none. *)
Theorem map_qualifiers_spec (configuration : gmap string value) :
  (∀ mapped, map_qualifiers configuration qualifier_map = Ok mapped →
     dom mapped = dom configuration
     ∧ (∀ key q, configuration !! key = Some (VQual q) →
          ∃ target, qualifier_map !! q = Some target
            ∧ mapped !! key = Some target)
     ∧ (∀ key v, configuration !! key = Some v →
          Py.is_Qualifiers v = false → mapped !! key = Some v))
  ∧ ((∀ key q, configuration !! key = Some (VQual q) →
        is_Some (qualifier_map !! q)) →
     ∃ mapped, map_qualifiers configuration qualifier_map = Ok mapped)
  ∧ (∀ key q, configuration !! key = Some (VQual q) →
       qualifier_map !! q = None →
       ∃ key' q', configuration !! key' = Some (VQual q')
         ∧ qualifier_map !! q' = None
         ∧ map_qualifiers configuration qualifier_map
           = Raise (KeyError (VQual q'))).
Proof.
  pose proof (map_qualifiers_cases configuration) as Hcases.
  destruct (map_qualifiers configuration qualifier_map) as [mapped|e].
  - split_and!.
    + by intros ? [= <-].
    + intros _. by exists mapped.
    + intros key q Hkey Hq. destruct Hcases as (_ & Hqual & _).
      destruct (Hqual key q Hkey) as (? & ? & _). congruence.
  - destruct Hcases as (key' & q' & Hkey' & Hq' & ->). split_and!.
    + done.
    + intros Hall. destruct (Hall key' q' Hkey') as [? ?]. congruence.
    + intros _ _ _ _. by exists key', q'.
Qed.

End map_qualifiers.

(** ** The executable-parser compiler *)

Lemma ARGPARSE_QUALIFIER_MAP_total (q : Qualifiers) :
  is_Some (ARGPARSE_QUALIFIER_MAP !! q).
Proof. destruct q; by eexists. Qed.

(** With the [argparse] table, [map_qualifiers] cannot fail. *)
Lemma map_qualifiers_native (configuration : gmap string value) :
  map_qualifiers configuration ARGPARSE_QUALIFIER_MAP
  = Ok (native <$> configuration).
Proof.
  pose proof (map_qualifiers_cases ARGPARSE_QUALIFIER_MAP configuration) as Hspec.
  destruct (map_qualifiers configuration ARGPARSE_QUALIFIER_MAP)
    as [mapped|e].
  - destruct Hspec as (Hdom & Hqual & Hother). f_equal. apply map_eq. intros key.
    rewrite lookup_fmap. destruct (configuration !! key) as [v|] eqn:Hkey; simpl.
    + destruct (Py.is_Qualifiers v) eqn:Hv.
      * apply is_Qualifiers_true in Hv as [q ->].
        destruct (Hqual key q Hkey) as (target & Hq & Hm).
        simpl. by rewrite Hq.
      * rewrite (Hother key v Hkey Hv). by destruct v.
    + apply not_elem_of_dom. rewrite Hdom. by apply not_elem_of_dom.
  - destruct Hspec as (key & q & _ & Hq & _).
    destruct (ARGPARSE_QUALIFIER_MAP_total q) as [? ?]. congruence.
Qed.

Section collisions.
Implicit Types (taken names : list string) (aliases : list (list string)).

Lemma first_collision_app taken aliases1 aliases2 :
  first_collision taken (aliases1 ++ aliases2)
  = match first_collision taken aliases1 with
    | Some alias => Some alias
    | None => first_collision (taken ++ mjoin aliases1) aliases2
    end.
Proof.
  revert taken. induction aliases1 as [|names aliases1 IH]; intros taken; simpl.
  - by rewrite app_nil_r.
  - destruct (list_find _ names) as [[i alias]|]; [done|].
    by rewrite IH, app_assoc.
Qed.

(** An alias of some list that is taken already is a collision. *)
Lemma first_collision_taken taken aliases names alias :
  names ∈ aliases → alias ∈ names → alias ∈ taken →
  is_Some (first_collision taken aliases).
Proof.
  revert taken. induction aliases as [|names0 aliases IH]; intros taken Hn Ha Ht.
  { by apply elem_of_nil in Hn. }
  simpl. destruct (list_find _ names0) as [[i alias']|] eqn:Hfind; [by eexists|].
  apply list_find_None in Hfind.
  apply elem_of_cons in Hn as [->|Hn].
  - rewrite Forall_forall in Hfind. by destruct (Hfind alias Ha).
  - apply IH; [done..|]. apply elem_of_app. by left.
Qed.

(** An alias shared by two of the lists is a collision. *)
Lemma first_collision_shared taken aliases i j names1 names2 alias :
  i < j → aliases !! i = Some names1 → aliases !! j = Some names2 →
  alias ∈ names1 → alias ∈ names2 →
  is_Some (first_collision taken aliases).
Proof.
  revert taken i j.
  induction aliases as [|names0 aliases IH]; intros taken i j Hij Hi Hj H1 H2.
  { done. }
  simpl. destruct (list_find _ names0) as [[n alias']|] eqn:Hfind; [by eexists|].
  destruct j as [|j]; [lia|]. simpl in Hj.
  destruct i as [|i]; simpl in Hi.
  - injection Hi as ->.
    apply (first_collision_taken _ _ names2 alias); [|done|].
    + by eapply list_elem_of_lookup_2.
    + apply elem_of_app. by right.
  - apply (IH _ i j); [lia | done..].
Qed.

(** Without a collision, the lists share no alias and none is taken. *)
Lemma first_collision_None taken aliases :
  first_collision taken aliases = None →
  (∀ names alias, names ∈ aliases → alias ∈ names → alias ∉ taken)
  ∧ (∀ i j names1 names2 alias,
       i < j → aliases !! i = Some names1 → aliases !! j = Some names2 →
       alias ∈ names1 → alias ∉ names2).
Proof.
  intros Hnone. split.
  - intros names alias Hn Ha Ht.
    destruct (first_collision_taken taken aliases names alias) as [? ?];
      [done..|congruence].
  - intros i j names1 names2 alias Hij Hi Hj H1 H2.
    destruct (first_collision_shared taken aliases i j names1 names2 alias)
      as [? ?]; [done..|congruence].
Qed.

(** Lists that share no alias, none of which is taken, register without
    a collision. *)
Lemma first_collision_free taken aliases :
  (∀ names alias, names ∈ aliases → alias ∈ names → alias ∉ taken) →
  (∀ i j names1 names2 alias,
     i < j → aliases !! i = Some names1 → aliases !! j = Some names2 →
     alias ∈ names1 → alias ∉ names2) →
  first_collision taken aliases = None.
Proof.
  revert taken.
  induction aliases as [|names0 aliases IH]; intros taken Htaken Hshare; [done|].
  simpl. destruct (list_find _ names0) as [[n alias]|] eqn:Hfind.
  - apply list_find_Some in Hfind as (Hn & Ht & _).
    destruct (Htaken names0 alias); [apply list_elem_of_here| |done].
    by eapply list_elem_of_lookup_2.
  - apply IH.
    + intros names alias Hn Ha [Ht|Ht]%elem_of_app.
      * by apply (Htaken names alias); [apply list_elem_of_further|..].
      * apply list_elem_of_lookup in Hn as [j Hj].
        by apply (Hshare 0 (S j) names0 names alias); [lia|..].
    + intros i j names1 names2 alias Hij Hi Hj.
      apply (Hshare (S i) (S j)); [lia | done..].
Qed.

(** A collision is an alias of one of the lists that is taken already or
    stands in an earlier list too. *)
Lemma first_collision_Some taken aliases alias :
  first_collision taken aliases = Some alias →
  ∃ j names2,
    aliases !! j = Some names2 ∧ alias ∈ names2
    ∧ (alias ∈ taken
       ∨ ∃ i names1, i < j ∧ aliases !! i = Some names1 ∧ alias ∈ names1).
Proof.
  revert taken. induction aliases as [|names0 aliases IH]; intros taken; [done|].
  simpl. destruct (list_find _ names0) as [[n alias']|] eqn:Hfind.
  - intros [= ->]. apply list_find_Some in Hfind as (Hn & Ht & _).
    exists 0, names0. split_and!; [done| |by left].
    by eapply list_elem_of_lookup_2.
  - intros (j & names2 & Hj & H2 & Hearlier)%IH.
    exists (S j), names2. split_and!; [done..|].
    destruct Hearlier as [[Ht|H0]%elem_of_app|(i & names1 & Hij & Hi & H1)].
    + by left.
    + right. exists 0, names0. split_and!; [lia|done..].
    + right. exists (S i), names1. split_and!; [lia|done..].
Qed.
End collisions.

Section parser_construction.
Implicit Types (p : Parser.t) (cg : Parser.ArgumentGroup)
  (cgs : list Parser.ArgumentGroup) (c : Parser.container)
  (args : list Argument.t) (gs : list Group.t).

(** The body of the inner loop of [to_argparse] and the body of the
    outer loop. *)
Local Abbreviation register_argument c :=
  (λ concrete_parser abstract_argument,
     kwargs ← map_qualifiers (Argument.configuration abstract_argument)
                ARGPARSE_QUALIFIER_MAP;
     Parser.add_argument concrete_parser c
       (Argument.aliases abstract_argument) kwargs).

Local Abbreviation register_group :=
  (λ concrete_parser abstract_group,
     let '(concrete_group, concrete_parser) :=
       Parser.add_argument_group concrete_parser
         (Group.name abstract_group) (Group.description abstract_group) in
     let '(concrete_group, concrete_parser) :=
       if Group.is_mutually_exclusive abstract_group
       then Parser.add_mutually_exclusive_group concrete_parser
              concrete_group false
       else (concrete_group, concrete_parser) in
     foldlM (register_argument concrete_group) concrete_parser
       (Group.arguments abstract_group)).

Lemma with_groups_id p : Parser.with_groups p (Parser.groups p) = p.
Proof. by destruct p. Qed.

Lemma with_groups_twice p cgs1 cgs2 :
  Parser.with_groups (Parser.with_groups p cgs1) cgs2
  = Parser.with_groups p cgs2.
Proof. done. Qed.

Lemma registered_snoc p cgs cg :
  Parser.registered (Parser.with_groups p (cgs ++ [cg]))
  = (a ← (g ← cgs; Parser.actions g); Parser.option_strings a)
      ++ (a ← Parser.actions cg; Parser.option_strings a).
Proof.
  unfold Parser.registered. simpl.
  by rewrite !bind_app, bind_singleton.
Qed.

Lemma option_strings_compiled args :
  (a ← compile_argument <$> args; Parser.option_strings a)
  = mjoin (Argument.aliases <$> args).
Proof.
  induction args as [|a args IH]; [done|].
  by rewrite !fmap_cons, bind_cons, IH.
Qed.

Lemma add_argument_last p cgs cg c aliases kwargs :
  Parser.groups p = cgs ++ [cg] → Parser.container_index c = length cgs →
  Parser.add_argument p c aliases kwargs
  = match list_find (λ alias, alias ∈ Parser.registered p) aliases with
    | Some (_, alias) => Raise (SpecificationError alias)
    | None =>
        Ok (Parser.with_groups p
              (cgs ++ [Parser.enter
                         {| Parser.option_strings := aliases;
                            Parser.kwargs := kwargs |} c cg]))
    end.
Proof.
  intros Hgroups Hc. unfold Parser.add_argument.
  destruct (list_find _ aliases) as [[? ?]|]; [done|].
  rewrite Hc, Hgroups.
  by rewrite alter_app_r_alt, Nat.sub_diag.
Qed.

Lemma enter_actions a c cg :
  Parser.actions (Parser.enter a c cg) = Parser.actions cg ++ [a].
Proof. done. Qed.

(** The inner loop on the last group of the parser. *)
Lemma register_arguments p cgs cg c args :
  Parser.groups p = cgs ++ [cg] → Parser.container_index c = length cgs →
  foldlM (register_argument c) p args
  = match first_collision (Parser.registered p) (Argument.aliases <$> args) with
    | Some alias => Raise (SpecificationError alias)
    | None =>
        Ok (Parser.with_groups p
              (cgs ++ [foldl (λ cg a, Parser.enter (compile_argument a) c cg)
                             cg args]))
    end.
Proof.
  intros Hgroups Hc. revert p cg Hgroups.
  induction args as [|a args IH]; intros p cg Hgroups; simpl.
  - by rewrite <- Hgroups, with_groups_id.
  - rewrite map_qualifiers_native. simpl.
    rewrite (add_argument_last p cgs cg c) by done.
    destruct (list_find _ (Argument.aliases a)) as [[? ?]|]; [done|]. simpl.
    rewrite (IH _ (Parser.enter (compile_argument a) c cg)) by done.
    rewrite registered_snoc, enter_actions, bind_app, bind_singleton, app_assoc.
    simpl. unfold Parser.registered at 1. rewrite Hgroups.
    by rewrite !bind_app, bind_singleton.
Qed.

Lemma enter_all_group i cg args :
  foldl (λ cg a, Parser.enter (compile_argument a) (Parser.InGroup i) cg) cg args
  = {| Parser.title := Parser.title cg;
       Parser.description := Parser.description cg;
       Parser.actions := Parser.actions cg ++ (compile_argument <$> args);
       Parser.mutex_groups := Parser.mutex_groups cg |}.
Proof.
  revert cg. induction args as [|a args IH]; intros cg; simpl.
  - rewrite app_nil_r. by destruct cg.
  - rewrite IH. simpl. by rewrite <- app_assoc.
Qed.

Lemma enter_all_mutex i cg m args :
  Parser.mutex_groups cg = [m] →
  foldl (λ cg a, Parser.enter (compile_argument a) (Parser.InMutex i 0) cg) cg args
  = {| Parser.title := Parser.title cg;
       Parser.description := Parser.description cg;
       Parser.actions := Parser.actions cg ++ (compile_argument <$> args);
       Parser.mutex_groups :=
         [ {| Parser.required := Parser.required m;
              Parser.group_actions :=
                Parser.group_actions m ++ (compile_argument <$> args) |} ] |}.
Proof.
  revert cg m. induction args as [|a args IH]; intros cg m Hm; simpl.
  - rewrite !app_nil_r. destruct cg, m. simpl in *. by subst.
  - erewrite IH; [|simpl; by rewrite Hm]. simpl. by rewrite <- !app_assoc.
Qed.

(** One turn of the outer loop. *)
Lemma register_group_eq p g :
  register_group p g
  = match first_collision (Parser.registered p)
            (Argument.aliases <$> Group.arguments g) with
    | Some alias => Raise (SpecificationError alias)
    | None =>
        Ok (Parser.with_groups p (Parser.groups p ++ [compile_group g]))
    end.
Proof.
  unfold Parser.add_argument_group.
  destruct (Group.is_mutually_exclusive g) eqn:Hmutex.
  - unfold Parser.add_mutually_exclusive_group. simpl.
    rewrite lookup_app_r, Nat.sub_diag by done. simpl.
    rewrite alter_app_r_alt, Nat.sub_diag by done. simpl.
    erewrite register_arguments; [|done..].
    rewrite registered_snoc. simpl. rewrite app_nil_r.
    fold (Parser.registered p).
    destruct (first_collision _ _); [done|]. f_equal.
    rewrite with_groups_twice. f_equal. f_equal.
    erewrite enter_all_mutex; [|done]. unfold compile_group.
    by rewrite Hmutex.
  - erewrite register_arguments; [|done..].
    rewrite registered_snoc. simpl. rewrite app_nil_r.
    fold (Parser.registered p).
    destruct (first_collision _ _); [done|]. f_equal.
    rewrite with_groups_twice. f_equal. f_equal.
    rewrite enter_all_group. unfold compile_group. by rewrite Hmutex.
Qed.

(** The outer loop. *)
Lemma register_groups p gs :
  foldlM register_group p gs
  = match first_collision (Parser.registered p)
            (Argument.aliases <$> (g ← gs; Group.arguments g)) with
    | Some alias => Raise (SpecificationError alias)
    | None =>
        Ok (Parser.with_groups p (Parser.groups p ++ (compile_group <$> gs)))
    end.
Proof.
  revert p. induction gs as [|g gs IH]; intros p.
  - simpl. by rewrite app_nil_r, with_groups_id.
  - cbn [foldlM]. rewrite register_group_eq.
    rewrite bind_cons, fmap_app, first_collision_app.
    destruct (first_collision _ (Argument.aliases <$> Group.arguments g));
      [done|].
    cbn [mbind raising_bind]. rewrite IH.
    rewrite registered_snoc. simpl. rewrite option_strings_compiled.
    fold (Parser.registered p).
    destruct (first_collision _ _); [done|].
    by rewrite with_groups_twice, <- app_assoc.
Qed.

(** [to_argparse] raises on the first alias that is taken already, and
    otherwise returns the parser whose groups are the compiled groups of
    the specification, in their order. *)
Lemma to_argparse_eq (spec : ParserSpec.t) :
  to_argparse spec
  = match first_collision [] (Argument.aliases <$> all_arguments spec) with
    | Some alias => Raise (SpecificationError alias)
    | None =>
        Ok {| Parser.prog := ParserSpec.program spec;
              Parser.parser_description := ParserSpec.description spec;
              Parser.epilog := ParserSpec.epilog spec;
              Parser.registries :=
                {[ ("action", "lazy_choices") := LazyChoices_class ]};
              Parser.groups := compile_group <$> ParserSpec.groups spec |}
    end.
Proof.
  unfold to_argparse. rewrite register_groups. unfold all_arguments.
  by destruct (first_collision _ _).
Qed.
End parser_construction.

(** ** Declaration order *)

Section declarations.
Implicit Types (spec : ParserSpec.t) (ds : list declaration) (g : Group.t).

Lemma extended_nil g : extended g [] = g.
Proof. unfold extended. rewrite app_nil_r. by destruct g. Qed.

Lemma declare_length_groups spec d :
  length (ParserSpec.groups (declare spec d))
  = match d with
    | NewGroup _ _ _ => S (length (ParserSpec.groups spec))
    | AddArgument _ _ _ => length (ParserSpec.groups spec)
    end.
Proof.
  destruct d; simpl.
  - rewrite length_app. simpl. lia.
  - by rewrite length_alter.
Qed.

(** The groups after a run of declarations: the groups that existed, each
    with the arguments declared for it, then the groups declared, each
    with its arguments. *)
Lemma declare_all_groups spec ds :
  ParserSpec.groups (foldl declare spec ds)
  = imap (λ k g,
            extended g
              (declared_arguments k (length (ParserSpec.groups spec)) ds))
         (ParserSpec.groups spec)
    ++ imap (λ j new,
               Group.Build_t new.1.1 new.1.2 new.2
                 (declared_arguments (length (ParserSpec.groups spec) + j)
                    (length (ParserSpec.groups spec)) ds))
            (declared_groups ds).
Proof.
  revert spec. induction ds as [|d ds IH]; intros spec.
  - simpl. rewrite app_nil_r. apply list_eq. intros k.
    rewrite list_lookup_imap. destruct (ParserSpec.groups spec !! k); [|done].
    simpl. by rewrite extended_nil.
  - cbn [foldl]. rewrite IH, declare_length_groups.
    destruct d as [name description mutex|group args kwargs].
    + cbn [declare ParserSpec.new_group snd ParserSpec.groups].
      cbn [declared_groups omap list_omap declared_arguments].
      rewrite imap_app, imap_cons, <- app_assoc. simpl.
      rewrite Nat.add_0_r. f_equal. f_equal.
      apply imap_ext. intros j new _. simpl.
      by replace (S (length (ParserSpec.groups spec) + j))
        with (length (ParserSpec.groups spec) + S j) by lia.
    + cbn [declare ParserSpec.add_argument ParserSpec.groups].
      cbn [declared_groups omap list_omap]. f_equal.
      * apply list_eq. intros k. rewrite !list_lookup_imap, list_lookup_alter.
        cbn [declared_arguments]. case_decide as Hgk.
        -- subst k.
           destruct (ParserSpec.groups spec !! group) as [g|] eqn:Hk; [|done].
           apply lookup_lt_Some in Hk as Hlt.
           rewrite bool_decide_eq_true_2 by done.
           unfold extended. simpl. by rewrite <- app_assoc.
        -- rewrite bool_decide_eq_false_2 by (intros [? _]; done).
           by destruct (ParserSpec.groups spec !! k).
      * apply imap_ext. intros j new _. cbn [declared_arguments].
        by rewrite bool_decide_eq_false_2 by lia.
Qed.

(** The declared specification holds the groups in the order of the
    [new_group] calls and, in each, the arguments in the order of the
    [add_argument] calls. *)
Lemma declared_in_order program description epilog ds :
  ParserSpec.groups (declared program description epilog ds)
  = imap (λ k new,
            Group.Build_t new.1.1 new.1.2 new.2 (declared_arguments k 0 ds))
         (declared_groups ds).
Proof. unfold declared. by rewrite declare_all_groups. Qed.
End declarations.

(** ** Order, mutual exclusion and collisions *)

Section compilers.
Context {resolvers : LazyChoicesImpl}.

Lemma Group_serialize_Ok (g : Group.t) (gd : gmap string value) :
  Group.serialize g = Ok gd
  ↔ ∃ adocs,
      Forall2 (λ a ad, Argument.serialize a = Ok ad) (Group.arguments g) adocs
      ∧ gd = {[ "name" := VStr (Group.name g);
                "description" := VStr (Group.description g);
                "is_mutually_exclusive" := VBool (Group.is_mutually_exclusive g);
                "args" := VList (VDict <$> adocs) ]}.
Proof.
  unfold Group.serialize. rewrite bind_Ok. f_equiv. intros adocs.
  rewrite mapM_Ok. split; [intros [? [= <-]] | intros [? ->]]; done.
Qed.

Lemma ParserSpec_serialize_Ok (spec : ParserSpec.t) (doc : gmap string value) :
  ParserSpec.serialize spec = Ok doc
  ↔ ∃ gdocs,
      Forall2 (λ g gd, Group.serialize g = Ok gd) (ParserSpec.groups spec) gdocs
      ∧ doc = {[ "name" := VStr (ParserSpec.program spec);
                 "description" := VStr (ParserSpec.description spec);
                 "groups" := VList (VDict <$> gdocs) ]}.
Proof.
  unfold ParserSpec.serialize. rewrite bind_Ok. f_equiv. intros gdocs.
  rewrite mapM_Ok. split; [intros [? [= <-]] | intros [? ->]]; done.
Qed.

Lemma Group_serialize_returns (g : Group.t) :
  returns (Group.serialize g)
  = returns (mapM Argument.serialize (Group.arguments g)).
Proof. unfold Group.serialize. by destruct (mapM _ _). Qed.

Lemma groups_serialize_returns (gs : list Group.t) :
  returns (mapM Group.serialize gs)
  = returns (mapM Argument.serialize (g ← gs; Group.arguments g)).
Proof.
  induction gs as [|g gs IH]; [done|].
  change (g0 ← g :: gs; Group.arguments g0)
    with (Group.arguments g ++ (g0 ← gs; Group.arguments g0)).
  rewrite mapM_app. simpl. pose proof (Group_serialize_returns g) as Hg.
  destruct (Group.serialize g), (mapM Argument.serialize (Group.arguments g));
    simpl in *; try done.
  by destruct (mapM Group.serialize gs),
       (mapM Argument.serialize (g0 ← gs; Group.arguments g0)).
Qed.

(** C4: the schema compiler returns a document exactly when every
    argument has an entry, and the document holds the groups in the
    order of the specification and, in each, the entries of its
    arguments in their order; a parser that the parser compiler returns
    holds the groups in that same order and, in each, the arguments in
    their order, each registered with its aliases and its mapped
    configuration; and the order of a declared specification is the
    order of the [new_group] and [add_argument] calls. *)
Theorem compilers_preserve_order (spec : ParserSpec.t) :
  (returns (ParserSpec.serialize spec) = true
   ↔ Forall (λ a, returns (Argument.serialize a) = true)
            (all_arguments spec))
  ∧ (∀ doc, ParserSpec.serialize spec = Ok doc →
     ∃ gdocs, doc !! "groups" = Some (VList (VDict <$> gdocs))
       ∧ Forall2
           (λ g gd,
              gd !! "name" = Some (VStr (Group.name g))
              ∧ ∃ adocs, gd !! "args" = Some (VList (VDict <$> adocs))
                  ∧ Forall2 (λ a ad, Argument.serialize a = Ok ad)
                            (Group.arguments g) adocs)
           (ParserSpec.groups spec) gdocs)
  ∧ (∀ p, to_argparse spec = Ok p →
       Forall2
         (λ g cg,
            Parser.title cg = Group.name g
            ∧ Forall2
                (λ a action,
                   Parser.option_strings action = Argument.aliases a
                   ∧ map_qualifiers (Argument.configuration a)
                       ARGPARSE_QUALIFIER_MAP
                     = Ok (Parser.kwargs action))
                (Group.arguments g) (Parser.actions cg))
         (ParserSpec.groups spec) (Parser.groups p))
  ∧ (∀ program description epilog ds,
       spec = declared program description epilog ds →
       ParserSpec.groups spec
       = imap (λ k new,
                 Group.Build_t new.1.1 new.1.2 new.2
                   (declared_arguments k 0 ds))
              (declared_groups ds)).
Proof.
  split_and!.
  - rewrite <- mapM_returns. unfold all_arguments.
    rewrite <- groups_serialize_returns. unfold ParserSpec.serialize.
    by destruct (mapM Group.serialize (ParserSpec.groups spec)).
  - intros doc (gdocs & Hg & ->)%ParserSpec_serialize_Ok.
    exists gdocs. split.
    { by rewrite !lookup_insert_ne, lookup_singleton_eq. }
    eapply Forall2_impl; [exact Hg|]. simpl.
    intros g gd (adocs & Ha & ->)%Group_serialize_Ok.
    split; [apply lookup_insert_eq|].
    exists adocs. by rewrite !lookup_insert_ne, lookup_singleton_eq.
  - intros p Hp. rewrite to_argparse_eq in Hp.
    destruct (first_collision _ _); [done|]. injection Hp as <-. simpl.
    apply Forall2_fmap_r, Forall_Forall2_diag, Forall_forall.
    intros g _. split; [done|]. simpl.
    apply Forall2_fmap_r, Forall_Forall2_diag, Forall_forall.
    intros a _. split; [done|]. apply map_qualifiers_native.
  - intros program description epilog ds ->. apply declared_in_order.
Qed.
End compilers.

Lemma supplied_compiled (supplies : Parser.invocation)
    (args : list Argument.t) :
  length (filter (λ member : nat * Parser.Action,
                    supplies member.1 member.2 = true)
                 (imap pair (compile_argument <$> args)))
  = length (filter (λ member : nat * Argument.t,
                      supplies member.1 (compile_argument member.2) = true)
                   (imap pair args)).
Proof.
  rewrite imap_fmap.
  change (imap (λ n, pair n ∘ compile_argument) args)
    with (imap (λ n a, (id n, compile_argument a)) args).
  change (imap pair args) with (imap (λ n a, (id n, a)) args).
  generalize (@id nat) as place.
  induction args as [|a args IH]; intros place; [done|].
  rewrite !imap_cons, !filter_cons. simpl.
  pose proof (IH (place ∘ S)) as IH'.
  destruct (decide (supplies (place 0) (compile_argument a) = true)); simpl;
    [f_equal|]; exact IH'.
Qed.

(** A list with two different elements. *)
Lemma length_two {A : Type} (l : list A) (x y : A) :
  x ∈ l → y ∈ l → x ≠ y → (2 ≤ length l)%nat.
Proof.
  destruct l as [|z [|z' l]]; simpl; [| |lia].
  - by intros ?%elem_of_nil.
  - intros ->%list_elem_of_singleton ->%list_elem_of_singleton. done.
Qed.

(** C7: a mutually exclusive group is compiled into an argument group
    with one nested mutual-exclusion group, created with
    [required=False], in which all arguments of the group are
    registered, in their order, each with its aliases and its mapped
    configuration, and no other argument is; that group admits an
    invocation exactly when the invocation supplies at most one of the
    arguments of the group, options and positional arguments alike: none
    or one is accepted, two together are rejected. *)
Theorem to_argparse_mutually_exclusive (spec : ParserSpec.t) p i g :
  to_argparse spec = Ok p →
  ParserSpec.groups spec !! i = Some g →
  Group.is_mutually_exclusive g = true →
  ∃ cg m,
    Parser.groups p !! i = Some cg
    ∧ Parser.mutex_groups cg = [m]
    ∧ Parser.required m = false
    ∧ Parser.group_actions m = Parser.actions cg
    ∧ Forall2
        (λ a action,
           Parser.option_strings action = Argument.aliases a
           ∧ map_qualifiers (Argument.configuration a) ARGPARSE_QUALIFIER_MAP
             = Ok (Parser.kwargs action))
        (Group.arguments g) (Parser.group_actions m)
    ∧ (∀ supplies : Parser.invocation,
         Parser.admits m supplies = true
         ↔ (length (supplied_arguments supplies g) ≤ 1)%nat)
    ∧ (∀ supplies : Parser.invocation,
         supplied_arguments supplies g = [] →
         Parser.admits m supplies = true)
    ∧ (∀ (supplies : Parser.invocation) member,
         supplied_arguments supplies g = [member] →
         Parser.admits m supplies = true)
    ∧ (∀ (supplies : Parser.invocation) j k a b,
         j ≠ k →
         Group.arguments g !! j = Some a → Group.arguments g !! k = Some b →
         supplies j (compile_argument a) = true →
         supplies k (compile_argument b) = true →
         Parser.admits m supplies = false).
Proof.
  intros Hp Hg Hmutex. rewrite to_argparse_eq in Hp.
  destruct (first_collision _ _); [done|]. injection Hp as <-. simpl.
  assert (∀ supplies : Parser.invocation,
            Parser.admits
              {| Parser.required := false;
                 Parser.group_actions :=
                   compile_argument <$> Group.arguments g |} supplies = true
            ↔ (length (supplied_arguments supplies g) ≤ 1)%nat) as Hadmits.
  { intros supplies. unfold Parser.admits, Parser.supplied. simpl.
    by rewrite andb_true_r, bool_decide_eq_true, supplied_compiled. }
  exists (compile_group g). eexists. split_and!.
  - by rewrite list_lookup_fmap, Hg.
  - unfold compile_group. simpl. by rewrite Hmutex.
  - done.
  - done.
  - simpl. apply Forall2_fmap_r, Forall_Forall2_diag, Forall_forall.
    intros a _. split; [done|]. apply map_qualifiers_native.
  - exact Hadmits.
  - intros supplies Hnone. apply Hadmits. rewrite Hnone. simpl. lia.
  - intros supplies member Hone. apply Hadmits. rewrite Hone. simpl. lia.
  - intros supplies j k a b Hjk Ha Hb Hsa Hsb.
    apply not_true_iff_false. rewrite Hadmits.
    enough (2 ≤ length (supplied_arguments supplies g))%nat by lia.
    apply (length_two _ (j, a) (k, b)); [| |congruence];
      apply list_elem_of_filter; (split; [done|]);
      apply elem_of_lookup_imap; eauto.
Qed.

(** C8: when two arguments of a specification, in the same group or not,
    share an alias, [to_argparse] raises [SpecificationError] and returns
    no parser; the error names an alias that two arguments share. *)
Theorem to_argparse_rejects_shared_alias (spec : ParserSpec.t) i j a b alias :
  i < j →
  all_arguments spec !! i = Some a →
  all_arguments spec !! j = Some b →
  alias ∈ Argument.aliases a → alias ∈ Argument.aliases b →
  ∃ taken,
    to_argparse spec = Raise (SpecificationError taken)
    ∧ ∃ i' j' a' b',
        i' < j'
        ∧ all_arguments spec !! i' = Some a'
        ∧ all_arguments spec !! j' = Some b'
        ∧ taken ∈ Argument.aliases a' ∧ taken ∈ Argument.aliases b'.
Proof.
  intros Hij Hi Hj Ha Hb. rewrite to_argparse_eq.
  destruct (first_collision_shared [] (Argument.aliases <$> all_arguments spec)
              i j (Argument.aliases a) (Argument.aliases b) alias)
    as [taken Htaken]; [done | | | done..|].
  { by rewrite list_lookup_fmap, Hi. }
  { by rewrite list_lookup_fmap, Hj. }
  rewrite Htaken. exists taken. split; [done|].
  apply first_collision_Some in Htaken
    as (j' & names2 & Hj' & H2 & [Ht|(i' & names1 & Hij' & Hi' & H1)]).
  { by apply elem_of_nil in Ht. }
  rewrite list_lookup_fmap in Hi', Hj'.
  destruct (all_arguments spec !! i') as [a'|] eqn:Ha'; [|done].
  destruct (all_arguments spec !! j') as [b'|] eqn:Hb'; [|done].
  injection Hi' as <-. injection Hj' as <-.
  by exists i', j', a', b'.
Qed.

(** A specification whose arguments share no alias compiles. *)
Lemma to_argparse_Ok (spec : ParserSpec.t) :
  (∀ i j a b alias,
     i < j → all_arguments spec !! i = Some a →
     all_arguments spec !! j = Some b →
     alias ∈ Argument.aliases a → alias ∉ Argument.aliases b) →
  ∃ p, to_argparse spec = Ok p.
Proof.
  intros Hshare. rewrite to_argparse_eq.
  rewrite first_collision_free; [by eexists | |].
  - intros names alias _ _ Hnil. by apply elem_of_nil in Hnil.
  - intros i j names1 names2 alias Hij Hi Hj.
    rewrite list_lookup_fmap in Hi, Hj.
    destruct (all_arguments spec !! i) as [a|] eqn:Ha; [|done].
    destruct (all_arguments spec !! j) as [b|] eqn:Hb; [|done].
    injection Hi as <-. injection Hj as <-. by eapply Hshare.
Qed.

(** ** The claims on the sample declarations *)

(** A field of the dictionary that a computation returns. *)
Lemma returned_lookup (m : raising (gmap string value))
    (r : gmap string value) (k : string) :
  m = Ok r →
  r !! k = match m with Ok r' => r' !! k | Raise _ => None end.
Proof. by intros ->. Qed.

Section samples.
Import Examples.

Lemma serialize_expands_qualifier_witness :
  ∃ r, Argument.serialize (resolvers := unavailable) request_items = Ok r
    ∧ r !! "is_optional" = Some (VBool true)
    ∧ r !! "is_variadic" = Some (VBool true).
Proof.
  destruct (proj1 (returns_true
                     (Argument.serialize (resolvers := unavailable)
                        request_items))) as [r Hr];
    [vm_compute; reflexivity|].
  exists r. split; [exact Hr|].
  apply (serialize_expands_qualifier (resolvers := unavailable)
           request_items r Hr).
  reflexivity.
Defined.

Lemma map_qualifiers_spec_witness :
  (∃ mapped,
     map_qualifiers (Argument.configuration request_items)
       ARGPARSE_QUALIFIER_MAP = Ok mapped
     ∧ mapped !! "nargs" = Some (VStr "*")
     ∧ mapped !! "metavar" = Some (VStr "REQUEST_ITEM"))
  ∧ (∃ key q,
       Argument.configuration request_items !! key = Some (VQual q)
       ∧ map_qualifiers (Argument.configuration request_items)
           {[ OPTIONAL := VStr "?" ]} = Raise (KeyError (VQual q))).
Proof.
  split.
  - destruct (map_qualifiers_spec ARGPARSE_QUALIFIER_MAP
                (Argument.configuration request_items))
      as (Hmapped & Hreturns & _).
    destruct Hreturns as [mapped Hm].
    { intros key q _. apply ARGPARSE_QUALIFIER_MAP_total. }
    exists mapped. split; [exact Hm|].
    destruct (Hmapped mapped Hm) as (_ & Hqual & Hother). split.
    + destruct (Hqual "nargs" ZERO_OR_MORE) as (target & Ht & Hn);
        [reflexivity|].
      rewrite Hn, <- Ht. reflexivity.
    + apply Hother; reflexivity.
  - destruct (map_qualifiers_spec {[ OPTIONAL := VStr "?" ]}
                (Argument.configuration request_items))
      as (_ & _ & Hraises).
    destruct (Hraises "nargs" ZERO_OR_MORE) as (key & q & Hkey & _ & Hr);
      [reflexivity..|].
    exists key, q. split; [exact Hkey | exact Hr].
Defined.

Lemma serialize_resolves_lazy_choices_witness :
  ∃ r, Argument.serialize (resolvers := styles) style = Ok r
    ∧ r !! "choices" = Some (VList [VStr "auto"; VStr "fruity"; VStr "pie"])
    ∧ r !! "description" = Some (VStr "Output coloring style.").
Proof.
  destruct (proj1 (returns_true
                     (Argument.serialize (resolvers := styles) style)))
    as [r Hr]; [vm_compute; reflexivity|].
  exists r. split; [exact Hr|].
  destruct (serialize_resolves_lazy_choices (resolvers := styles) style)
    as (Hout & _); [reflexivity|].
  destruct (Hout r Hr) as (choices & loaded & Hc & Hl & Hchoices & Hdesc & _).
  injection Hc as <-. injection Hl as <-. split; [exact Hchoices|].
  exact (Hdesc _ eq_refl).
Defined.

Lemma compilers_preserve_order_witness :
  ParserSpec.groups options = [positional; sessions]
  ∧ (∃ doc gd1 gd2 e1 e2 e3 e4 e5,
       ParserSpec.serialize (resolvers := unavailable) options = Ok doc
       ∧ doc !! "groups" = Some (VList [VDict gd1; VDict gd2])
       ∧ gd1 !! "name" = Some (VStr "Positional arguments")
       ∧ gd1 !! "args" = Some (VList [VDict e1; VDict e2; VDict e3])
       ∧ e1 !! "options" = Some (VStr "METHOD")
       ∧ e2 !! "options" = Some (VStr "URL")
       ∧ e3 !! "options" = Some (VStr "REQUEST_ITEM")
       ∧ gd2 !! "name" = Some (VStr "Sessions")
       ∧ gd2 !! "args" = Some (VList [VDict e4; VDict e5])
       ∧ e4 !! "options" = Some (VList [VStr "--session"])
       ∧ e5 !! "options" = Some (VList [VStr "--session-read-only"]))
  ∧ (∃ p cg1 cg2 a1 a2 a3 a4 a5,
       to_argparse options = Ok p
       ∧ Parser.groups p = [cg1; cg2]
       ∧ Parser.title cg1 = "Positional arguments"
       ∧ Parser.actions cg1 = [a1; a2; a3]
       ∧ Parser.kwargs a1 !! "metavar" = Some (VStr "METHOD")
       ∧ Parser.kwargs a1 !! "nargs" = Some (VStr "?")
       ∧ Parser.kwargs a2 !! "metavar" = Some (VStr "URL")
       ∧ Parser.kwargs a3 !! "metavar" = Some (VStr "REQUEST_ITEM")
       ∧ Parser.kwargs a3 !! "nargs" = Some (VStr "*")
       ∧ Parser.title cg2 = "Sessions"
       ∧ Parser.actions cg2 = [a4; a5]
       ∧ Parser.option_strings a4 = ["--session"]
       ∧ Parser.option_strings a5 = ["--session-read-only"]).
Proof.
  destruct (compilers_preserve_order (resolvers := unavailable) options)
    as (Hreturns & Hschema & Hparser & Hdeclared).
  assert (ParserSpec.groups options = [positional; sessions]) as Hgroups.
  { rewrite (Hdeclared _ _ _ declarations eq_refl). reflexivity. }
  split; [exact Hgroups|]. split.
  - destruct (proj1 (returns_true
                       (ParserSpec.serialize (resolvers := unavailable)
                          options))) as [doc Hdoc].
    { apply Hreturns. unfold all_arguments. rewrite Hgroups.
      change (Forall (λ a, returns (Argument.serialize (resolvers := unavailable) a)
                           = true)
                [method; url; request_items; session; session_read_only]).
      repeat (apply Forall_cons; split; [vm_compute; reflexivity|]).
      apply Forall_nil_2. }
    destruct (Hschema doc Hdoc) as (gdocs & Hgd & Hall).
    rewrite Hgroups in Hall. clear -Hdoc Hgd Hall.
    apply Forall2_cons_inv_l in Hall
      as (gd1 & gdocs1 & [Hn1 (adocs1 & Ha1 & He1)] & Hall & ->).
    apply Forall2_cons_inv_l in Hall
      as (gd2 & gdocs2 & [Hn2 (adocs2 & Ha2 & He2)] & Hall & ->).
    apply Forall2_nil_inv_l in Hall as ->.
    change (Group.arguments positional)
      with [method; url; request_items] in He1.
    change (Group.arguments sessions) with [session; session_read_only] in He2.
    apply Forall2_cons_inv_l in He1 as (e1 & adocs & H1 & He1 & ->).
    apply Forall2_cons_inv_l in He1 as (e2 & adocs' & H2 & He1 & ->).
    apply Forall2_cons_inv_l in He1 as (e3 & adocs'' & H3 & He1 & ->).
    apply Forall2_nil_inv_l in He1 as ->.
    apply Forall2_cons_inv_l in He2 as (e4 & adocs & H4 & He2 & ->).
    apply Forall2_cons_inv_l in He2 as (e5 & adocs' & H5 & He2 & ->).
    apply Forall2_nil_inv_l in He2 as ->.
    exists doc, gd1, gd2, e1, e2, e3, e4, e5.
    split; [exact Hdoc|]. split; [exact Hgd|]. split; [exact Hn1|].
    split; [exact Ha1|].
    split; [rewrite (returned_lookup _ e1 "options" H1); vm_compute; reflexivity|].
    split; [rewrite (returned_lookup _ e2 "options" H2); vm_compute; reflexivity|].
    split; [rewrite (returned_lookup _ e3 "options" H3); vm_compute; reflexivity|].
    split; [exact Hn2|]. split; [exact Ha2|].
    split; [rewrite (returned_lookup _ e4 "options" H4); vm_compute; reflexivity|].
    rewrite (returned_lookup _ e5 "options" H5); vm_compute; reflexivity.
  - destruct (proj1 (returns_true (to_argparse options))) as [p Hp];
      [vm_compute; reflexivity|].
    specialize (Hparser p Hp). rewrite Hgroups in Hparser.
    clear -Hp Hparser.
    apply Forall2_cons_inv_l in Hparser
      as (cg1 & cgs1 & [Ht1 Hc1] & Hparser & Hcgs).
    apply Forall2_cons_inv_l in Hparser
      as (cg2 & cgs2 & [Ht2 Hc2] & Hparser & ->).
    apply Forall2_nil_inv_l in Hparser as ->.
    change (Group.arguments positional)
      with [method; url; request_items] in Hc1.
    change (Group.arguments sessions) with [session; session_read_only] in Hc2.
    apply Forall2_cons_inv_l in Hc1 as (a1 & l1 & [_ H1] & Hc1 & Hl1).
    apply Forall2_cons_inv_l in Hc1 as (a2 & l2 & [_ H2] & Hc1 & ->).
    apply Forall2_cons_inv_l in Hc1 as (a3 & l3 & [_ H3] & Hc1 & ->).
    apply Forall2_nil_inv_l in Hc1 as ->.
    apply Forall2_cons_inv_l in Hc2 as (a4 & l4 & [H4 _] & Hc2 & Hl4).
    apply Forall2_cons_inv_l in Hc2 as (a5 & l5 & [H5 _] & Hc2 & ->).
    apply Forall2_nil_inv_l in Hc2 as ->.
    exists p, cg1, cg2, a1, a2, a3, a4, a5.
    split; [exact Hp|]. split; [exact Hcgs|]. split; [exact Ht1|].
    split; [exact Hl1|].
    split; [rewrite (returned_lookup _ _ "metavar" H1); vm_compute; reflexivity|].
    split; [rewrite (returned_lookup _ _ "nargs" H1); vm_compute; reflexivity|].
    split; [rewrite (returned_lookup _ _ "metavar" H2); vm_compute; reflexivity|].
    split; [rewrite (returned_lookup _ _ "metavar" H3); vm_compute; reflexivity|].
    split; [rewrite (returned_lookup _ _ "nargs" H3); vm_compute; reflexivity|].
    split; [exact Ht2|]. split; [exact Hl4|].
    split; [exact H4 | exact H5].
Defined.

Lemma serialize_description_witness :
  ∃ r, Argument.serialize (resolvers := unavailable) url = Ok r
    ∧ r !! "description" = Some (VStr "Line one.").
Proof.
  destruct (proj1 (returns_true
                     (Argument.serialize (resolvers := unavailable) url)))
    as [r Hr]; [vm_compute; reflexivity|].
  exists r. split; [exact Hr|].
  destruct (serialize_description (resolvers := unavailable) url r Hr)
    as (help_msg & _ & Hstatic & Hiff & Hline & _).
  rewrite Hstatic in Hiff, Hline by (unfold Argument.lazily_resolved; discriminate).
  destruct (proj2 Hiff) as [d Hd]; [split; [reflexivity | discriminate]|].
  destruct (Hline d Hd) as (s & Hs & _ & ->). injection Hs as <-. exact Hd.
Defined.

Lemma serialize_description_counterexample :
  ∃ r, Argument.serialize (resolvers := unavailable) quiet = Ok r
    ∧ Argument.configuration quiet !! "help" = Some (VStr "")
    ∧ VStr "" ≠ VQual SUPPRESS
    ∧ r !! "description" = None.
Proof.
  destruct (proj1 (returns_true
                     (Argument.serialize (resolvers := unavailable) quiet)))
    as [r Hr]; [vm_compute; reflexivity|].
  exists r. split; [exact Hr|]. split; [reflexivity|].
  split; [discriminate|].
  destruct (serialize_lookup_description (resolvers := unavailable) quiet r Hr)
    as (cfg & Hcfg & [[_ Hnone]|(Hguard & _)]); [exact Hnone|].
  rewrite unpack_choices_static in Hcfg
    by (unfold Argument.lazily_resolved; discriminate).
  injection Hcfg as <-. rewrite lookup_delete_ne in Hguard by discriminate.
  discriminate Hguard.
Qed.

Lemma serialize_options_witness :
  (∃ r, Argument.serialize (resolvers := unavailable) session = Ok r
     ∧ r !! "options" = Some (VList [VStr "--session"])
     ∧ r !! "is_positional" = None)
  ∧ (∃ r, Argument.serialize (resolvers := unavailable) url = Ok r
       ∧ r !! "options" = Some (VStr "URL")
       ∧ r !! "is_positional" = Some (VBool true)).
Proof.
  split.
  - destruct (proj1 (returns_true
                       (Argument.serialize (resolvers := unavailable)
                          session))) as [r Hr];
      [vm_compute; reflexivity|].
    exists r. split; [exact Hr|].
    apply (serialize_options (resolvers := unavailable) session r Hr).
    discriminate.
  - destruct (proj1 (returns_true
                       (Argument.serialize (resolvers := unavailable) url)))
      as [r Hr]; [vm_compute; reflexivity|].
    exists r. split; [exact Hr|].
    destruct (serialize_options (resolvers := unavailable) url r Hr)
      as (_ & Hpositional).
    destruct Hpositional as (metavar & Hm & Ho & Hp); [reflexivity|].
    injection Hm as <-. split; [exact Ho | exact Hp].
Defined.

Lemma to_argparse_mutually_exclusive_witness :
  (∃ p cg m,
     to_argparse options = Ok p
     ∧ Parser.groups p !! 1 = Some cg
     ∧ Parser.mutex_groups cg = [m]
     ∧ Parser.required m = false
     ∧ Parser.admits m (naming []) = true
     ∧ Parser.admits m (naming ["--session"]) = true
     ∧ Parser.admits m (naming ["--session-read-only"]) = true
     ∧ Parser.admits m (naming ["--session"; "--session-read-only"]) = false)
  ∧ (∃ p cg m,
       to_argparse reading = Ok p
       ∧ Parser.groups p !! 0 = Some cg
       ∧ Parser.mutex_groups cg = [m]
       ∧ Parser.required m = false
       ∧ Parser.admits m (naming []) = true
       ∧ Parser.admits m (naming ["--stdin"]) = true
       ∧ Parser.admits m (with_values (naming [])) = true
       ∧ Parser.admits m (with_values (naming ["--stdin"])) = false).
Proof.
  split.
  - destruct (proj1 (returns_true (to_argparse options))) as [p Hp];
      [vm_compute; reflexivity|].
    assert (ParserSpec.groups options !! 1 = Some sessions) as Hsessions.
    { unfold options. rewrite declared_in_order. reflexivity. }
    destruct (to_argparse_mutually_exclusive options p 1 sessions Hp Hsessions)
      as (cg & m & Hcg & Hm & Hrequired & _ & _ & _ & Hnone & Hone & Htwo);
      [reflexivity|].
    exists p, cg, m.
    split; [exact Hp|]. split; [exact Hcg|]. split; [exact Hm|].
    split; [exact Hrequired|]. split_and!.
    + apply Hnone. vm_compute. reflexivity.
    + apply (Hone _ (0, session)). vm_compute. reflexivity.
    + apply (Hone _ (1, session_read_only)). vm_compute. reflexivity.
    + apply (Htwo _ 0 1 session session_read_only);
        [lia | reflexivity | reflexivity | vm_compute; reflexivity
        | vm_compute; reflexivity].
  - destruct (proj1 (returns_true (to_argparse reading))) as [p Hp];
      [vm_compute; reflexivity|].
    destruct (to_argparse_mutually_exclusive reading p 0 input Hp eq_refl)
      as (cg & m & Hcg & Hm & Hrequired & _ & _ & _ & Hnone & Hone & Htwo);
      [reflexivity|].
    exists p, cg, m.
    split; [exact Hp|]. split; [exact Hcg|]. split; [exact Hm|].
    split; [exact Hrequired|]. split_and!.
    + apply Hnone. vm_compute. reflexivity.
    + apply (Hone _ (1, stdin)). vm_compute. reflexivity.
    + apply (Hone _ (0, file)). vm_compute. reflexivity.
    + apply (Htwo _ 0 1 file stdin);
        [lia | reflexivity | reflexivity | vm_compute; reflexivity
        | vm_compute; reflexivity].
Defined.

Lemma to_argparse_rejects_shared_alias_witness :
  ∃ taken, to_argparse colliding = Raise (SpecificationError taken).
Proof.
  destruct (lookup_lt_is_Some_2 (all_arguments colliding) 3) as [a Ha];
    [vm_compute; lia|].
  destruct (lookup_lt_is_Some_2 (all_arguments colliding) 4) as [b Hb];
    [vm_compute; lia|].
  assert ((Argument.aliases <$> all_arguments colliding) !! 3
          = Some ["-S"; "--session"]) as Ha' by (vm_compute; reflexivity).
  assert ((Argument.aliases <$> all_arguments colliding) !! 4
          = Some ["--session"]) as Hb' by (vm_compute; reflexivity).
  rewrite list_lookup_fmap, Ha in Ha'. injection Ha' as Ha'.
  rewrite list_lookup_fmap, Hb in Hb'. injection Hb' as Hb'.
  destruct (to_argparse_rejects_shared_alias colliding 3 4 a b "--session")
    as (taken & Hraise & _); [lia | exact Ha | exact Hb | |  |].
  - rewrite Ha'. apply list_elem_of_further, list_elem_of_here.
  - rewrite Hb'. apply list_elem_of_here.
  - exists taken. exact Hraise.
Defined.

Lemma serialize_no_null_witness :
  (∃ r, Argument.serialize (resolvers := unavailable) method = Ok r
     ∧ r !! "metavar" = Some (VStr "METHOD")
     ∧ r !! "options" = Some (VStr "METHOD")
     ∧ r !! "choices" = None
     ∧ ∀ k, r !! k ≠ Some VNone)
  ∧ (∃ r, Argument.serialize (resolvers := styles) style = Ok r
       ∧ r !! "metavar" = Some (VStr "STYLE")
       ∧ r !! "options" = Some (VList [VStr "--style"; VStr "-s"])
       ∧ r !! "choices" = Some (VList [VStr "auto"; VStr "fruity"; VStr "pie"])
       ∧ ∀ k, r !! k ≠ Some VNone).
Proof.
  split.
  - destruct (proj1 (returns_true
                       (Argument.serialize (resolvers := unavailable) method)))
      as [r Hr]; [vm_compute; reflexivity|].
    exists r. split; [exact Hr|].
    destruct (serialize_no_null (resolvers := unavailable) method r Hr)
      as (_ & Hall & Hmetavar & _ & Hoptions & Hchoices & _).
    split; [exact Hmetavar|]. split; [exact (Hoptions eq_refl)|].
    split; [apply Hchoices; unfold Argument.lazily_resolved; discriminate|].
    apply Hall; discriminate.
  - destruct (proj1 (returns_true
                       (Argument.serialize (resolvers := styles) style)))
      as [r Hr]; [vm_compute; reflexivity|].
    exists r. split; [exact Hr|].
    destruct (serialize_no_null (resolvers := styles) style r Hr)
      as (_ & Hall & Hmetavar & Hoptions & _ & _ & Hlazy & _).
    split; [exact Hmetavar|].
    split; [apply Hoptions; discriminate|].
    split; [|apply Hall; discriminate].
    destruct Hlazy as (choices & loaded & Hc & Hl & Hchoices); [reflexivity|].
    injection Hc as <-. injection Hl as <-. exact Hchoices.
Defined.

Lemma serialize_no_null_counterexample :
  ∃ r, Argument.serialize (resolvers := unavailable) offline = Ok r
    ∧ Argument.configuration offline !! "metavar" = Some VNone
    ∧ r !! "metavar" = Some VNone.
Proof.
  destruct (proj1 (returns_true
                     (Argument.serialize (resolvers := unavailable) offline)))
    as [r Hr]; [vm_compute; reflexivity|].
  exists r. split; [exact Hr|]. split; [reflexivity|].
  pose proof Hr as (cfg & opts & quals & described & Hcfg & _ & _ & _ & ->)%serialize_Ok.
  rewrite unpack_choices_static in Hcfg
    by (unfold Argument.lazily_resolved; discriminate).
  injection Hcfg as <-.
  rewrite lookup_union, mirror_lookup.
  rewrite bool_decide_eq_true_2
    by apply list_elem_of_further, list_elem_of_here.
  rewrite lookup_delete_ne by discriminate.
  apply union_Some_l.
Qed.

Lemma serialize_needs_qualifier_witness :
  Argument.serialize (resolvers := unavailable) raw
  = Raise (KeyError (VStr "?")).
Proof.
  destruct (serialize_needs_qualifier (resolvers := unavailable) raw (VStr "?"))
    as (_ & e & _ & He & Hreach); [reflexivity..|].
  rewrite <- (He eq_refl).
  apply (Hreach (delete "action" (Argument.configuration raw))
                {[ "options" := VList (VStr <$> Argument.aliases raw) ]}).
  - apply unpack_choices_static. unfold Argument.lazily_resolved. discriminate.
  - apply options_of_Ok. left. split; [discriminate | reflexivity].
Defined.
End samples.

(** * Further properties of the schema compiler *)

Section schema_fields.
Context {resolvers : LazyChoicesImpl}.
Implicit Types (self : Argument.t) (cfg r m : gmap string value) (k : string).

(** The fields that the qualifier table, the options step and the
    description step can set. *)
Lemma described_lookup_None self cfg opts quals described k :
  Argument.options_of self cfg = Ok opts →
  Py.getitem_qualifier JSON_QUALIFIER_TO_OPTIONS
    (default (VQual SUPPRESS) (cfg !! "nargs")) = Ok quals →
  Argument.describe cfg (quals ∪ opts) = Ok described →
  k ∉ ["description"; "is_optional"; "is_variadic"; "is_positional"; "options"] →
  described !! k = None.
Proof.
  intros Hopts Hq Hd Hk.
  destruct (described !! k) as [v|] eqn:Hv; [|done].
  destruct Hk.
  destruct (described_lookup_cases self cfg opts quals described k v Hopts Hq Hd Hv)
    as [[-> _]|[[[-> | ->] _]|[[-> _]|[-> _]]]];
    repeat (apply list_elem_of_here || apply list_elem_of_further).
Qed.

(** X1: the type name of the schema: absent without a converter, the
    converter's own name when it has one, the name of its class
    otherwise. *)
Theorem serialize_type_name self r :
  Argument.serialize self = Ok r →
  r !! "python_type_name"
  = match Argument.configuration self !! "type" with
    | None | Some VNone => None
    | Some (VObj (Some name) _) => Some (VStr name)
    | Some v => Some (VStr (Py.class_name v))
    end.
Proof.
  intros (cfg & opts & quals & described & Hcfg & Hopts & Hq & Hd & ->)%serialize_Ok.
  rewrite lookup_union, mirror_lookup, bool_decide_eq_false_2
    by (by apply not_mirrored).
  rewrite (left_id_L None _).
  rewrite <- (unpack_choices_lookup self cfg "type" Hcfg) by done.
  unfold Argument.name_type.
  assert (described !! "python_type_name" = None) as Hnone.
  { eapply described_lookup_None; [done..|].
    intros Hin. repeat (apply elem_of_cons in Hin as [?|Hin]; [done|]).
    by apply elem_of_nil in Hin. }
  destruct (cfg !! "type") as [[| | | | | | |[name|] cls]|]; simpl;
    by rewrite ?lookup_insert_eq.
Qed.

(** X2: the schema entry always has [options], and it has no key besides the
    eight of the schema: nothing else of the configuration is copied. *)
Theorem serialize_keys self r :
  Argument.serialize self = Ok r →
  is_Some (r !! "options")
  ∧ ∀ k, is_Some (r !! k) →
      k ∈ ["options"; "is_positional"; "is_optional"; "is_variadic";
           "description"; "python_type_name"; "choices"; "metavar"].
Proof.
  intros Hr. split.
  - destruct (serialize_lookup_flag self r "options" Hr)
      as (cfg & opts & quals & Hcfg & Hopts & Hq & ->); [by apply not_mirrored|done..|].
    apply getitem_qualifier_Ok in Hq as (q & _ & Hq).
    rewrite lookup_union, (qualifier_fields_lookup q quals _ Hq).
    rewrite !bool_decide_eq_false_2 by done. rewrite (left_id_L None _).
    apply options_of_Ok in Hopts as [[_ ->]|(_ & metavar & _ & ->)].
    + by rewrite lookup_singleton_eq.
    + by rewrite lookup_insert_ne, lookup_singleton_eq.
  - intros k [v Hv].
    destruct (serialize_lookup_cases self r k v Hr Hv) as (cfg & _ & Hc).
    destruct Hc as [[Hm _]|[[-> _]|[[-> _]|[[[-> | ->] _]|[[-> _]|[-> _]]]]]];
      try key_in.
    unfold JSON_DIRECT_MIRROR_OPTIONS in Hm.
    apply elem_of_cons in Hm as [->|Hm];
      [|apply elem_of_cons in Hm as [->|Hm]; [|by apply elem_of_nil in Hm]];
      key_in.
Qed.

(** X3: [metavar] is copied from the configuration as it is, and so is
    [choices] unless the choices are resolved lazily. *)
Theorem serialize_mirrors self r :
  Argument.serialize self = Ok r →
  r !! "metavar" = Argument.configuration self !! "metavar"
  ∧ (¬ Argument.lazily_resolved self →
     r !! "choices" = Argument.configuration self !! "choices").
Proof.
  intros (cfg & opts & quals & described & Hcfg & Hopts & Hq & Hd & ->)%serialize_Ok.
  assert (∀ k, k ∈ JSON_DIRECT_MIRROR_OPTIONS →
            (filter (λ item, item.1 ∈ JSON_DIRECT_MIRROR_OPTIONS) cfg
               ∪ Argument.name_type cfg described) !! k = cfg !! k) as Hmirror.
  { intros k Hk. rewrite lookup_union, mirror_lookup, bool_decide_eq_true_2 by done.
    destruct (cfg !! k) as [v|]; [by rewrite union_Some_l|].
    rewrite (left_id_L None _), name_type_lookup.
    - eapply described_lookup_None; [done..|].
      intros Hin. unfold JSON_DIRECT_MIRROR_OPTIONS in Hk.
      repeat (apply elem_of_cons in Hk as [->|Hk];
              [repeat (apply elem_of_cons in Hin as [?|Hin]; [done|]);
               by apply elem_of_nil in Hin|]).
      by apply elem_of_nil in Hk.
    - intros ->. unfold JSON_DIRECT_MIRROR_OPTIONS in Hk.
      repeat (apply elem_of_cons in Hk as [?|Hk]; [done|]).
      by apply elem_of_nil in Hk. }
  split.
  - rewrite Hmirror by apply list_elem_of_further, list_elem_of_here.
    by apply (unpack_choices_lookup self cfg "metavar").
  - intros Hstatic. rewrite Hmirror by apply list_elem_of_here.
    rewrite (unpack_choices_static self Hstatic) in Hcfg. injection Hcfg as <-.
    by rewrite lookup_delete_ne.
Qed.

(** X4: a flag of the schema is present only as [true], and [is_variadic]
    never comes without [is_optional]. *)
Theorem serialize_flags self r :
  Argument.serialize self = Ok r →
  (∀ k v, k ∈ ["is_positional"; "is_optional"; "is_variadic"] →
     r !! k = Some v → v = VBool true)
  ∧ (is_Some (r !! "is_variadic") → r !! "is_optional" = Some (VBool true)).
Proof.
  intros Hr. split.
  - intros k v Hk Hv.
    destruct (serialize_lookup_cases self r k v Hr Hv) as (cfg & _ & Hc).
    destruct Hc as [[Hm _]|[[-> _]|[[-> _]|[[_ ->]|[[_ ->]|[-> _]]]]]];
      try done;
      try (repeat (apply elem_of_cons in Hk as [?|Hk]; [done|]);
           by apply elem_of_nil in Hk).
    unfold JSON_DIRECT_MIRROR_OPTIONS in Hm.
    repeat (apply elem_of_cons in Hk as [->|Hk];
            [repeat (apply elem_of_cons in Hm as [?|Hm]; [done|]);
             by apply elem_of_nil in Hm|]).
    by apply elem_of_nil in Hk.
  - destruct (serialize_lookup_flag self r "is_variadic" Hr)
      as (cfg & opts & quals & Hcfg & Hopts & Hq & ->); [by apply not_mirrored|done..|].
    destruct (serialize_lookup_flag self r "is_optional" Hr)
      as (cfg' & opts' & quals' & Hcfg' & Hopts' & Hq' & ->);
      [by apply not_mirrored|done..|].
    rewrite Hcfg in Hcfg'. injection Hcfg' as <-.
    rewrite Hopts in Hopts'. injection Hopts' as <-.
    rewrite Hq in Hq'. injection Hq' as <-.
    apply getitem_qualifier_Ok in Hq as (q & _ & Hq).
    rewrite !lookup_union, !(qualifier_fields_lookup q quals _ Hq).
    rewrite !(options_of_lookup_flag self cfg opts _ Hopts) by done.
    destruct q; simpl; by intros [? ?].
Qed.

End schema_fields.

(** ** Errors and irrelevant keys *)

(** White space only strips to nothing. *)
Lemma strip_blank (s : string) :
  Forall (λ c, Py.isspace c = true) (list_ascii_of_string s) →
  Py.strip s = EmptyString.
Proof.
  unfold Py.strip. induction s as [|c s IH]; simpl; [done|].
  intros [Hc Hs]%Forall_cons. rewrite Hc. by apply IH.
Qed.

Section schema_errors.
Context {resolvers : LazyChoicesImpl}.
Implicit Types (self : Argument.t) (cfg r m : gmap string value) (k : string).

Lemma unpack_choices_Raise self e :
  Argument.unpack_choices self = Raise e → Argument.lazily_resolved self.
Proof.
  intros He. destruct (decide (Argument.lazily_resolved self)) as [|Hstatic]; [done|].
  by rewrite (unpack_choices_static self Hstatic) in He.
Qed.

(** The steps of [serialize] that follow the resolution of the choices. *)
Lemma serialize_unpacked self cfg :
  Argument.unpack_choices self = Ok cfg →
  Argument.serialize self
  = (result ← Argument.options_of self cfg;
     qualifiers ← Py.getitem_qualifier JSON_QUALIFIER_TO_OPTIONS
                    (default (VQual SUPPRESS) (cfg !! "nargs"));
     result ← Argument.describe cfg (qualifiers ∪ result);
     Ok (filter (λ item, item.1 ∈ JSON_DIRECT_MIRROR_OPTIONS) cfg
           ∪ Argument.name_type cfg result)).
Proof. intros Hcfg. unfold Argument.serialize. by rewrite Hcfg. Qed.

(** X5: an argument without aliases and without [metavar] has no schema
    entry: [serialize] raises [KeyError] for [metavar], unless the
    resolution of lazy choices has failed before. *)
Theorem serialize_positional_needs_metavar self :
  Argument.aliases self = [] →
  Argument.configuration self !! "metavar" = None →
  Argument.serialize self = Raise (KeyError (VStr "metavar"))
  ∨ (Argument.lazily_resolved self
     ∧ ∃ e, Argument.unpack_choices self = Raise e
         ∧ Argument.serialize self = Raise e).
Proof.
  intros Ha Hm.
  destruct (Argument.unpack_choices self) as [cfg|e] eqn:Hcfg.
  - left. rewrite (serialize_unpacked self cfg Hcfg).
    unfold Argument.options_of, Py.getitem.
    rewrite bool_decide_eq_false_2 by (by intros []).
    by rewrite (unpack_choices_lookup self cfg "metavar" Hcfg), Hm.
  - right. split; [by eapply unpack_choices_Raise|].
    exists e. split; [done|]. unfold Argument.serialize. by rewrite Hcfg.
Qed.

(** The outcome of the two steps before the description, when the
    argument can be named and its cardinality is a qualifier. *)
Lemma serialize_described self cfg :
  Argument.unpack_choices self = Ok cfg →
  Argument.aliases self ≠ []
    ∨ is_Some (Argument.configuration self !! "metavar") →
  Argument.configuration self !! "nargs" = None
    ∨ (∃ q, Argument.configuration self !! "nargs" = Some (VQual q)) →
  ∃ opts quals,
    Argument.serialize self
    = (result ← Argument.describe cfg (quals ∪ opts);
       Ok (filter (λ item, item.1 ∈ JSON_DIRECT_MIRROR_OPTIONS) cfg
             ∪ Argument.name_type cfg result)).
Proof.
  intros Hcfg Hname Hnargs. rewrite (serialize_unpacked self cfg Hcfg).
  assert (∃ opts, Argument.options_of self cfg = Ok opts) as [opts ->].
  { destruct (decide (Argument.aliases self = [])) as [Ha|Ha].
    - destruct Hname as [?|[metavar Hm]]; [done|].
      eexists. apply options_of_Ok. right. split; [done|].
      exists metavar. by rewrite (unpack_choices_lookup self cfg "metavar" Hcfg).
    - eexists. apply options_of_Ok. by left. }
  assert (∃ quals, Py.getitem_qualifier JSON_QUALIFIER_TO_OPTIONS
                     (default (VQual SUPPRESS) (cfg !! "nargs")) = Ok quals)
    as [quals ->].
  { rewrite (unpack_choices_lookup self cfg "nargs" Hcfg) by done.
    destruct Hnargs as [->|[q ->]]; simpl.
    - eexists. apply getitem_qualifier_Ok. by exists SUPPRESS.
    - eexists. apply getitem_qualifier_Ok. exists q. split; [done|].
      apply JSON_QUALIFIER_TO_OPTIONS_lookup. }
  by exists opts, quals.
Qed.

(** X6: a help text that is not empty but holds white space only leaves
    no first line to take: [serialize] raises [IndexError]. *)
Theorem serialize_blank_help self (s : string) :
  Argument.help_in_effect self = Ok (VStr s) →
  s ≠ EmptyString →
  Forall (λ c, Py.isspace c = true) (list_ascii_of_string s) →
  Argument.aliases self ≠ []
    ∨ is_Some (Argument.configuration self !! "metavar") →
  Argument.configuration self !! "nargs" = None
    ∨ (∃ q, Argument.configuration self !! "nargs" = Some (VQual q)) →
  Argument.serialize self = Raise IndexError.
Proof.
  unfold Argument.help_in_effect.
  intros (cfg & Hcfg & [= Hhelp])%bind_Ok Hs Hblank Hname Hnargs.
  destruct (serialize_described self cfg Hcfg Hname Hnargs) as (opts & quals & ->).
  unfold Argument.describe. rewrite Hhelp. simpl.
  destruct s as [|c s]; [done|]. simpl.
  by rewrite (strip_blank (String c s) Hblank).
Qed.

(** X7: a help value that is true, is not [SUPPRESS] and is no text (a
    number, a boolean, a list, a dictionary, another qualifier) has no
    [strip]: [serialize] raises [AttributeError]. *)
Theorem serialize_help_not_text self (v : value) :
  Argument.help_in_effect self = Ok v →
  Py.truthy v = true →
  match v with
  | VInt _ | VBool _ | VList _ | VDict _ => True
  | VQual q => q ≠ SUPPRESS
  | _ => False
  end →
  Argument.aliases self ≠ []
    ∨ is_Some (Argument.configuration self !! "metavar") →
  Argument.configuration self !! "nargs" = None
    ∨ (∃ q, Argument.configuration self !! "nargs" = Some (VQual q)) →
  Argument.serialize self = Raise (AttributeError "strip").
Proof.
  unfold Argument.help_in_effect.
  intros (cfg & Hcfg & [= Hhelp])%bind_Ok Htrue Hkind Hname Hnargs.
  destruct (serialize_described self cfg Hcfg Hname Hnargs) as (opts & quals & ->).
  unfold Argument.describe. rewrite Hhelp, Htrue.
  destruct v as [| | | |q| | |]; try done.
  simpl. by rewrite bool_decide_eq_false_2.
Qed.

(** X8: for an argument whose choices are not resolved lazily and
    whose help, when it has one, is [None], a boolean, a number, a text,
    a qualifier, a list or a dictionary, [serialize] returns exactly
    when the argument can be named (it has aliases or a [metavar]), the
    cardinality is absent or a qualifier, and the help is false,
    [SUPPRESS], or a text with something besides white space. *)
Theorem serialize_static_returns self :
  ¬ Argument.lazily_resolved self →
  (∀ name cls,
     Argument.configuration self !! "help" ≠ Some (VObj name cls)) →
  returns (Argument.serialize self) = true
  ↔ (Argument.aliases self ≠ []
       ∨ is_Some (Argument.configuration self !! "metavar"))
    ∧ (Argument.configuration self !! "nargs" = None
       ∨ ∃ q, Argument.configuration self !! "nargs" = Some (VQual q))
    ∧ (Py.truthy (default VNone (Argument.configuration self !! "help")) = false
       ∨ Argument.configuration self !! "help" = Some (VQual SUPPRESS)
       ∨ ∃ s, Argument.configuration self !! "help" = Some (VStr s)
           ∧ Py.strip s ≠ EmptyString).
Proof.
  intros Hstatic _. rewrite returns_true. split.
  - intros [r (cfg & opts & quals & described & Hcfg & Hopts & Hq & Hd & _)%serialize_Ok].
    rewrite (unpack_choices_static self Hstatic) in Hcfg. injection Hcfg as <-.
    split_and!.
    + apply options_of_Ok in Hopts as [[? _]|(_ & metavar & Hm & _)]; [by left|].
      right. exists metavar. by rewrite lookup_delete_ne in Hm.
    + apply getitem_qualifier_Ok in Hq as (q & Hq & _).
      rewrite lookup_delete_ne in Hq by done.
      destruct (Argument.configuration self !! "nargs") as [v|]; [|by left].
      right. exists q. simpl in Hq. by rewrite Hq.
    + apply describe_Ok in Hd. simpl in Hd. rewrite lookup_delete_ne in Hd by done.
      destruct Hd as [[Hg _]|(_ & s & line & lines & Hs & Hl & _)].
      * apply andb_false_iff in Hg as [?|Hg]; [by left|].
        right. left. apply negb_false_iff, is_qualifier_true in Hg.
        destruct (Argument.configuration self !! "help"); simpl in Hg; [|done].
        by rewrite Hg.
      * right. right. exists s. split.
        -- destruct (Argument.configuration self !! "help"); simpl in Hs; [|done].
           by rewrite Hs.
        -- intros Hnil. by rewrite Hnil in Hl.
  - intros (Hname & Hnargs & Hhelp). by apply serialize_static_Ok.
Qed.

(** The pieces of [serialize] read six keys of the configuration. *)
Lemma serialize_insert_unread self cfg k (v : value) :
  k ∉ ["action"; "metavar"; "nargs"; "help"; "type"; "choices"] →
  (result ← Argument.options_of self (<[k:=v]> cfg);
   qualifiers ← Py.getitem_qualifier JSON_QUALIFIER_TO_OPTIONS
                  (default (VQual SUPPRESS) (<[k:=v]> cfg !! "nargs"));
   result ← Argument.describe (<[k:=v]> cfg) (qualifiers ∪ result);
   Ok (filter (λ item, item.1 ∈ JSON_DIRECT_MIRROR_OPTIONS) (<[k:=v]> cfg)
         ∪ Argument.name_type (<[k:=v]> cfg) result))
  = (result ← Argument.options_of self cfg;
     qualifiers ← Py.getitem_qualifier JSON_QUALIFIER_TO_OPTIONS
                    (default (VQual SUPPRESS) (cfg !! "nargs"));
     result ← Argument.describe cfg (qualifiers ∪ result);
     Ok (filter (λ item, item.1 ∈ JSON_DIRECT_MIRROR_OPTIONS) cfg
           ∪ Argument.name_type cfg result)).
Proof.
  intros Hk.
  assert (k ≠ "action" ∧ k ≠ "metavar" ∧ k ≠ "nargs" ∧ k ≠ "help"
          ∧ k ≠ "type" ∧ k ≠ "choices") as (? & ? & ? & ? & ? & ?).
  { split_and!; intros ->; destruct Hk; key_in. }
  unfold Argument.options_of, Argument.describe, Argument.name_type, Py.getitem.
  rewrite !lookup_insert_ne by done.
  rewrite map_filter_insert_not'; [done| |].
  - simpl. intros Hin. unfold JSON_DIRECT_MIRROR_OPTIONS in Hin.
    repeat (apply elem_of_cons in Hin as [?|Hin]; [done|]).
    by apply elem_of_nil in Hin.
  - simpl. intros w _ Hin. unfold JSON_DIRECT_MIRROR_OPTIONS in Hin.
    repeat (apply elem_of_cons in Hin as [?|Hin]; [done|]).
    by apply elem_of_nil in Hin.
Qed.

(** X9: for an argument whose choices are not resolved lazily, a key
    other than [action], [metavar], [nargs], [help], [type] and
    [choices] has no influence on [serialize], neither on the entry nor
    on the error. *)
Theorem serialize_ignores_other_keys self k (v : value) :
  ¬ Argument.lazily_resolved self →
  k ∉ ["action"; "metavar"; "nargs"; "help"; "type"; "choices"] →
  Argument.serialize
    {| Argument.aliases := Argument.aliases self;
       Argument.configuration := <[k:=v]> (Argument.configuration self) |}
  = Argument.serialize self.
Proof.
  intros Hstatic Hk.
  assert (k ≠ "action") as Haction by (intros ->; destruct Hk; key_in).
  set (self' := {| Argument.aliases := Argument.aliases self;
                   Argument.configuration := <[k:=v]> (Argument.configuration self) |}).
  assert (¬ Argument.lazily_resolved self') as Hstatic'.
  { unfold Argument.lazily_resolved, self'. simpl.
    by rewrite lookup_insert_ne. }
  rewrite (serialize_unpacked self' _ (unpack_choices_static self' Hstatic')).
  rewrite (serialize_unpacked self _ (unpack_choices_static self Hstatic)).
  unfold self' at 2 3 4 5 6. simpl Argument.configuration.
  rewrite delete_insert_ne by done.
  by apply (serialize_insert_unread self).
Qed.

End schema_errors.

(** X10: an argument whose [action] is not [lazy_choices] never reaches
    a resolver: [serialize] is the same with any two of them. *)
Theorem serialize_static_without_resolver
    (resolvers1 resolvers2 : LazyChoicesImpl) (self : Argument.t) :
  ¬ Argument.lazily_resolved self →
  @Argument.serialize resolvers1 self = @Argument.serialize resolvers2 self.
Proof.
  intros Hstatic.
  rewrite (@serialize_unpacked resolvers1 self _
             (@unpack_choices_static resolvers1 self Hstatic)).
  by rewrite (@serialize_unpacked resolvers2 self _
                (@unpack_choices_static resolvers2 self Hstatic)).
Qed.

(** ** Qualifiers in the vocabulary of the parser library *)

(** X11: a configuration that holds no qualifier comes back from
    [map_qualifiers] as it is, whatever the target map. *)
Theorem map_qualifiers_without_qualifiers
    (configuration : gmap string value) (qualifier_map : gmap Qualifiers value) :
  (∀ key v, configuration !! key = Some v → Py.is_Qualifiers v = false) →
  map_qualifiers configuration qualifier_map = Ok configuration.
Proof.
  intros Hplain.
  pose proof (map_qualifiers_cases qualifier_map configuration) as Hcases.
  destruct (map_qualifiers configuration qualifier_map) as [mapped|e].
  - destruct Hcases as (Hdom & _ & Hother). f_equal. apply map_eq. intros key.
    destruct (configuration !! key) as [v|] eqn:Hkey.
    + apply Hother; [done|]. by eapply Hplain.
    + apply not_elem_of_dom. rewrite Hdom. by apply not_elem_of_dom.
  - destruct Hcases as (key & q & Hkey & _). by apply Hplain in Hkey.
Qed.

(** X12: with the table of [argparse], [map_qualifiers] never raises, its
    result holds no qualifier at the top level, and mapping the result
    again changes nothing. *)
Theorem map_qualifiers_argparse (configuration : gmap string value) :
  ∃ mapped,
    map_qualifiers configuration ARGPARSE_QUALIFIER_MAP = Ok mapped
    ∧ (∀ key v, mapped !! key = Some v → Py.is_Qualifiers v = false)
    ∧ map_qualifiers mapped ARGPARSE_QUALIFIER_MAP = Ok mapped.
Proof.
  exists (native <$> configuration).
  assert (∀ v, Py.is_Qualifiers (native v) = false) as Hnative.
  { intros [| | | |[]| | |]; done. }
  assert (∀ v, native (native v) = native v) as Hidem.
  { intros [| | | |[]| | |]; done. }
  split_and!.
  - apply map_qualifiers_native.
  - intros key v. rewrite lookup_fmap.
    destruct (configuration !! key); intros [= <-]. apply Hnative.
  - rewrite map_qualifiers_native. f_equal.
    rewrite <- map_fmap_compose. apply map_fmap_ext. intros ? ? _. apply Hidem.
Qed.

(** ** Groups and the document *)

(** A comprehension raises the error of the first element that raises. *)
Lemma mapM_Raise_first {A B : Type} (f : A → raising B) (l : list A) (e : exn) :
  mapM f l = Raise e
  ↔ ∃ pre x post, l = pre ++ x :: post
      ∧ Forall (λ y, returns (f y) = true) pre ∧ f x = Raise e.
Proof.
  induction l as [|x l IH]; simpl.
  - split; [done|]. by intros ([|? ?] & ? & ? & ? & _).
  - rewrite bind_Raise. split.
    + intros [Hx|(y & Hy & [Hl|(k & _ & ?)]%bind_Raise)]; [| |done].
      * by exists [], x, l.
      * apply IH in Hl as (pre & x' & post & -> & Hpre & Hx').
        exists (x :: pre), x', post. split_and!; [done| |done].
        constructor; [by rewrite Hy | done].
    + intros ([|x0 pre] & x' & post & [= -> ->] & Hpre & Hx'); [by left|].
      apply Forall_cons in Hpre as [Hx0 Hpre]. right.
      destruct (f x0) as [y|]; [|done]. exists y. split; [done|].
      apply bind_Raise. left. apply IH. by exists pre, x', post.
Qed.

Section documents.
Context {resolvers : LazyChoicesImpl}.

Lemma Group_serialize_Raise (g : Group.t) (e : exn) :
  Group.serialize g = Raise e
  ↔ mapM Argument.serialize (Group.arguments g) = Raise e.
Proof.
  unfold Group.serialize. rewrite bind_Raise. split; [|by left].
  by intros [?|(? & _ & ?)].
Qed.

(** The groups raise what the arguments raise, taken in one sequence. *)
Lemma groups_serialize_Raise (gs : list Group.t) (e : exn) :
  mapM Group.serialize gs = Raise e
  ↔ mapM Argument.serialize (g ← gs; Group.arguments g) = Raise e.
Proof.
  induction gs as [|g gs IH]; [done|].
  change (g0 ← g :: gs; Group.arguments g0)
    with (Group.arguments g ++ (g0 ← gs; Group.arguments g0)).
  rewrite mapM_app. simpl. rewrite !bind_Raise, Group_serialize_Raise.
  pose proof (Group_serialize_returns g) as Hg.
  split.
  - intros [?|(gd & Hgd & [Hgs|(? & _ & ?)]%bind_Raise)]; [by left| |done].
    right. rewrite Hgd in Hg.
    destruct (mapM Argument.serialize (Group.arguments g)) as [k|]; [|done].
    exists k. split; [done|]. apply bind_Raise. left. by apply IH.
  - intros [?|(k & Hk & [Hgs|(? & _ & ?)]%bind_Raise)]; [by left| |done].
    right. rewrite Hk in Hg.
    destruct (Group.serialize g) as [gd|]; [|done].
    exists gd. split; [done|]. apply bind_Raise. left. by apply IH.
Qed.

Lemma to_json_Raise (spec : ParserSpec.t) (e : exn) :
  to_json spec = Raise e
  ↔ mapM Argument.serialize (all_arguments spec) = Raise e.
Proof.
  unfold to_json, ParserSpec.serialize, all_arguments.
  rewrite <- groups_serialize_Raise, !bind_Raise. split.
  - intros [[?|(? & _ & ?)]|(? & _ & ?)]; done.
  - intros ?. left. by left.
Qed.

(** X13: [to_json] returns exactly when every argument of every group
    has a schema entry; otherwise it raises what the first argument
    without one raises, first in the order of the groups and of the
    arguments in them. *)
Theorem to_json_first_error (spec : ParserSpec.t) :
  (returns (to_json spec) = true
   ↔ Forall (λ a, returns (Argument.serialize a) = true) (all_arguments spec))
  ∧ ∀ e, to_json spec = Raise e
      ↔ ∃ before a after,
          all_arguments spec = before ++ a :: after
          ∧ Forall (λ a', returns (Argument.serialize a') = true) before
          ∧ Argument.serialize a = Raise e.
Proof.
  split.
  - rewrite <- mapM_returns. unfold all_arguments.
    rewrite <- groups_serialize_returns.
    unfold to_json, ParserSpec.serialize.
    by destruct (mapM Group.serialize (ParserSpec.groups spec)).
  - intros e. by rewrite to_json_Raise, mapM_Raise_first.
Qed.

(** X14: the schema of a group after [add_argument] is the schema
    before with the entry of the new argument after the others; an error
    of an earlier argument stays the error, and an error of the new
    argument is the error when the others have entries. *)
Theorem Group_serialize_add_argument (g : Group.t) (args : list string)
    (kwargs : gmap string value) :
  let argument := (Group.add_argument g args kwargs).1 in
  let g' := (Group.add_argument g args kwargs).2 in
  (∀ e, Group.serialize g = Raise e → Group.serialize g' = Raise e)
  ∧ (∀ gd e, Group.serialize g = Ok gd →
       Argument.serialize argument = Raise e → Group.serialize g' = Raise e)
  ∧ (∀ gd ad, Group.serialize g = Ok gd →
       Argument.serialize argument = Ok ad →
       ∃ adocs, gd !! "args" = Some (VList adocs)
         ∧ Group.serialize g'
           = Ok (<[ "args" := VList (adocs ++ [VDict ad]) ]> gd)).
Proof.
  simpl. unfold Group.serialize at 2 4 6. simpl. rewrite mapM_app. simpl.
  split_and!.
  - intros e ->%Group_serialize_Raise. done.
  - intros gd e (adocs & Ha%mapM_Ok & _)%Group_serialize_Ok ->.
    by rewrite Ha.
  - intros gd ad (adocs & Ha%mapM_Ok & ->)%Group_serialize_Ok ->.
    rewrite Ha. simpl. exists (VDict <$> adocs). split.
    { by rewrite !lookup_insert_ne, lookup_singleton_eq. }
    f_equal. rewrite fmap_app. simpl. apply map_eq. intros key.
    destruct (decide (key = "args")) as [->|].
    { by rewrite lookup_insert_eq, !lookup_insert_ne, lookup_singleton_eq. }
    rewrite (lookup_insert_ne _ "args") by done.
    destruct (decide (key = "name")) as [->|];
      [by rewrite !lookup_insert_eq|rewrite !(lookup_insert_ne _ "name") by done].
    destruct (decide (key = "description")) as [->|];
      [by rewrite !lookup_insert_eq
      |rewrite !(lookup_insert_ne _ "description") by done].
    destruct (decide (key = "is_mutually_exclusive")) as [->|];
      [by rewrite !lookup_insert_eq
      |rewrite !(lookup_insert_ne _ "is_mutually_exclusive") by done].
    by rewrite !lookup_singleton_ne.
Qed.

(** X15: the document of [to_json] has the version and the
    specification and nothing else; the specification has the program
    as its name, the description and one entry for each group, which
    carries the description and the exclusivity of the group; the epilog
    is in no part of it. *)
Theorem to_json_document (spec : ParserSpec.t) (doc : gmap string value) :
  to_json spec = Ok doc →
  (∀ key, is_Some (doc !! key) ↔ key = "version" ∨ key = "spec")
  ∧ doc !! "version" = Some (VStr "1.0.0")
  ∧ ∃ s gdocs,
      doc !! "spec" = Some (VDict s)
      ∧ (∀ key, is_Some (s !! key)
           ↔ key = "name" ∨ key = "description" ∨ key = "groups")
      ∧ s !! "name" = Some (VStr (ParserSpec.program spec))
      ∧ s !! "description" = Some (VStr (ParserSpec.description spec))
      ∧ s !! "groups" = Some (VList (VDict <$> gdocs))
      ∧ Forall2
          (λ g gd,
             gd !! "description" = Some (VStr (Group.description g))
             ∧ gd !! "is_mutually_exclusive"
               = Some (VBool (Group.is_mutually_exclusive g))
             ∧ ∀ key, is_Some (gd !! key)
                 ↔ key = "name" ∨ key = "description"
                   ∨ key = "is_mutually_exclusive" ∨ key = "args")
          (ParserSpec.groups spec) gdocs.
Proof.
  unfold to_json.
  intros (s & (gdocs & Hg & ->)%ParserSpec_serialize_Ok & [= <-])%bind_Ok.
  split_and!.
  - intros key. rewrite lookup_insert_is_Some, lookup_singleton_is_Some.
    key_set.
  - by rewrite lookup_insert_eq.
  - eexists _, gdocs. split_and!.
    + by rewrite lookup_insert_ne, lookup_singleton_eq.
    + intros key. rewrite !lookup_insert_is_Some, lookup_singleton_is_Some.
      key_set.
    + by rewrite lookup_insert_eq.
    + by rewrite lookup_insert_ne, lookup_insert_eq.
    + by rewrite !lookup_insert_ne, lookup_singleton_eq.
    + eapply Forall2_impl; [exact Hg|]. simpl.
      intros g gd (adocs & _ & ->)%Group_serialize_Ok. split_and!.
      * by rewrite lookup_insert_ne, lookup_insert_eq.
      * rewrite !lookup_insert_ne by done. by rewrite lookup_insert_eq.
      * intros key. rewrite !lookup_insert_is_Some, lookup_singleton_is_Some.
        key_set.
Qed.

End documents.

(** ** Finalization *)

Section finalization.
Variable dedent : string → string.

Lemma finalize_all_arguments (spec : ParserSpec.t) :
  all_arguments (ParserSpec.finalize dedent spec) = all_arguments spec.
Proof.
  unfold all_arguments, ParserSpec.finalize. simpl.
  induction (ParserSpec.groups spec) as [|g gs IH]; [done|].
  rewrite fmap_cons.
  change (g0 ← Group.finalize dedent g :: (Group.finalize dedent <$> gs);
          Group.arguments g0)
    with (Group.arguments g
            ++ (g0 ← Group.finalize dedent <$> gs; Group.arguments g0)).
  by rewrite IH.
Qed.

Section finalized_schema.
Context {resolvers : LazyChoicesImpl}.

Lemma Group_serialize_finalize (g : Group.t) (gd : gmap string value) :
  Group.serialize g = Ok gd →
  ∃ gd', Group.serialize (Group.finalize dedent g) = Ok gd'
    ∧ gd' !! "description" = Some (VStr (dedent (Group.description g)))
    ∧ ∀ key, key ≠ "description" → gd' !! key = gd !! key.
Proof.
  intros (adocs & Ha & ->)%Group_serialize_Ok.
  eexists. split; [|split].
  - apply Group_serialize_Ok. exists adocs. split; [exact Ha | done].
  - simpl. by rewrite lookup_insert_ne, lookup_insert_eq.
  - intros key Hkey. simpl.
    destruct (decide (key = "name")) as [->|];
      [by rewrite !lookup_insert_eq|rewrite !(lookup_insert_ne _ "name") by done].
    by rewrite !(lookup_insert_ne _ "description") by done.
Qed.

(** X16: finalization changes text only: the schema of a finalized
    specification fails exactly as the schema of the specification
    does, and otherwise differs from it in the descriptions alone,
    which are the dedented ones. *)
Theorem finalize_schema (spec : ParserSpec.t) :
  (∀ e, ParserSpec.serialize (ParserSpec.finalize dedent spec) = Raise e
        ↔ ParserSpec.serialize spec = Raise e)
  ∧ ∀ s, ParserSpec.serialize spec = Ok s →
      ∃ s' gdocs gdocs',
        ParserSpec.serialize (ParserSpec.finalize dedent spec) = Ok s'
        ∧ s' !! "name" = s !! "name"
        ∧ s' !! "description"
          = Some (VStr (dedent (ParserSpec.description spec)))
        ∧ s !! "groups" = Some (VList (VDict <$> gdocs))
        ∧ s' !! "groups" = Some (VList (VDict <$> gdocs'))
        ∧ Forall2 (λ gd gd', ∀ key, key ≠ "description" →
                               gd' !! key = gd !! key) gdocs gdocs'
        ∧ Forall2 (λ g gd', gd' !! "description"
                            = Some (VStr (dedent (Group.description g))))
                  (ParserSpec.groups spec) gdocs'.
Proof.
  split.
  - intros e. unfold ParserSpec.serialize. rewrite !bind_Raise.
    assert (mapM Group.serialize
              (ParserSpec.groups (ParserSpec.finalize dedent spec)) = Raise e
            ↔ mapM Group.serialize (ParserSpec.groups spec) = Raise e) as Hg.
    { rewrite !groups_serialize_Raise.
      change (g ← ParserSpec.groups (ParserSpec.finalize dedent spec);
              Group.arguments g)
        with (all_arguments (ParserSpec.finalize dedent spec)).
      by rewrite finalize_all_arguments. }
    split; (intros [?|(? & _ & ?)]; [|done]); left; by apply Hg.
  - intros s (gdocs & Hg & ->)%ParserSpec_serialize_Ok.
    assert (∃ gdocs',
              Forall2 (λ g gd', Group.serialize g = Ok gd')
                      (Group.finalize dedent <$> ParserSpec.groups spec) gdocs'
              ∧ Forall2 (λ gd gd', ∀ key, key ≠ "description" →
                                     gd' !! key = gd !! key) gdocs gdocs'
              ∧ Forall2 (λ g gd', gd' !! "description"
                                  = Some (VStr (dedent (Group.description g))))
                        (ParserSpec.groups spec) gdocs')
      as (gdocs' & Hg' & Hsame & Hd).
    { induction Hg as [|g gd gs gds Hgd _ (gds' & ? & ? & ?)].
      - exists []. by split_and!.
      - destruct (Group_serialize_finalize g gd Hgd) as (gd' & ? & ? & ?).
        exists (gd' :: gds'). rewrite fmap_cons. split_and!; by constructor. }
    eexists _, gdocs, gdocs'. split_and!.
    + apply ParserSpec_serialize_Ok. exists gdocs'. split; [exact Hg' | done].
    + simpl. by rewrite !lookup_insert_eq.
    + simpl. by rewrite lookup_insert_ne, lookup_insert_eq.
    + by rewrite !lookup_insert_ne, lookup_singleton_eq.
    + by rewrite !lookup_insert_ne, lookup_singleton_eq.
    + done.
    + done.
Qed.

End finalized_schema.

(** X17: the parser of a finalized specification is refused exactly
    when the parser of the specification is, and otherwise differs from
    it in the description, the epilog and the descriptions of the groups
    alone, which are the dedented ones. *)
Theorem finalize_to_argparse (spec : ParserSpec.t) :
  (∀ e, to_argparse (ParserSpec.finalize dedent spec) = Raise e
        ↔ to_argparse spec = Raise e)
  ∧ ∀ p, to_argparse spec = Ok p →
      ∃ p', to_argparse (ParserSpec.finalize dedent spec) = Ok p'
        ∧ Parser.prog p' = Parser.prog p
        ∧ Parser.parser_description p' = dedent (Parser.parser_description p)
        ∧ Parser.epilog p' = dedent (Parser.epilog p)
        ∧ Parser.registries p' = Parser.registries p
        ∧ Forall2 (λ cg cg',
                     Parser.title cg' = Parser.title cg
                     ∧ Parser.description cg' = dedent (Parser.description cg)
                     ∧ Parser.actions cg' = Parser.actions cg
                     ∧ Parser.mutex_groups cg' = Parser.mutex_groups cg)
                  (Parser.groups p) (Parser.groups p').
Proof.
  rewrite !to_argparse_eq, finalize_all_arguments.
  destruct (first_collision _ _) as [alias|]; [by split|].
  split; [done|]. intros p [= <-]. eexists. split; [done|]. simpl.
  split_and!; try done.
  rewrite <- list_fmap_compose.
  apply Forall2_fmap, Forall_Forall2_diag, Forall_forall. by intros g _.
Qed.

End finalization.

(** ** What the parser is given *)

(** X18: the parser that [to_argparse] returns has the program, the
    description and the epilog of the specification, [LazyChoices]
    registered as the action [lazy_choices], and one argument group for
    each group, with its name as the title and its description. *)
Theorem to_argparse_texts (spec : ParserSpec.t) (p : Parser.t) :
  to_argparse spec = Ok p →
  Parser.prog p = ParserSpec.program spec
  ∧ Parser.parser_description p = ParserSpec.description spec
  ∧ Parser.epilog p = ParserSpec.epilog spec
  ∧ Parser.registries p !! ("action", "lazy_choices") = Some LazyChoices_class
  ∧ Forall2 (λ g cg,
               Parser.title cg = Group.name g
               ∧ Parser.description cg = Group.description g)
            (ParserSpec.groups spec) (Parser.groups p).
Proof.
  rewrite to_argparse_eq. destruct (first_collision _ _); [done|].
  intros [= <-]. simpl. split_and!; try done.
  apply Forall2_fmap_r, Forall_Forall2_diag, Forall_forall. by intros g _.
Qed.

(** X19: every argument is registered with its aliases and with its
    configuration, in which a qualifier has become the sentinel of
    [argparse] and every other value, the [action] included, is as it
    was declared. *)
Theorem to_argparse_kwargs (spec : ParserSpec.t) (p : Parser.t) :
  to_argparse spec = Ok p →
  Forall2
    (λ g cg,
       Forall2
         (λ a action,
            Parser.option_strings action = Argument.aliases a
            ∧ ∀ key,
                Parser.kwargs action !! key
                = match Argument.configuration a !! key with
                  | Some (VQual OPTIONAL) => Some (VStr "?")
                  | Some (VQual ZERO_OR_MORE) => Some (VStr "*")
                  | Some (VQual SUPPRESS) => Some (VStr "==SUPPRESS==")
                  | other => other
                  end)
         (Group.arguments g) (Parser.actions cg))
    (ParserSpec.groups spec) (Parser.groups p).
Proof.
  rewrite to_argparse_eq. destruct (first_collision _ _); [done|].
  intros [= <-]. simpl.
  apply Forall2_fmap_r, Forall_Forall2_diag, Forall_forall. intros g _. simpl.
  apply Forall2_fmap_r, Forall_Forall2_diag, Forall_forall. intros a _. simpl.
  split; [done|]. intros key. rewrite lookup_fmap.
  by destruct (Argument.configuration a !! key) as [[| | | |[]| | |]|].
Qed.

(** ** The further properties on the sample declarations *)

Section more_samples.
Import Examples Cases.

Lemma serialize_type_name_witness :
  ∃ r, Argument.serialize (resolvers := unavailable) session = Ok r
    ∧ r !! "python_type_name" = Some (VStr "session_name_validator").
Proof.
  destruct (proj1 (returns_true
                     (Argument.serialize (resolvers := unavailable) session)))
    as [r Hr]; [vm_compute; reflexivity|].
  exists r. split; [exact Hr|].
  rewrite (serialize_type_name (resolvers := unavailable) session r Hr).
  reflexivity.
Defined.

Lemma serialize_keys_witness :
  ∃ r, Argument.serialize (resolvers := unavailable) method = Ok r
    ∧ is_Some (r !! "options")
    ∧ r !! "dest" = None ∧ r !! "default" = None.
Proof.
  destruct (proj1 (returns_true
                     (Argument.serialize (resolvers := unavailable) method)))
    as [r Hr]; [vm_compute; reflexivity|].
  exists r. split; [exact Hr|].
  destruct (serialize_keys (resolvers := unavailable) method r Hr)
    as [Hoptions Hkeys].
  split; [exact Hoptions|]. split.
  - destruct (r !! "dest") as [v|] eqn:Hv; [|reflexivity].
    assert (is_Some (r !! "dest")) as Hin%Hkeys by (rewrite Hv; by eexists).
    clear -Hin. key_not_in Hin.
  - destruct (r !! "default") as [v|] eqn:Hv; [|reflexivity].
    assert (is_Some (r !! "default")) as Hin%Hkeys by (rewrite Hv; by eexists).
    clear -Hin. key_not_in Hin.
Defined.

Lemma serialize_mirrors_witness :
  ∃ r, Argument.serialize (resolvers := unavailable) method = Ok r
    ∧ r !! "metavar" = Some (VStr "METHOD")
    ∧ r !! "choices" = None.
Proof.
  destruct (proj1 (returns_true
                     (Argument.serialize (resolvers := unavailable) method)))
    as [r Hr]; [vm_compute; reflexivity|].
  exists r. split; [exact Hr|].
  destruct (serialize_mirrors (resolvers := unavailable) method r Hr)
    as [Hmetavar Hchoices].
  split; [rewrite Hmetavar; reflexivity|].
  rewrite Hchoices; [reflexivity|].
  intros Hlazy. vm_compute in Hlazy. discriminate Hlazy.
Defined.

Lemma serialize_flags_witness :
  ∃ r, Argument.serialize (resolvers := unavailable) request_items = Ok r
    ∧ is_Some (r !! "is_variadic")
    ∧ r !! "is_optional" = Some (VBool true).
Proof.
  destruct (proj1 (returns_true
                     (Argument.serialize (resolvers := unavailable)
                        request_items))) as [r Hr];
    [vm_compute; reflexivity|].
  exists r. split; [exact Hr|].
  assert (is_Some (r !! "is_variadic")) as Hvariadic.
  { rewrite (returned_lookup _ r "is_variadic" Hr). vm_compute. by eexists. }
  split; [exact Hvariadic|].
  by apply (serialize_flags (resolvers := unavailable) request_items r Hr).
Defined.

Lemma serialize_positional_needs_metavar_witness :
  Argument.serialize (resolvers := unavailable) nameless
  = Raise (KeyError (VStr "metavar")).
Proof.
  destruct (serialize_positional_needs_metavar (resolvers := unavailable)
              nameless) as [Hraise|[Hlazy _]];
    [reflexivity | reflexivity | exact Hraise |].
  vm_compute in Hlazy. discriminate Hlazy.
Defined.

Lemma serialize_blank_help_witness :
  Argument.serialize (resolvers := unavailable) blank = Raise IndexError.
Proof.
  apply (serialize_blank_help (resolvers := unavailable) blank "   ").
  - vm_compute. reflexivity.
  - discriminate.
  - repeat constructor.
  - left. discriminate.
  - left. reflexivity.
Defined.

Lemma serialize_help_not_text_witness :
  Argument.serialize (resolvers := unavailable) numbered
  = Raise (AttributeError "strip").
Proof.
  apply (serialize_help_not_text (resolvers := unavailable) numbered (VInt 1)).
  - vm_compute. reflexivity.
  - reflexivity.
  - exact I.
  - left. discriminate.
  - left. reflexivity.
Defined.

Lemma serialize_static_returns_witness :
  returns (Argument.serialize (resolvers := unavailable) session) = true
  ∧ returns (Argument.serialize (resolvers := unavailable) raw) = false.
Proof.
  split.
  - apply (serialize_static_returns (resolvers := unavailable) session).
    + intros Hlazy. vm_compute in Hlazy. discriminate Hlazy.
    + intros name cls Hhelp. vm_compute in Hhelp. discriminate Hhelp.
    + split; [left; discriminate|].
      split; [left; reflexivity|]. left. reflexivity.
  - apply not_true_is_false. intros Hreturns.
    apply (serialize_static_returns (resolvers := unavailable) raw)
      in Hreturns as (_ & Hnargs & _).
    + destruct Hnargs as [Hnone|[q Hq]].
      * vm_compute in Hnone. discriminate Hnone.
      * vm_compute in Hq. discriminate Hq.
    + intros Hlazy. vm_compute in Hlazy. discriminate Hlazy.
    + intros name cls Hhelp. vm_compute in Hhelp. discriminate Hhelp.
Defined.

Lemma serialize_ignores_other_keys_witness :
  Argument.serialize (resolvers := unavailable)
    {| Argument.aliases := ["--session"];
       Argument.configuration :=
         <[ "default" := VNone ]> (Argument.configuration session) |}
  = Argument.serialize (resolvers := unavailable) session.
Proof.
  apply (serialize_ignores_other_keys (resolvers := unavailable) session
           "default" VNone).
  - intros Hlazy. vm_compute in Hlazy. discriminate Hlazy.
  - intros Hin. key_not_in Hin.
Defined.

Lemma serialize_static_without_resolver_witness :
  Argument.serialize (resolvers := unavailable) session
  = Argument.serialize (resolvers := styles) session.
Proof.
  apply (serialize_static_without_resolver unavailable styles session).
  intros Hlazy. vm_compute in Hlazy. discriminate Hlazy.
Defined.

Lemma map_qualifiers_without_qualifiers_witness :
  map_qualifiers (Argument.configuration session) ∅
  = Ok (Argument.configuration session).
Proof.
  apply (map_qualifiers_without_qualifiers (Argument.configuration session) ∅).
  apply map_Forall_insert_2; [reflexivity|].
  apply map_Forall_insert_2; [reflexivity|].
  apply map_Forall_empty.
Defined.

Lemma to_json_first_error_witness :
  to_json (resolvers := unavailable) broken = Raise (KeyError (VStr "?"))
  ∧ returns (to_json (resolvers := unavailable) options) = true.
Proof.
  destruct (to_json_first_error (resolvers := unavailable) broken)
    as [_ Hraise].
  destruct (to_json_first_error (resolvers := unavailable) options)
    as [Hreturns _].
  split.
  - apply Hraise. exists [session; session_read_only], raw, [nameless].
    split; [reflexivity|]. split.
    + repeat constructor; vm_compute; reflexivity.
    + vm_compute. reflexivity.
  - apply Hreturns.
    assert (all_arguments options
            = [method; url; request_items; session; session_read_only])
      as ->.
    { unfold all_arguments, options. rewrite declared_in_order. reflexivity. }
    repeat constructor; vm_compute; reflexivity.
Defined.

End more_samples.

Section more_samples_documents.
Import Examples Cases.

Lemma Group_serialize_add_argument_witness :
  ∃ gd ad adocs,
    Group.serialize (resolvers := unavailable) sessions = Ok gd
    ∧ Argument.serialize (resolvers := unavailable) offline = Ok ad
    ∧ gd !! "args" = Some (VList adocs)
    ∧ Group.serialize (resolvers := unavailable)
        (Group.add_argument sessions ["--offline"] {[ "metavar" := VNone ]}).2
      = Ok (<[ "args" := VList (adocs ++ [VDict ad]) ]> gd).
Proof.
  destruct (proj1 (returns_true
                     (Group.serialize (resolvers := unavailable) sessions)))
    as [gd Hgd]; [vm_compute; reflexivity|].
  destruct (proj1 (returns_true
                     (Argument.serialize (resolvers := unavailable) offline)))
    as [ad Had]; [vm_compute; reflexivity|].
  destruct (Group_serialize_add_argument (resolvers := unavailable) sessions
              ["--offline"] {[ "metavar" := VNone ]}) as (_ & _ & Hadded).
  destruct (Hadded gd ad Hgd Had) as (adocs & Hargs & Hserialize).
  exists gd, ad, adocs.
  split; [exact Hgd|]. split; [exact Had|]. split; [exact Hargs|].
  exact Hserialize.
Defined.

Lemma to_json_document_witness :
  ∃ doc, to_json (resolvers := unavailable) options = Ok doc
    ∧ doc !! "version" = Some (VStr "1.0.0")
    ∧ doc !! "epilog" = None.
Proof.
  destruct (proj1 (returns_true (to_json (resolvers := unavailable) options)))
    as [doc Hdoc]; [vm_compute; reflexivity|].
  exists doc. split; [exact Hdoc|].
  destruct (to_json_document (resolvers := unavailable) options doc Hdoc)
    as (Hkeys & Hversion & _).
  split; [exact Hversion|].
  destruct (doc !! "epilog") as [v|] eqn:Hv; [|reflexivity].
  assert (is_Some (doc !! "epilog")) as Hin%Hkeys by (rewrite Hv; by eexists).
  clear -Hin. destruct Hin as [Hin|Hin]; discriminate Hin.
Defined.

Lemma finalize_schema_witness :
  ∃ s s',
    ParserSpec.serialize (resolvers := unavailable) indented = Ok s
    ∧ ParserSpec.serialize (resolvers := unavailable)
        (ParserSpec.finalize unindent indented) = Ok s'
    ∧ s' !! "name" = s !! "name"
    ∧ s' !! "description" = Some (VStr "HTTPie").
Proof.
  destruct (proj1 (returns_true
                     (ParserSpec.serialize (resolvers := unavailable)
                        indented))) as [s Hs];
    [vm_compute; reflexivity|].
  destruct (finalize_schema unindent (resolvers := unavailable) indented)
    as [_ Hfinalized].
  destruct (Hfinalized s Hs)
    as (s' & gdocs & gdocs' & Hs' & Hname & Hdescription & _).
  exists s, s'. split; [exact Hs|]. split; [exact Hs'|].
  split; [exact Hname|]. exact Hdescription.
Defined.

Lemma finalize_to_argparse_witness :
  ∃ p p',
    to_argparse indented = Ok p
    ∧ to_argparse (ParserSpec.finalize unindent indented) = Ok p'
    ∧ Parser.epilog p' = unindent (Parser.epilog p)
    ∧ Forall2 (λ cg cg', Parser.actions cg' = Parser.actions cg)
              (Parser.groups p) (Parser.groups p').
Proof.
  destruct (proj1 (returns_true (to_argparse indented))) as [p Hp];
    [vm_compute; reflexivity|].
  destruct (finalize_to_argparse unindent indented) as [_ Hfinalized].
  destruct (Hfinalized p Hp) as (p' & Hp' & _ & _ & Hepilog & _ & Hgroups).
  exists p, p'. split; [exact Hp|]. split; [exact Hp'|].
  split; [exact Hepilog|].
  eapply Forall2_impl; [exact Hgroups|].
  intros cg cg' (_ & _ & Hactions & _). exact Hactions.
Defined.

Lemma to_argparse_texts_witness :
  ∃ p, to_argparse options = Ok p
    ∧ Parser.prog p = "http"
    ∧ Parser.registries p !! ("action", "lazy_choices")
      = Some LazyChoices_class.
Proof.
  destruct (proj1 (returns_true (to_argparse options))) as [p Hp];
    [vm_compute; reflexivity|].
  exists p. split; [exact Hp|].
  destruct (to_argparse_texts options p Hp)
    as (Hprog & _ & _ & Hregistry & _).
  split; [|exact Hregistry]. rewrite Hprog. reflexivity.
Defined.

Lemma to_argparse_kwargs_witness :
  ∃ p cg action,
    to_argparse options = Ok p
    ∧ Parser.groups p !! 0 = Some cg
    ∧ Parser.actions cg !! 0 = Some action
    ∧ Parser.kwargs action !! "nargs" = Some (VStr "?")
    ∧ Parser.kwargs action !! "metavar" = Some (VStr "METHOD").
Proof.
  destruct (proj1 (returns_true (to_argparse options))) as [p Hp];
    [vm_compute; reflexivity|].
  assert (ParserSpec.groups options !! 0 = Some positional) as Hpositional.
  { unfold options. rewrite declared_in_order. reflexivity. }
  pose proof (to_argparse_kwargs options p Hp) as Hgroups.
  destruct (Forall2_lookup_l _ _ _ 0 positional Hgroups Hpositional)
    as (cg & Hcg & Hactions).
  destruct (Forall2_lookup_l _ _ _ 0 method Hactions eq_refl)
    as (action & Haction & _ & Hkwargs).
  exists p, cg, action.
  split; [exact Hp|]. split; [exact Hcg|]. split; [exact Haction|].
  split; rewrite Hkwargs; reflexivity.
Defined.

End more_samples_documents.

(** * The other modules *)

(** ** Reading a key file *)

Section key_file.
Implicit Types (needle s line : string) (lines : list string).

Lemma readlines_nil s : Str.readlines s = [] → s = EmptyString.
Proof.
  destruct s as [|c s]; [done|]. simpl.
  destruct (Ascii.eqb c "010"); [done|].
  destruct (Ascii.eqb c "013"); [done|].
  by destruct (Str.readlines s).
Qed.

(** A text without a line end starts its first line and the file alike. *)
Lemma prefix_readlines needle s line lines :
  Forall (λ c, Str.ends_line c = false) (list_ascii_of_string needle) →
  Str.readlines s = line :: lines →
  String.prefix needle line = String.prefix needle s.
Proof.
  revert needle line lines.
  induction s as [|c s IH]; intros needle line lines Hneedle; [done|].
  destruct needle as [|a needle]; [by destruct line|].
  apply Forall_cons in Hneedle as [Ha Hneedle].
  unfold Str.ends_line in Ha. apply orb_false_iff in Ha as [Hlf Hcr].
  simpl. destruct (Ascii.eqb c "010") eqn:Hc.
  { apply Ascii.eqb_eq in Hc as ->. intros [= <- _]. simpl.
    destruct (ascii_dec a "010") as [->|]; [done|].
    by destruct (ascii_dec a "010"). }
  destruct (Ascii.eqb c "013") eqn:Hc'.
  { apply Ascii.eqb_eq in Hc' as ->. intros [= <- _]. simpl.
    destruct (ascii_dec a "010") as [->|]; [done|].
    by destruct (ascii_dec a "013") as [->|]. }
  destruct (Str.readlines s) as [|l ls] eqn:Hs.
  - apply readlines_nil in Hs as ->. by intros [= <- _].
  - intros [= <- _]. simpl. destruct (ascii_dec a c); [|done].
    by eapply IH.
Qed.

Lemma contains_nonempty_nil needle :
  needle ≠ EmptyString → Str.contains needle EmptyString = false.
Proof. by destruct needle. Qed.

Lemma prefix_line_end needle c s :
  needle ≠ EmptyString →
  Forall (λ c, Str.ends_line c = false) (list_ascii_of_string needle) →
  Str.ends_line c = true →
  String.prefix needle (String c s) = false.
Proof.
  destruct needle as [|a needle]; [done|]. intros _ [Ha _]%Forall_cons Hc.
  simpl. destruct (ascii_dec a c) as [->|]; [congruence | done].
Qed.

(** An occurrence of a text without a line end lies in one line. *)
Lemma contains_readlines needle s :
  needle ≠ EmptyString →
  Forall (λ c, Str.ends_line c = false) (list_ascii_of_string needle) →
  existsb (Str.contains needle) (Str.readlines s) = Str.contains needle s.
Proof.
  intros Hne Hneedle.
  assert (∀ n s, String.length s < n →
            existsb (Str.contains needle) (Str.readlines s)
            = Str.contains needle s) as Hall.
  2: { by apply (Hall (S (String.length s))), Nat.lt_succ_diag_r. }
  clear s. induction n as [|n IH]; intros s Hn; [lia|].
  destruct s as [|c s]; [by rewrite contains_nonempty_nil|].
  simpl in Hn.
  assert (Str.contains needle (String "010" EmptyString) = false) as Hlf.
  { cbn [Str.contains]. rewrite prefix_line_end by done.
    by destruct needle. }
  simpl Str.readlines. destruct (Ascii.eqb c "010") eqn:Hc.
  { apply Ascii.eqb_eq in Hc as ->.
    cbn [existsb]. rewrite Hlf, IH by lia.
    cbn [Str.contains]. by rewrite prefix_line_end. }
  destruct (Ascii.eqb c "013") eqn:Hc'.
  { apply Ascii.eqb_eq in Hc' as ->.
    cbn [existsb]. rewrite Hlf. cbn [Str.contains orb].
    rewrite prefix_line_end by done. cbn [orb].
    destruct s as [|c' s]; [by rewrite contains_nonempty_nil|].
    destruct (Ascii.eqb c' "010") eqn:Hc''.
    - apply Ascii.eqb_eq in Hc'' as ->. simpl in Hn.
      rewrite IH by lia. cbn [Str.contains].
      by rewrite prefix_line_end.
    - assert (match c' with
              | "010"%char => Str.readlines s
              | _ => Str.readlines (String c' s)
              end = Str.readlines (String c' s)) as ->.
      { destruct c' as [[] [] [] [] [] [] [] []]; try done. }
      apply IH. simpl in *. lia. }
  cbn [Str.contains].
  destruct (Str.readlines s) as [|line lines] eqn:Hs.
  - apply readlines_nil in Hs as ->. cbn [existsb Str.contains]. 
    by rewrite orb_false_r.
  - cbn [existsb Str.contains].
    rewrite (prefix_readlines needle (String c s) (String c line) lines);
      [|done|by simpl; rewrite Hc, Hc', Hs].
    rewrite <- (IH s) by lia. rewrite Hs. cbn [existsb].
    by rewrite orb_assoc.
Qed.

End key_file.

(** X20: a key file counts as encrypted exactly when the word ENCRYPTED
    occurs anywhere in its text, and a file that cannot be opened raises:
    reading line by line neither hides nor makes an occurrence. *)
Theorem is_key_file_encrypted_spec (files : gmap string string)
    (key_file : string) :
  ssl_._is_key_file_encrypted files key_file
  = match files !! key_file with
    | Some text => ssl_.Returns (Str.contains "ENCRYPTED" text)
    | None => ssl_.Raises ssl_.FileNotFoundError
    end.
Proof.
  unfold ssl_._is_key_file_encrypted.
  destruct (files !! key_file) as [text|]; [|done].
  f_equal. apply contains_readlines; [done|]. repeat constructor.
Qed.

(** ** Integers as texts *)

Section integers.
Import Decimal DecimalString.

Lemma digit_not_space (c : ascii) :
  is_Some (Str.digit c) → Str.int_space c = false.
Proof.
  destruct c as [[] [] [] [] [] [] [] []]; vm_compute; (done || by intros [? ?]).
Qed.

Lemma digit_plain (c : ascii) :
  is_Some (Str.digit c) → c ≠ "_"%char ∧ c ≠ ":"%char ∧ c ≠ "-"%char ∧ c ≠ "+"%char.
Proof.
  intros Hc. split_and!; intros ->; by destruct Hc.
Qed.

Lemma string_of_uint_digits (d : uint) :
  Forall (λ c, is_Some (Str.digit c))
         (list_ascii_of_string (NilEmpty.string_of_uint d)).
Proof.
  induction d; simpl; constructor; (by eexists) || done.
Qed.

(** The digits of a number with the digits read before them. *)
Lemma digits_acc (d : uint) (acc : positive) (b : bool) :
  d ≠ Nil ∨ b = true →
  Str.digits (Z.pos acc) b (NilEmpty.string_of_uint d)
  = Some (Z.pos (Pos.of_uint_acc d acc)).
Proof.
  revert acc b. induction d as [|d IH|d IH|d IH|d IH|d IH|d IH|d IH|d IH|d IH|d IH];
    intros acc b Hd;
    [ destruct Hd as [?| ->]; done | ..];
    cbn [NilEmpty.string_of_uint Str.digits Pos.of_uint_acc];
    match goal with
    | |- context [Str.digit ?c] =>
        let v := eval vm_compute in (Str.digit c) in
        change (Str.digit c) with v
    end;
    cbn match;
    (etrans; [|apply (IH _ true); by right]); f_equal; lia.
Qed.

Lemma digits_zero (d : uint) (b : bool) :
  d ≠ Nil ∨ b = true →
  Str.digits 0 b (NilEmpty.string_of_uint d) = Some (Z.of_N (Pos.of_uint d)).
Proof.
  revert b. induction d as [|d IH|d IH|d IH|d IH|d IH|d IH|d IH|d IH|d IH|d IH];
    intros b Hd;
    [ destruct Hd as [?| ->]; done | ..];
    cbn [NilEmpty.string_of_uint Str.digits Pos.of_uint];
    match goal with
    | |- context [Str.digit ?c] =>
        let v := eval vm_compute in (Str.digit c) in
        change (Str.digit c) with v
    end;
    cbn match;
    [ apply (IH true); by right | ..];
    (etrans; [apply (digits_acc d _ true); by right|]); done.
Qed.

(** The text of an integer: its digits, after a minus sign when it is
    negative. *)
Lemma of_int_cases (n : Z) :
  ∃ d, d ≠ Nil
    ∧ Z.of_N (Pos.of_uint d) = Z.abs n
    ∧ Str.of_int n
      = if (n <? 0)%Z then String "-" (NilEmpty.string_of_uint d)
        else NilEmpty.string_of_uint d.
Proof.
  destruct n as [|p|p].
  - by exists (D0 Nil).
  - exists (Pos.to_uint p). split_and!.
    + apply DecimalPos.Unsigned.to_uint_nonnil.
    + by rewrite DecimalPos.Unsigned.of_to.
    + unfold Str.of_int. simpl.
      pose proof (DecimalPos.Unsigned.to_uint_nonnil p).
      by destruct (Pos.to_uint p).
  - exists (Pos.to_uint p). split_and!.
    + apply DecimalPos.Unsigned.to_uint_nonnil.
    + by rewrite DecimalPos.Unsigned.of_to.
    + unfold Str.of_int. simpl.
      pose proof (DecimalPos.Unsigned.to_uint_nonnil p).
      by destruct (Pos.to_uint p).
Qed.

Lemma trim_no_space (space : ascii → bool) (s : string) :
  Forall (λ c, space c = false) (list_ascii_of_string s) →
  Str.rtrim space (Str.ltrim space s) = s.
Proof.
  intros Hs.
  assert (Str.ltrim space s = s) as ->.
  { destruct s as [|c s]; [done|]. simpl.
    by apply Forall_cons in Hs as [-> _]. }
  induction s as [|c s IH]; [done|]. simpl.
  apply Forall_cons in Hs as [Hc Hs]. rewrite (IH Hs), Hc. by destruct s.
Qed.

(** An integer is read back from its text. *)
Lemma int_of_int (n : Z) : Str.int (Str.of_int n) = Some n.
Proof.
  destruct (of_int_cases n) as (d & Hd & Hvalue & Htext).
  pose proof (string_of_uint_digits d) as Hdigits.
  unfold Str.int. rewrite trim_no_space.
  2: { rewrite Htext. destruct (n <? 0)%Z; [constructor; [done|]|];
       (eapply Forall_impl; [exact Hdigits|]); apply digit_not_space. }
  rewrite Htext. destruct (n <? 0)%Z eqn:Hn.
  - rewrite digits_zero by (by left). simpl. f_equal. lia.
  - assert (Str.digits 0 false (NilEmpty.string_of_uint d) = Some n) as Hread.
    { rewrite digits_zero by (by left). f_equal. lia. }
    destruct (NilEmpty.string_of_uint d) as [|c s] eqn:Hs; [done|].
    apply Forall_cons in Hdigits as [Hc _].
    apply digit_plain in Hc as (_ & _ & Hminus & Hplus).
    destruct c as [[] [] [] [] [] [] [] []]; done.
Qed.

Lemma of_int_inj (n m : Z) : Str.of_int n = Str.of_int m → n = m.
Proof.
  intros Heq. pose proof (int_of_int n) as Hn. rewrite Heq, int_of_int in Hn.
  by injection Hn.
Qed.

(** The text of an integer holds no underscore and no colon. *)
Lemma of_int_plain (n : Z) :
  Forall (λ c, c ≠ "_"%char ∧ c ≠ ":"%char)
         (list_ascii_of_string (Str.of_int n)).
Proof.
  destruct (of_int_cases n) as (d & _ & _ & ->).
  assert (Forall (λ c, c ≠ "_"%char ∧ c ≠ ":"%char)
                 (list_ascii_of_string (NilEmpty.string_of_uint d))).
  { eapply Forall_impl; [apply string_of_uint_digits|].
    intros c (? & ? & _)%digit_plain. done. }
  destruct (n <? 0)%Z; [constructor|]; done.
Qed.

End integers.

(** ** Splitting a text *)

Section splitting.
Implicit Types (sep c : ascii) (s h t : string).

Lemma split_app sep h t :
  Forall (λ c, c ≠ sep) (list_ascii_of_string h) →
  Str.split sep (h +:+ String sep t) = h :: Str.split sep t.
Proof.
  induction h as [|c h IH]; simpl.
  - intros _. by rewrite Ascii.eqb_refl.
  - intros [Hc Hh]%Forall_cons. apply Ascii.eqb_neq in Hc as ->.
    by rewrite (IH Hh).
Qed.

Lemma split_none sep s :
  Forall (λ c, c ≠ sep) (list_ascii_of_string s) → Str.split sep s = [s].
Proof.
  induction s as [|c s IH]; simpl; [done|].
  intros [Hc Hs]%Forall_cons. apply Ascii.eqb_neq in Hc as ->.
  by rewrite (IH Hs).
Qed.

Lemma split_two sep h t :
  ∃ p q parts, Str.split sep (h +:+ String sep t) = p :: q :: parts.
Proof.
  induction h as [|c h (p & q & parts & IH)]; simpl.
  - rewrite Ascii.eqb_refl. destruct t as [|c t]; simpl; [by eexists _, _, _|].
    destruct (Ascii.eqb c sep); [by eexists _, _, _|].
    destruct (Str.split sep t); by eexists _, _, _.
  - rewrite IH. destruct (Ascii.eqb c sep); by eexists _, _, _.
Qed.

(** A separator in the first part makes a part more. *)
Lemma split_three sep h t :
  Str.contains (String sep EmptyString) h = true →
  ∃ p q r parts, Str.split sep (h +:+ String sep t) = p :: q :: r :: parts.
Proof.
  induction h as [|c h IH]; [done|].
  cbn [Str.contains String.prefix]. simpl.
  destruct (ascii_dec sep c) as [<-|Hc].
  - intros _. rewrite Ascii.eqb_refl.
    destruct (split_two sep h t) as (p & q & parts & ->). by eexists _, _, _, _.
  - simpl. intros (p & q & r & parts & ->)%IH.
    destruct (Ascii.eqb c sep); by eexists _, _, _, _.
Qed.

Lemma contains_char_false sep s :
  Str.contains (String sep EmptyString) s = false →
  Forall (λ c, c ≠ sep) (list_ascii_of_string s).
Proof.
  induction s as [|c s IH]; [constructor|].
  cbn [Str.contains String.prefix]. simpl.
  destruct (ascii_dec sep c) as [<-|Hc]; [by destruct s|].
  simpl. intros Hs%IH. constructor; [congruence | done].
Qed.

(** The text before the last underscore. *)
Lemma append_underscore_inj h1 h2 d1 d2 :
  Forall (λ c, c ≠ "_"%char) (list_ascii_of_string d1) →
  Forall (λ c, c ≠ "_"%char) (list_ascii_of_string d2) →
  h1 +:+ String "_" d1 = h2 +:+ String "_" d2 → h1 = h2 ∧ d1 = d2.
Proof.
  intros Hd1 Hd2. revert h2.
  induction h1 as [|c h1 IH]; intros [|c' h2]; simpl.
  - by intros [= ->].
  - intros [= <- ->]. exfalso. clear -Hd1.
    induction h2 as [|c h2 IH]; simpl in Hd1.
    + by apply Forall_cons in Hd1 as [? _].
    + apply Forall_cons in Hd1 as [_ ?]. by apply IH.
  - intros [= -> <-]. exfalso. clear -Hd2.
    induction h1 as [|c h1 IH]; simpl in Hd2.
    + by apply Forall_cons in Hd2 as [? _].
    + apply Forall_cons in Hd2 as [_ ?]. by apply IH.
  - intros [= -> [-> ->]%IH]. done.
Qed.

End splitting.

(** ** The cache of QUIC capabilities *)

Section quic_cache.
Import ssl_ ssl_.QuicCapabilityCache.
Implicit Types (self : QuicCapabilityCache.t) (fs : config_dir)
  (key item : string * Z) (host : string) (port : Z).

(** Two pairs of a host and a port have two keys. *)
Lemma cache_key_inj key item : cache_key key = cache_key item → key = item.
Proof.
  destruct key as [h1 p1], item as [h2 p2]. unfold cache_key. simpl.
  intros [= Heq].
  apply append_underscore_inj in Heq as [-> ?%of_int_inj]; [by subst| |];
    (eapply Forall_impl; [apply of_int_plain|]); by intros c [? _].
Qed.

Lemma setitem_cache self fs key host port :
  _cache (__setitem__ self fs key (Some (host, port))).1.1
  = <[ cache_key key := JStr (host +:+ ":" +:+ Str.of_int port) ]> (_cache self).
Proof. unfold __setitem__. simpl. by destruct (save _ fs). Qed.

Lemma delitem_cache self fs key :
  _cache (__delitem__ self fs key).1.1 = delete (cache_key key) (_cache self).
Proof.
  unfold __delitem__. simpl. case_bool_decide as Hkey.
  - by destruct (save _ fs).
  - simpl. symmetry. apply delete_id.
    by destruct (_cache self !! cache_key key); [destruct Hkey|].
Qed.

(** X21: what is stored for a host without a colon is read back: after
    [cache[key] = (host, port)], with ports that the interpreter
    converts, the key is in the cache and [cache[key]] is the pair
    again. *)
Theorem setitem_getitem self fs key host port :
  Str.convertible key.2 → Str.convertible port →
  Str.contains ":" host = false →
  let self' := (__setitem__ self fs key (Some (host, port))).1.1 in
  __contains__ self' key = true
  ∧ __getitem__ self' key = Returns (Some (host, port)).
Proof.
  intros _ _ Hhost%contains_char_false. cbv zeta.
  unfold __contains__, __getitem__. rewrite setitem_cache, lookup_insert_eq.
  split; [by apply bool_decide_eq_true_2|]. simpl.
  change (host +:+ ":" +:+ Str.of_int port)
    with (host +:+ String ":" (Str.of_int port)).
  rewrite split_app by done. rewrite split_none.
  2: { eapply Forall_impl; [apply of_int_plain|]. by intros c [_ ?]. }
  simpl. by rewrite int_of_int.
Qed.

(** X22: a host with a colon in it, such as an address of IPv6, is stored
    but cannot be read back: after [cache[key] = (host, port)], with
    ports that the interpreter converts, the key is in the cache, and
    [cache[key]] raises [ValueError], since the entry splits into more
    than two parts. *)
Theorem setitem_colon_host self fs key host port :
  Str.convertible key.2 → Str.convertible port →
  Str.contains ":" host = true →
  let self' := (__setitem__ self fs key (Some (host, port))).1.1 in
  __contains__ self' key = true
  ∧ __getitem__ self' key = Raises ValueError.
Proof.
  intros _ _ Hhost. cbv zeta.
  unfold __contains__, __getitem__. rewrite setitem_cache, lookup_insert_eq.
  split; [by apply bool_decide_eq_true_2|]. simpl.
  change (host +:+ ":" +:+ Str.of_int port)
    with (host +:+ String ":" (Str.of_int port)).
  by destruct (split_three ":" host (Str.of_int port) Hhost)
    as (p & q & r & parts & ->).
Qed.

(** X23: storing or deleting the entry of one pair leaves every other pair
    as it was. *)
Theorem other_keys_unchanged self fs key item (stored : option (string * Z)) :
  item ≠ key →
  let set := (__setitem__ self fs key stored).1.1 in
  let deleted := (__delitem__ self fs key).1.1 in
  __getitem__ set item = __getitem__ self item
  ∧ __contains__ set item = __contains__ self item
  ∧ __getitem__ deleted item = __getitem__ self item
  ∧ __contains__ deleted item = __contains__ self item.
Proof.
  intros Hitem. cbv zeta.
  assert (cache_key key ≠ cache_key item) as Hkey.
  { intros Heq%cache_key_inj. by destruct Hitem. }
  unfold __getitem__, __contains__. rewrite delitem_cache.
  rewrite lookup_delete_ne by done.
  destruct stored as [[host port]|]; [|done].
  rewrite setitem_cache. by rewrite lookup_insert_ne.
Qed.


(** The file follows the cache: [quic.json] holds the dictionary, or
    there is no file and the dictionary is empty. *)
Lemma perform_in_step (state : QuicCapabilityCache.t * config_dir) (c : call) :
  (state.2 = Dir (Some (_cache state.1))
   ∨ state.2 = Dir None ∧ _cache state.1 = ∅) →
  (perform state c).2 = Dir (Some (_cache (perform state c).1))
  ∨ (perform state c).2 = Dir None ∧ _cache (perform state c).1 = ∅.
Proof.
  destruct state as [self fs]. simpl. intros Hstate.
  destruct c as [key [value|]|key]; simpl.
  - left. destruct Hstate as [->|[-> _]]; done.
  - done.
  - unfold __delitem__. simpl. case_bool_decide; [|done].
    left. destruct Hstate as [->|[-> _]]; done.
Qed.

(** X25: what the cache holds outlives the object: after any calls on a cache
    that was created, a cache that is created then holds the same
    entries, and its creation leaves the directory as it is. *)
Theorem cache_persists fs (calls : list call) :
  let state := foldl perform (__init__ fs) calls in
  __init__ state.2 = state.
Proof.
  simpl.
  assert ((foldl perform (__init__ fs) calls).2
          = Dir (Some (_cache (foldl perform (__init__ fs) calls).1))
          ∨ (foldl perform (__init__ fs) calls).2 = Dir None
            ∧ _cache (foldl perform (__init__ fs) calls).1 = ∅) as Hstate.
  { induction calls as [|c calls IH] using rev_ind.
    - simpl. destruct fs as [|[loaded|]]; simpl; auto.
    - rewrite foldl_app. simpl. by apply perform_in_step. }
  destruct (foldl perform (__init__ fs) calls) as [[cache] fs']. simpl in *.
  destruct Hstate as [->|[-> ->]]; done.
Qed.

End quic_cache.

(** ** The output of the documentation template *)

Section template_output.
Import generate.
Implicit Types (s t x line : string) (lines : list string) (c : ascii)
  (run k : nat) (blank b squeezed : bool).

Local Abbreviation LF := ("010"%char).

Lemma linebreak_space c : Py.is_linebreak c = true → Py.isspace c = true.
Proof. destruct c as [[] [] [] [] [] [] [] []]; vm_compute; done. Qed.

Lemma line_feed_linebreak : Py.is_linebreak LF = true.
Proof. done. Qed.

(** *** What the substitution does to a text in lines *)

Lemma tidy_sub_newlines s run blank blank' :
  tidy false run blank s = true →
  blank = true ∨ blank' = blank →
  tidy true (run `min` 2) blank' (sub_newlines run s) = true.
Proof.
  revert run blank blank'. induction s as [|c s IH]; intros run blank blank'.
  { simpl. intros Hb [->| ->]; done. }
  cbn [tidy sub_newlines]. destruct (Ascii.eqb c LF) eqn:Hc.
  - simpl. intros Hs _. destruct (run <? 2)%nat eqn:Hrun.
    + apply Nat.ltb_lt in Hrun. cbn [tidy]. rewrite Hc.
      replace (run `min` 2) with run by lia.
      apply andb_true_iff. split; [apply Nat.ltb_lt; lia|].
      replace (S run) with (S run `min` 2) at 1 by lia.
      apply (IH _ true); auto.
    + apply Nat.ltb_ge in Hrun.
      replace (run `min` 2) with (S run `min` 2) by lia.
      apply (IH _ true); auto.
  - intros [[Hbreak Hstart]%andb_true_iff Hs]%andb_true_iff _.
    cbn [tidy]. rewrite Hc, Hbreak. simpl.
    apply andb_true_iff. split; [by destruct run as [|[|run]]|].
    apply (IH 0 (Py.isspace c)); auto.
Qed.

Lemma sub_newlines_tidy s run blank :
  tidy true run blank s = true → sub_newlines run s = s.
Proof.
  revert run blank. induction s as [|c s IH]; intros run blank; [done|].
  cbn [tidy sub_newlines]. destruct (Ascii.eqb c LF).
  - simpl. intros [-> Hs%IH]%andb_true_iff. by rewrite Hs.
  - intros [_ Hs%IH]%andb_true_iff. by rewrite Hs.
Qed.

Lemma tidy_no_three s run blank :
  tidy true run blank s = true →
  Str.contains (String LF (String LF (String LF EmptyString))) s = false
  ∧ ((1 ≤ run)%nat → String.prefix (String LF (String LF EmptyString)) s = false)
  ∧ ((2 ≤ run)%nat → String.prefix (String LF EmptyString) s = false).
Proof.
  revert run blank. induction s as [|c s IH]; intros run blank; [done|].
  cbn [tidy Str.contains String.prefix].
  destruct (Ascii.eqb c LF) eqn:Hc.
  - apply Ascii.eqb_eq in Hc as ->. simpl.
    intros [Hrun%Nat.ltb_lt (Hs & Hone & Htwo)%IH]%andb_true_iff.
    rewrite Hs, orb_false_r. split_and!.
    + apply Hone. lia.
    + intros ?. apply Htwo. lia.
    + lia.
  - apply Ascii.eqb_neq in Hc.
    intros [_ (Hs & _)%IH]%andb_true_iff. rewrite Hs.
    destruct (ascii_dec LF c); [by subst|]. done.
Qed.

Lemma tidy_rstrip s squeezed run blank :
  tidy squeezed run blank s = true → Py.rstrip s = s.
Proof.
  revert run blank. induction s as [|c s IH]; intros run blank; [done|].
  cbn [tidy Py.rstrip]. destruct (Ascii.eqb c LF) eqn:Hc.
  - intros [_ Hs]%andb_true_iff. rewrite (IH _ _ Hs). by destruct s.
  - intros [_ Hs]%andb_true_iff. rewrite (IH _ _ Hs).
    destruct s; [|done]. simpl in Hs. apply negb_true_iff in Hs. by rewrite Hs.
Qed.

(** *** The lines of a tidy text *)

Lemma join_cons_char (sep : string) c line lines :
  Str.join sep (String c line :: lines) = String c (Str.join sep (line :: lines)).
Proof. by destruct lines. Qed.

Lemma join_cons_cons (sep : string) x line lines :
  Str.join sep (x :: line :: lines) = x +:+ sep +:+ Str.join sep (line :: lines).
Proof. done. Qed.

Lemma tidy_first_line s squeezed run blank line lines :
  tidy squeezed (S run) blank s = true →
  Py.splitlines s = line :: lines → Py.lstrip line = line.
Proof.
  destruct s as [|c s]; [done|]. cbn [tidy Py.splitlines].
  destruct (Ascii.eqb c LF) eqn:Hc.
  - apply Ascii.eqb_eq in Hc as ->. by intros _ [= <- _].
  - intros [[->%negb_true_iff Hstart%negb_true_iff]%andb_true_iff _]%andb_true_iff.
    destruct (Py.splitlines s); intros [= <- _]; simpl; by rewrite Hstart.
Qed.

(** A tidy text is its lines joined by line feeds, the white space
    before every line but the first being dropped. *)
Lemma tidy_lines s squeezed run blank :
  tidy squeezed run blank s = true →
  Str.join (String LF EmptyString)
    match Py.splitlines s with
    | [] => []
    | line :: lines => line :: (Py.lstrip <$> lines)
    end = s.
Proof.
  revert run blank. induction s as [|c s IH]; intros run blank; [done|].
  cbn [tidy Py.splitlines]. destruct (Ascii.eqb c LF) eqn:Hc.
  - apply Ascii.eqb_eq in Hc as ->.
    intros [_ Hs]%andb_true_iff. cbn [Py.is_linebreak].
    change (Py.is_linebreak LF) with true. cbn match.
    change (Ascii.eqb LF "013") with false. cbn match.
    pose proof (IH _ _ Hs) as Hlines.
    destruct (Py.splitlines s) as [|line lines] eqn:Hsplit.
    { apply splitlines_nil in Hsplit as ->. done. }
    rewrite fmap_cons, (tidy_first_line s squeezed run true line lines Hs Hsplit).
    by rewrite join_cons_cons, Hlines.
  - intros [[->%negb_true_iff _]%andb_true_iff Hs]%andb_true_iff.
    pose proof (IH _ _ Hs) as Hlines.
    destruct (Py.splitlines s) as [|line lines] eqn:Hsplit.
    { apply splitlines_nil in Hsplit as ->. done. }
    by rewrite join_cons_char, Hlines.
Qed.

Lemma lstrip_length s : (String.length (Py.lstrip s) ≤ String.length s)%nat.
Proof.
  induction s as [|c s IH]; simpl; [done|]. destruct (Py.isspace c); simpl; lia.
Qed.

Lemma tidy_lines_lstrip s squeezed run blank :
  tidy squeezed run blank s = true →
  Py.lstrip s = s →
  Str.join (String LF EmptyString) (Py.lstrip <$> Py.splitlines s) = s.
Proof.
  intros Hs Hstart. rewrite <- (tidy_lines s squeezed run blank Hs) at 2.
  destruct (Py.splitlines s) as [|line lines] eqn:Hsplit; [done|].
  rewrite fmap_cons. f_equal. f_equal.
  destruct s as [|c s]; [done|]. simpl in Hstart.
  destruct (Py.isspace c) eqn:Hc.
  { pose proof (lstrip_length s) as Hlen. rewrite Hstart in Hlen.
    simpl in Hlen. lia. }
  simpl in Hsplit. destruct (Py.is_linebreak c) eqn:Hbreak.
  { apply linebreak_space in Hbreak. congruence. }
  destruct (Py.splitlines s); injection Hsplit as <- _; simpl; by rewrite Hc.
Qed.

End template_output.

Section template_lines.
Import generate.
Implicit Types (s t x line : string) (lines : list string) (c : ascii)
  (run k : nat) (blank b squeezed : bool).

Local Abbreviation LF := ("010"%char).
Local Abbreviation plain line :=
  (Forall (λ c, Py.is_linebreak c = false) (list_ascii_of_string line)).

(** *** The lines of a stripped text *)

Lemma splitlines_plain s : Forall (λ line, plain line) (Py.splitlines s).
Proof.
  assert (∀ n s, (String.length s < n)%nat →
            Forall (λ line, plain line) (Py.splitlines s)) as Hall.
  2: { by apply (Hall (S (String.length s))), Nat.lt_succ_diag_r. }
  clear s. induction n as [|n IH]; intros s Hn; [lia|].
  destruct s as [|c s]; [constructor|]. simpl in Hn. cbn [Py.splitlines].
  destruct (Py.is_linebreak c) eqn:Hc.
  - constructor; [constructor|].
    destruct (Ascii.eqb c "013"); [|apply IH; lia].
    destruct s as [|c' s]; [constructor|]. simpl in Hn.
    assert (Forall (λ line, plain line) (Py.splitlines s)) by (apply IH; lia).
    assert (Forall (λ line, plain line) (Py.splitlines (String c' s)))
      by (apply IH; simpl; lia).
    destruct c' as [[] [] [] [] [] [] [] []]; done.
  - assert (Forall (λ line, plain line) (Py.splitlines s)) as Hs
      by (apply IH; lia).
    destruct (Py.splitlines s) as [|line lines].
    + repeat constructor. done.
    + apply Forall_cons in Hs as [Hline Hlines].
      constructor; [by constructor | done].
Qed.

Lemma lstrip_plain line : plain line → plain (Py.lstrip line).
Proof.
  induction line as [|c line IH]; [done|]. simpl.
  intros [Hc Hline]%Forall_cons.
  destruct (Py.isspace c); [by apply IH | by constructor].
Qed.

Lemma lstrip_start c t : Py.lstrip (String c t) = String c t → Py.isspace c = false.
Proof.
  simpl. destruct (Py.isspace c); [|done]. intros Heq.
  pose proof (lstrip_length t) as Hlen. rewrite Heq in Hlen. simpl in Hlen. lia.
Qed.

Lemma lstrip_idem s : Py.lstrip (Py.lstrip s) = Py.lstrip s.
Proof.
  induction s as [|c s IH]; [done|]. simpl.
  destruct (Py.isspace c) eqn:Hc; [done|]. simpl. by rewrite Hc.
Qed.

Lemma rstrip_cons c s :
  Py.rstrip (String c s) = String c s →
  s = EmptyString ∧ Py.isspace c = false
  ∨ s ≠ EmptyString ∧ Py.rstrip s = s.
Proof.
  simpl. destruct (Py.rstrip s) as [|c' r] eqn:Hr.
  - destruct (Py.isspace c); [done|]. intros [= <-]. by left.
  - intros [= <-]. by right.
Qed.

Lemma rstrip_cons_id c s :
  s ≠ EmptyString → Py.rstrip s = s → Py.rstrip (String c s) = String c s.
Proof. intros Hs Hr. simpl. rewrite Hr. by destruct s. Qed.

Lemma rstrip_idem s : Py.rstrip (Py.rstrip s) = Py.rstrip s.
Proof.
  induction s as [|c s IH]; [done|]. simpl.
  destruct (Py.rstrip s) as [|c' r] eqn:Hr.
  - destruct (Py.isspace c) eqn:Hc; [done|]. simpl. by rewrite Hc.
  - change (Py.rstrip (String c (String c' r)) = String c (String c' r)).
    by apply rstrip_cons_id.
Qed.

(** The last line of a text that does not end in white space does not
    end in white space either. *)
Lemma splitlines_last s :
  Py.rstrip s = s → s ≠ EmptyString →
  ∃ lines line,
    Py.splitlines s = lines ++ [line]
    ∧ Py.rstrip line = line ∧ line ≠ EmptyString.
Proof.
  induction s as [|c s IH]; [done|]. intros Hr _.
  apply rstrip_cons in Hr as [[-> Hc]|[Hs Hr]].
  { exists [], (String c EmptyString). cbn [Py.splitlines].
    destruct (Py.is_linebreak c) eqn:Hbreak.
    { apply linebreak_space in Hbreak. congruence. }
    split_and!; [done| |done]. simpl. by rewrite Hc. }
  destruct (IH Hr Hs) as (lines & line & Hsplit & Hline & Hne).
  cbn [Py.splitlines]. destruct (Py.is_linebreak c) eqn:Hbreak.
  - destruct (Ascii.eqb c "013") eqn:Hcr.
    + destruct s as [|c' s]; [done|].
      destruct (Ascii.eqb c' LF) eqn:Hlf.
      * apply Ascii.eqb_eq in Hlf as ->.
        exists lines, line. split_and!; [|done..].
        rewrite <- Hsplit. done.
      * exists (EmptyString :: lines), line. split_and!; [|done..].
        rewrite <- app_comm_cons, <- Hsplit.
        destruct c' as [[] [] [] [] [] [] [] []]; done.
    + exists (EmptyString :: lines), line. split_and!; [|done..].
      by rewrite Hsplit.
  - rewrite Hsplit. destruct lines as [|first lines]; simpl.
    + exists [], (String c line). split_and!; [done| |done].
      by apply rstrip_cons_id.
    + exists (String c first :: lines), line. by split_and!.
Qed.

Lemma lstrip_keeps_end line :
  Py.rstrip line = line → line ≠ EmptyString →
  Py.rstrip (Py.lstrip line) = Py.lstrip line ∧ Py.lstrip line ≠ EmptyString.
Proof.
  induction line as [|c line IH]; [done|]. intros Hr _.
  simpl Py.lstrip. destruct (Py.isspace c) eqn:Hc; [|done].
  apply rstrip_cons in Hr as [[_ ?]|[Hs Hr]]; [congruence|]. by apply IH.
Qed.

(** *** The joined lines *)

Lemma tidy_line_feed line run blank rest :
  plain line →
  Py.lstrip line = line ∨ run = 0 →
  tidy false run blank (line +:+ String LF rest)
  = tidy false (match line with EmptyString => S run | _ => 1 end) true rest.
Proof.
  revert run blank. induction line as [|c line IH]; intros run blank; [done|].
  intros [Hc Hline]%Forall_cons Hstart. cbn [tidy].
  change ((String c line +:+ String LF rest))
    with (String c (line +:+ String LF rest)). cbn [tidy].
  assert (Ascii.eqb c LF = false) as ->.
  { apply Ascii.eqb_neq. by intros ->. }
  rewrite Hc. simpl negb. rewrite andb_true_l.
  assert ((if (0 <? run)%nat then negb (Py.isspace c) else true) = true) as ->.
  { destruct Hstart as [Hstart%lstrip_start| ->]; [|done].
    rewrite Hstart. by destruct (0 <? run)%nat. }
  rewrite andb_true_l, (IH 0) by auto. by destruct line.
Qed.

Lemma tidy_last_line line run blank :
  plain line →
  Py.lstrip line = line ∨ run = 0 →
  Py.rstrip line = line → line ≠ EmptyString →
  tidy false run blank line = true.
Proof.
  revert run blank. induction line as [|c line IH]; intros run blank; [done|].
  intros [Hc Hline]%Forall_cons Hstart Hr _. cbn [tidy].
  assert (Ascii.eqb c LF = false) as ->.
  { apply Ascii.eqb_neq. by intros ->. }
  rewrite Hc. simpl negb. rewrite andb_true_l.
  assert ((if (0 <? run)%nat then negb (Py.isspace c) else true) = true) as ->.
  { destruct Hstart as [Hstart%lstrip_start| ->]; [|done].
    rewrite Hstart. by destruct (0 <? run)%nat. }
  rewrite andb_true_l.
  apply rstrip_cons in Hr as [[-> ->]|[Hne Hr]]; [done|]. apply IH; auto.
Qed.

Lemma join_tidy lines line run blank :
  Forall (λ line, plain line ∧ Py.lstrip line = line) (lines ++ [line]) →
  Py.rstrip line = line → line ≠ EmptyString →
  tidy false run blank (Str.join (String LF EmptyString) (lines ++ [line]))
  = true.
Proof.
  intros Hlines Hr Hne. revert run blank Hlines.
  induction lines as [|first lines IH]; intros run blank Hlines.
  - apply Forall_singleton in Hlines as [? ?]. simpl.
    apply tidy_last_line; auto.
  - rewrite <- app_comm_cons in *.
    apply Forall_cons in Hlines as [[Hplain Hstart] Hlines].
    assert (∃ next more, lines ++ [line] = next :: more) as (next & more & Heq).
    { destruct lines; by eexists _, _. }
    rewrite Heq, join_cons_cons, <- Heq.
    change (first +:+ String LF EmptyString
              +:+ Str.join (String LF EmptyString) (lines ++ [line]))
      with (first +:+ (String LF EmptyString
              +:+ Str.join (String LF EmptyString) (lines ++ [line]))).
    change (String LF EmptyString
              +:+ Str.join (String LF EmptyString) (lines ++ [line]))
      with (String LF (Str.join (String LF EmptyString) (lines ++ [line]))).
    rewrite tidy_line_feed by auto. by apply IH.
Qed.

Lemma rstrip_strip x : Py.rstrip (Py.strip x) = Py.strip x.
Proof. unfold Py.strip. apply rstrip_idem. Qed.

(** *** The output *)

(** The output is tidy and does not start with white space. *)
Lemma clean_template_output_tidy x :
  tidy true 0 false (clean_template_output x) = true
  ∧ Py.lstrip (clean_template_output x) = clean_template_output x.
Proof.
  unfold clean_template_output.
  destruct (Py.strip x) as [|c t] eqn:Hstrip; [done|].
  pose proof (strip_spec x) as (_ & _ & _ & _ & _ & Hfirst & _).
  rewrite Hstrip in Hfirst. specialize (Hfirst c t eq_refl).
  assert (Py.is_linebreak c = false) as Hbreak.
  { destruct (Py.is_linebreak c) eqn:Hb; [|done].
    apply linebreak_space in Hb. congruence. }
  pose proof (rstrip_strip x) as Hr. rewrite Hstrip in Hr.
  destruct (splitlines_last (String c t) Hr) as (lines & line & Hsplit & Hline & Hne);
    [done|].
  pose proof (splitlines_plain (String c t)) as Hplain.
  rewrite Hsplit in Hplain.
  destruct (lstrip_keeps_end line Hline Hne) as [Hend Hnonempty].
  assert (Py.lstrip <$> Py.splitlines (String c t)
          = (Py.lstrip <$> lines) ++ [Py.lstrip line]) as Hlines.
  { by rewrite Hsplit, fmap_app. }
  assert (tidy false 0 false
            (Str.join (String LF EmptyString)
               (Py.lstrip <$> Py.splitlines (String c t))) = true) as Htidy.
  { rewrite Hlines. apply join_tidy; [|done..].
    rewrite <- Hlines, Hsplit.
    apply Forall_fmap. eapply Forall_impl; [exact Hplain|]. simpl.
    intros l Hl. split; [by apply lstrip_plain | apply lstrip_idem]. }
  split.
  - by apply (tidy_sub_newlines _ 0 false false Htidy); right.
  - clear Htidy Hlines. cbn [Py.splitlines]. rewrite Hbreak.
    assert (∃ l more, Py.lstrip <$> match Py.splitlines t with
                                    | [] => [String c EmptyString]
                                    | l0 :: ls => String c l0 :: ls
                                    end = String c l :: more) as (l & more & ->).
    { destruct (Py.splitlines t) as [|l0 ls]; rewrite fmap_cons; simpl;
        rewrite Hfirst; by eexists _, _. }
    rewrite join_cons_char. cbn [sub_newlines].
    assert (Ascii.eqb c LF = false) as ->.
    { apply Ascii.eqb_neq. by intros ->. }
    simpl. by rewrite Hfirst.
Qed.

End template_lines.

Section template_theorems.
Import generate.
Implicit Types (s x line : string) (lines : list string).

Local Abbreviation LF := ("010"%char).

Lemma tidy_tail_lines s squeezed run blank :
  tidy squeezed run blank s = true →
  Forall (λ line, Py.lstrip line = line) (tail (Py.splitlines s)).
Proof.
  revert run blank. induction s as [|c s IH]; intros run blank; [constructor|].
  cbn [tidy Py.splitlines]. destruct (Ascii.eqb c LF) eqn:Hc.
  - apply Ascii.eqb_eq in Hc as ->. intros [_ Hs]%andb_true_iff.
    change (Py.is_linebreak LF) with true. cbn match.
    change (Ascii.eqb LF "013") with false. cbn match. simpl tail.
    pose proof (IH _ _ Hs) as Htail.
    destruct (Py.splitlines s) as [|line lines] eqn:Hsplit; [constructor|].
    constructor; [|done]. by eapply tidy_first_line.
  - intros [[->%negb_true_iff _]%andb_true_iff Hs]%andb_true_iff.
    pose proof (IH _ _ Hs) as Htail.
    destruct (Py.splitlines s); [constructor | done].
Qed.

Lemma first_line_lstrip s line lines :
  Py.lstrip s = s → Py.splitlines s = line :: lines → Py.lstrip line = line.
Proof.
  destruct s as [|c s]; [done|]. intros Hc%lstrip_start. cbn [Py.splitlines].
  destruct (Py.is_linebreak c) eqn:Hbreak.
  { apply linebreak_space in Hbreak. congruence. }
  destruct (Py.splitlines s); intros [= <- _]; simpl; by rewrite Hc.
Qed.

Lemma clean_template_output_stripped x :
  Py.strip (clean_template_output x) = clean_template_output x.
Proof.
  destruct (clean_template_output_tidy x) as [Htidy Hstart].
  unfold Py.strip. rewrite Hstart. by eapply tidy_rstrip.
Qed.

(** X26: the output has no run of three line feeds: between two lines of
    text there is one empty line at most. *)
Theorem clean_template_output_blank_lines x :
  Str.contains (String LF (String LF (String LF EmptyString)))
               (clean_template_output x) = false.
Proof.
  destruct (clean_template_output_tidy x) as [Htidy _].
  by apply tidy_no_three in Htidy as [? _].
Qed.

(** X27: the output has no white space at either end, and none of its lines
    starts with white space. *)
Theorem clean_template_output_margins x :
  Py.strip (clean_template_output x) = clean_template_output x
  ∧ Forall (λ line, Py.lstrip line = line)
           (Py.splitlines (clean_template_output x)).
Proof.
  destruct (clean_template_output_tidy x) as [Htidy Hstart]. split.
  - apply clean_template_output_stripped.
  - pose proof (tidy_tail_lines _ _ _ _ Htidy) as Htail.
    destruct (Py.splitlines (clean_template_output x)) as [|line lines] eqn:Hsplit;
      [constructor|].
    constructor; [|done]. by eapply first_line_lstrip.
Qed.

(** X28: cleaning an output that is clean changes nothing. *)
Theorem clean_template_output_idempotent x :
  clean_template_output (clean_template_output x) = clean_template_output x.
Proof.
  destruct (clean_template_output_tidy x) as [Htidy Hstart].
  unfold clean_template_output at 1. rewrite clean_template_output_stripped.
  rewrite (tidy_lines_lstrip _ _ _ _ Htidy Hstart).
  by eapply sub_newlines_tidy.
Qed.

End template_theorems.

(** ** The documentation file *)

Section texts.
Implicit Types (s t x y z sub pre rest : string) (a c : ascii) (n : nat).

Lemma string_app_cons c x y : String c x +:+ y = String c (x +:+ y).
Proof. done. Qed.

Lemma string_app_assoc x y z : (x +:+ y) +:+ z = x +:+ (y +:+ z).
Proof.
  induction x as [|c x IH]; [done|]. by rewrite !string_app_cons, IH.
Qed.

Lemma string_app_length x y :
  String.length (x +:+ y) = (String.length x + String.length y)%nat.
Proof.
  induction x as [|c x IH]; [done|]. rewrite string_app_cons. simpl.
  by rewrite IH.
Qed.

Lemma string_app_inj_r x y z : x +:+ z = y +:+ z → x = y.
Proof.
  revert y. induction x as [|c x IH]; intros [|c' y]; [done| | |].
  - intros Heq. apply (f_equal String.length) in Heq.
    rewrite !string_app_length in Heq. simpl in Heq. lia.
  - intros Heq. apply (f_equal String.length) in Heq.
    rewrite !string_app_length in Heq. simpl in Heq. lia.
  - rewrite !string_app_cons. intros [= -> ?%IH]. by subst.
Qed.

Lemma take_app x y : Str.take (String.length x) (x +:+ y) = x.
Proof.
  induction x as [|c x IH]; [by destruct y|].
  rewrite string_app_cons. simpl. by rewrite IH.
Qed.

Lemma drop_app x y : Str.drop (String.length x) (x +:+ y) = y.
Proof.
  induction x as [|c x IH]; [by destruct y|]. by rewrite string_app_cons.
Qed.

Lemma drop_0 s : Str.drop 0 s = s.
Proof. by destruct s. Qed.

Lemma position_of_nat s n : Str.position s (Z.of_nat n) = n.
Proof.
  unfold Str.position.
  destruct (Z.of_nat n <? 0)%Z eqn:Hn; [apply Z.ltb_lt in Hn; lia|].
  apply Nat2Z.id.
Qed.

Lemma position_0 s : Str.position s 0 = 0%nat.
Proof. apply (position_of_nat s 0). Qed.

(** A text that is matched at the start of [x] followed by [a] is
    matched inside [x], when [a] is not in it. *)
Lemma prefix_before sub x a t :
  Forall (λ c, c ≠ a) (list_ascii_of_string sub) →
  String.prefix sub (x +:+ String a t) = true → String.prefix sub x = true.
Proof.
  revert x. induction sub as [|b sub IH]; intros x Hsub; [by destruct x|].
  apply Forall_cons in Hsub as [Hb Hsub]. destruct x as [|c x].
  - change (EmptyString +:+ String a t) with (String a t). simpl.
    by destruct (ascii_dec b a).
  - rewrite string_app_cons. simpl.
    destruct (ascii_dec b c); [|done]. by apply IH.
Qed.

(** The first occurrence of a text whose first character is nowhere
    else in it. *)
Lemma first_index_app a sub pre rest :
  Forall (λ c, c ≠ a) (list_ascii_of_string sub) →
  Str.contains (String a sub) pre = false →
  Str.first_index (String a sub) (pre +:+ String a sub +:+ rest)
  = Some (String.length pre).
Proof.
  intros Hsub. induction pre as [|c pre IH].
  - intros _.
    change (EmptyString +:+ String a sub +:+ rest)
      with (String a (sub +:+ rest)).
    cbn [Str.first_index String.prefix].
    destruct (ascii_dec a a); [|done].
    assert (String.prefix sub (sub +:+ rest) = true) as ->; [|done].
    clear. induction sub as [|b sub IH]; [by destruct rest|].
    rewrite string_app_cons. simpl. by destruct (ascii_dec b b).
  - cbn [Str.contains]. intros [Hhere Hlater]%orb_false_iff.
    rewrite string_app_cons. cbn [Str.first_index].
    assert (String.prefix (String a sub)
              (String c (pre +:+ String a sub +:+ rest)) = false) as ->.
    { apply not_true_is_false. intros Hp. simpl in Hp, Hhere.
      destruct (ascii_dec a c); [|done].
      change (pre +:+ String a sub +:+ rest)
        with (pre +:+ String a (sub +:+ rest)) in Hp.
      apply prefix_before in Hp; [congruence | done]. }
    by rewrite (IH Hlater).
Qed.

Lemma first_index_None sub s :
  Str.contains sub s = false → Str.first_index sub s = None.
Proof.
  induction s as [|c s IH]; cbn [Str.contains Str.first_index].
  - by intros [-> _]%orb_false_iff.
  - intros [-> Hs%IH]%orb_false_iff. by rewrite Hs.
Qed.

End texts.

Section doc_file.
Import generate.
Implicit Types (content doc pre pad old post : string).

Lemma marker_start_plain :
  Forall (λ c, c ≠ "<"%char)
         (list_ascii_of_string "div data-installation-instructions>").
Proof. repeat constructor; done. Qed.

Lemma marker_end_plain :
  Forall (λ c, c ≠ "<"%char) (list_ascii_of_string "/div>").
Proof. repeat constructor; done. Qed.

(** X29: when the file has the two markers, the text between them, after
    the two characters that follow the first marker, is replaced by the
    content and nothing else changes; the call returns [False], and
    leaves the file alone, exactly when the content is there already. *)
Theorem save_doc_file_replaces content doc pre pad old post :
  load_doc_file doc
  = pre +:+ MARKER_START +:+ pad +:+ old +:+ MARKER_END +:+ post →
  String.length pad = 2 →
  Str.contains MARKER_START pre = false →
  Str.contains MARKER_END old = false →
  save_doc_file content doc
  = if bool_decide (content = old) then (doc, false)
    else (pre +:+ MARKER_START +:+ pad +:+ content +:+ MARKER_END +:+ post,
          true).
Proof.
  intros Hdoc Hpad Hpre Hold. unfold save_doc_file. rewrite Hdoc.
  set (head := pre +:+ MARKER_START +:+ pad).
  assert (String.length head = (String.length pre + 38)%nat) as Hhead.
  { unfold head. rewrite !string_app_length, Hpad. simpl. lia. }
  assert (pre +:+ MARKER_START +:+ pad +:+ old +:+ MARKER_END +:+ post
          = head +:+ old +:+ MARKER_END +:+ post) as ->.
  { unfold head. by rewrite !string_app_assoc. }
  assert (Str.find MARKER_START (head +:+ old +:+ MARKER_END +:+ post) 0
          = Z.of_nat (String.length pre)) as ->.
  { unfold Str.find. rewrite position_0, drop_0. cbn [Nat.leb].
    assert (head +:+ old +:+ MARKER_END +:+ post
            = pre +:+ MARKER_START
                +:+ (pad +:+ old +:+ MARKER_END +:+ post)) as ->.
    { unfold head. by rewrite !string_app_assoc. }
    unfold MARKER_START at 1 2.
    rewrite (first_index_app "<" _ pre _ marker_start_plain Hpre).
    by rewrite Nat.add_0_l. }
  assert ((Z.of_nat (String.length pre)
           + Z.of_nat (String.length MARKER_START) + 2)%Z
          = Z.of_nat (String.length head)) as ->.
  { rewrite Hhead. simpl String.length. lia. }
  pose proof position_of_nat as Hposition.
  assert (Str.find MARKER_END (head +:+ old +:+ MARKER_END +:+ post)
            (Z.of_nat (String.length head))
          = Z.of_nat (String.length head + String.length old)) as ->.
  { unfold Str.find. rewrite Hposition.
    assert ((String.length head
             <=? String.length (head +:+ old +:+ MARKER_END +:+ post))%nat
            = true) as ->.
    { apply Nat.leb_le. rewrite string_app_length. lia. }
    rewrite drop_app. unfold MARKER_END at 1 2.
    by rewrite (first_index_app "<" _ old _ marker_end_plain Hold). }
  unfold Str.slice_to, Str.slice_from. rewrite !Hposition.
  rewrite take_app.
  rewrite <- (string_app_length head old), <- string_app_assoc, drop_app.
  rewrite string_app_assoc.
  assert (pre +:+ MARKER_START +:+ pad +:+ content +:+ MARKER_END +:+ post
          = head +:+ content +:+ MARKER_END +:+ post) as ->.
  { unfold head. by rewrite !string_app_assoc. }
  destruct (decide (content = old)) as [->|Hne].
  - rewrite (bool_decide_eq_true_2 (old = old)) by done.
    rewrite bool_decide_eq_false_2; [done|]. by intros [].
  - rewrite (bool_decide_eq_false_2 (content = old)) by done.
    rewrite bool_decide_eq_true_2; [done|].
    intros Heq. apply (inj (String.append head)) in Heq.
    apply string_app_inj_r in Heq. by destruct Hne.
Qed.

(** X30: a missing marker is no error: without the first marker the content
    goes in after the first 37 characters of the file, and without a
    closing marker after that place all that follows is replaced, the
    last character of the file excepted. *)
Theorem save_doc_file_without_markers content doc :
  Str.contains MARKER_START (load_doc_file doc) = false →
  Str.contains MARKER_END (Str.drop 37 (load_doc_file doc)) = false →
  let updated_doc :=
    Str.take 37 (load_doc_file doc)
      +:+ content +:+ Str.slice_from (load_doc_file doc) (-1) in
  save_doc_file content doc
  = if bool_decide (load_doc_file doc = updated_doc) then (doc, false)
    else (updated_doc, true).
Proof.
  intros Hstart Hend. cbv zeta. unfold save_doc_file.
  set (current_doc := load_doc_file doc) in *.
  assert (Str.find MARKER_START current_doc 0 = (-1)%Z) as ->.
  { unfold Str.find. rewrite position_0, drop_0. cbn [Nat.leb].
    by rewrite first_index_None. }
  change (-1 + Z.of_nat (String.length MARKER_START) + 2)%Z
    with (Z.of_nat 37).
  pose proof (position_of_nat current_doc 37) as Hposition.
  assert (Str.find MARKER_END current_doc (Z.of_nat 37) = (-1)%Z) as ->.
  { unfold Str.find. rewrite Hposition.
    destruct (37 <=? String.length current_doc)%nat; [|done].
    by rewrite first_index_None. }
  unfold Str.slice_to. rewrite Hposition.
  destruct (decide (current_doc
                    = Str.take 37 current_doc +:+ content
                        +:+ Str.slice_from current_doc (-1))) as [Heq|Hne].
  - rewrite (bool_decide_eq_true_2 _ Heq).
    rewrite bool_decide_eq_false_2; [done|]. by intros [].
  - rewrite (bool_decide_eq_false_2 _ Hne).
    by rewrite bool_decide_eq_true_2.
Qed.

End doc_file.

(** ** The properties of the other modules on samples *)

Section other_samples.
Import Cases ssl_ ssl_.QuicCapabilityCache.

Example cache_key_sample : cache_key origin = "QUIC_example.org_443".
Proof. reflexivity. Qed.

Example clean_template_output_sample :
  generate.clean_template_output rendered
  = "## Linux

Install with apt.

## macOS
Install with brew.".
Proof. reflexivity. Qed.

Lemma setitem_getitem_witness :
  __contains__
    (__setitem__ (__init__ Missing).1 (__init__ Missing).2 origin
       (Some alternative)).1.1 origin
  = true
  ∧ __getitem__
      (__setitem__ (__init__ Missing).1 (__init__ Missing).2 origin
         (Some alternative)).1.1 origin
    = Returns (Some alternative).
Proof.
  apply (setitem_getitem (__init__ Missing).1 (__init__ Missing).2 origin
           "alt.example.org" 8443).
  - vm_compute. reflexivity.
  - vm_compute. reflexivity.
  - vm_compute. reflexivity.
Defined.

Lemma setitem_colon_host_witness :
  __contains__
    (__setitem__ (__init__ Missing).1 (__init__ Missing).2 origin
       (Some loopback)).1.1 origin
  = true
  ∧ __getitem__
      (__setitem__ (__init__ Missing).1 (__init__ Missing).2 origin
         (Some loopback)).1.1 origin
    = Raises ValueError.
Proof.
  apply (setitem_colon_host (__init__ Missing).1 (__init__ Missing).2 origin
           "::1" 443).
  - vm_compute. reflexivity.
  - vm_compute. reflexivity.
  - vm_compute. reflexivity.
Defined.

Lemma other_keys_unchanged_witness :
  __getitem__
    (__setitem__ (__init__ Missing).1 (__init__ Missing).2 origin
       (Some alternative)).1.1 ("example.org", 80%Z)
  = Returns None.
Proof.
  destruct (other_keys_unchanged (__init__ Missing).1 (__init__ Missing).2
              origin ("example.org", 80%Z) (Some alternative)) as [Hread _].
  - discriminate.
  - rewrite Hread. reflexivity.
Defined.


Lemma cache_persists_witness :
  ∃ self fs,
    (self, fs)
    = foldl perform (__init__ Missing)
        [SetItem origin (Some alternative); SetItem alternative None;
         DelItem alternative]
    ∧ __init__ fs = (self, fs)
    ∧ __getitem__ (__init__ fs).1 origin = Returns (Some alternative).
Proof.
  eexists _, _. split; [reflexivity|]. split.
  - apply (cache_persists Missing
             [SetItem origin (Some alternative); SetItem alternative None;
              DelItem alternative]).
  - vm_compute. reflexivity.
Defined.

Lemma save_doc_file_replaces_witness :
  generate.save_doc_file "New instructions.
" readme
  = ("# HTTPie
<div data-installation-instructions>

New instructions.
</div>
## Usage", true).
Proof.
  rewrite (save_doc_file_replaces "New instructions.
" readme "# HTTPie
" "

" "Old instructions.
" "
## Usage").
  - vm_compute. reflexivity.
  - vm_compute. reflexivity.
  - reflexivity.
  - vm_compute. reflexivity.
  - vm_compute. reflexivity.
Defined.

Lemma save_doc_file_without_markers_witness :
  generate.save_doc_file "!!" unmarked
  = ("The quick brown fox jumps over the la!!.", true).
Proof.
  rewrite (save_doc_file_without_markers "!!" unmarked).
  - vm_compute. reflexivity.
  - vm_compute. reflexivity.
  - vm_compute. reflexivity.
Defined.

End other_samples.
